(** * Classroom indicator lights: the web receiver

    A shallow embedding of [software/fastapi_receiver.py]: the table store
    ([TableState]), the websocket fan-out ([WebsocketManager]) and the
    serial bridge ([SerialReceiver]), with the properties the design
    document states about them.

    Conventions of the embedding.
    - Python [int] is [Z]; [str] is [string]; a [float] timestamp returned
      by [time.time()] is a rational [Q] (exact arithmetic, no rounding).
    - A Python [dict] is an insertion-ordered association list with unique
      keys: assigning to an existing key keeps its position, assigning to a
      new key appends it.  The order is observable through the stable sort
      of [_red_durations_locked].
    - Methods that mutate [self] take the object and return the new one.
      Each call of [time.time()] is an explicit argument of the method.
    - A raised exception is a value of [exception]; a call that may raise
      returns an [exc]; [try]/[except ValueError] is [try_except_ValueError].
*)

From Stdlib Require Import ZArith QArith List String Ascii Bool Lia.
From Stdlib Require Import Sorted Permutation DecimalString DecimalPos.
Import ListNotations.

Local Open Scope string_scope.
Local Open Scope Z_scope.

(* ===================================================================== *)
(** * Part I: the program *)
(* ===================================================================== *)

(** ** Exceptions *)

Inductive exception : Type :=
| ValueError (msg : string)
| RuntimeError (msg : string)
| KeyError (key : string).

(** The outcome of a call that may raise. *)
Inductive exc (A : Type) : Type :=
| Return (a : A)
| Raise (e : exception).
Arguments Return {A} a.
Arguments Raise {A} e.

Definition bind {A B : Type} (m : exc A) (k : A -> exc B) : exc B :=
  match m with
  | Return a => k a
  | Raise e => Raise e
  end.

Notation "x <- m ;; k" := (bind m (fun x => k))
  (at level 61, m at next level, right associativity).

Definition is_ValueError (e : exception) : bool :=
  match e with ValueError _ => true | _ => false end.

(** [try: body / except ValueError: handler]; other exceptions propagate. *)
Definition try_except_ValueError {A : Type} (body handler : exc A) : exc A :=
  match body with
  | Return a => Return a
  | Raise e => if is_ValueError e then handler else Raise e
  end.

(** ** Insertion-ordered dictionaries with integer keys *)

Module PyDict.

Definition dict (V : Type) : Type := list (Z * V).

(** [d.get(k)] *)
Fixpoint get {V : Type} (d : dict V) (k : Z) : option V :=
  match d with
  | [] => None
  | (k', v) :: d' => if k' =? k then Some v else get d' k
  end.

(** [k in d] *)
Definition mem {V : Type} (d : dict V) (k : Z) : bool :=
  match get d k with Some _ => true | None => false end.

(** [d[k] = v] *)
Fixpoint set {V : Type} (d : dict V) (k : Z) (v : V) : dict V :=
  match d with
  | [] => [(k, v)]
  | (k', v') :: d' => if k' =? k then (k, v) :: d' else (k', v') :: set d' k v
  end.

Definition keys {V : Type} (d : dict V) : list Z := map fst d.
Definition values {V : Type} (d : dict V) : list V := map snd d.
Definition items {V : Type} (d : dict V) : list (Z * V) := d.

(** [{k: v for k in ks}] *)
Definition from_keys {V : Type} (ks : list Z) (v : V) : dict V :=
  fold_left (fun d k => set d k v) ks [].

End PyDict.

Import PyDict.

(** ** Built-ins *)

(** [range(a, b)] *)
Definition py_range (a b : Z) : list Z :=
  map (fun i => a + Z.of_nat i) (seq 0 (Z.to_nat (b - a))).

(** [l[:limit]], also for a negative [limit] (counted from the end). *)
Definition py_slice_to {A : Type} (l : list A) (limit : Z) : list A :=
  if 0 <=? limit then firstn (Z.to_nat limit) l
  else firstn (Z.to_nat (Z.of_nat (List.length l) + limit)) l.

(** [int(x)] of a float: truncation toward zero. *)
Definition int_of_float (x : Q) : Z := Z.quot (Qnum x) (Z.pos (Qden x)).

(** [bool(x)] of an [Optional[float]]: [None] and [0.0] are false. *)
Definition truthy_time (x : option Q) : bool :=
  match x with
  | Some t => negb (Qeq_bool t 0)
  | None => false
  end.

(** [bool(s)] of an [Optional[str]]: [None] and the empty string are false. *)
Definition truthy_str (x : option string) : bool :=
  match x with
  | Some EmptyString => false
  | Some _ => true
  | None => false
  end.

(** [s.split(sep)] for a one-character separator. *)
Fixpoint py_split (sep : ascii) (s : string) : list string :=
  match s with
  | EmptyString => [EmptyString]
  | String c s' =>
      if Ascii.eqb c sep then EmptyString :: py_split sep s'
      else match py_split sep s' with
           | [] => [String c EmptyString]
           | field :: fields => String c field :: fields
           end
  end.

(** [format(z)] of an integer, as an f-string renders it: its decimal
    numeral.  The integers the program formats are the table numbers that
    passed the validation of a request and the colour indices, all within
    the 4300 digits up to which the interpreter formats an integer. *)
Definition str_of_int (z : Z) : string := NilZero.string_of_int (Z.to_int z).

Definition LF : string := String (ascii_of_nat 10) EmptyString.

(** ** Text

    A [str] is held as its UTF-8 bytes: the strings of the program come
    from [bytes.decode("utf-8", errors="ignore")], from the environment and
    from request bodies.  The separators the program splits on are ASCII, so
    splitting the bytes splits the characters.  A lone surrogate, which has
    no encoding, is neither a blank nor a digit, as an ill-formed byte
    here. *)

Definition byte (c : ascii) : N := N_of_ascii c.

(** The white space of [str.isspace], hence of [str.strip], by the length
    of its encoding: the ASCII blanks and separators, U+0085 and U+00A0,
    and U+1680, U+2000..U+200A, U+2028, U+2029, U+202F, U+205F, U+3000. *)
Definition is_space (c : ascii) : bool :=
  let n := N_of_ascii c in
  (((9 <=? n) && (n <=? 13)) || ((28 <=? n) && (n <=? 32)))%N.

Definition is_space2 (a b : ascii) : bool :=
  ((byte a =? 194) && ((byte b =? 133) || (byte b =? 160)))%N.

Definition is_space3 (a b c : ascii) : bool :=
  (((byte a =? 225) && (byte b =? 154) && (byte c =? 128))
   || ((byte a =? 226) && (byte b =? 128)
       && (((128 <=? byte c) && (byte c <=? 138))
           || (byte c =? 168) || (byte c =? 169) || (byte c =? 175)))
   || ((byte a =? 226) && (byte b =? 129) && (byte c =? 159))
   || ((byte a =? 227) && (byte b =? 128) && (byte c =? 128)))%N.

(** A string that is exactly one white-space character. *)
Definition is_space_char (s : string) : bool :=
  match s with
  | String a EmptyString => is_space a
  | String a (String b EmptyString) => is_space2 a b
  | String a (String b (String c EmptyString)) => is_space3 a b c
  | _ => false
  end.

(** [s.lstrip()] *)
Fixpoint lstrip (s : string) : string :=
  match s with
  | EmptyString => EmptyString
  | String a s1 =>
      if is_space a then lstrip s1
      else
        match s1 with
        | EmptyString => s
        | String b s2 =>
            if is_space2 a b then lstrip s2
            else
              match s2 with
              | EmptyString => s
              | String c s3 => if is_space3 a b c then lstrip s3 else s
              end
        end
  end.

(** [s.rstrip()]: what is left of the tail, with the byte in front, is
    dropped when it is one white-space character. *)
Fixpoint rstrip (s : string) : string :=
  match s with
  | EmptyString => EmptyString
  | String a s1 =>
      let r := String a (rstrip s1) in
      if is_space_char r then EmptyString else r
  end.

(** *** [int(s)]

    What [int] makes of each character of a string: the ASCII blanks of
    [Py_ISSPACE] and the white space above U+007F count as blanks, the
    decimal digits of every script (Unicode 14.0, as CPython 3.11 has them)
    as digits, and the signs and the underscore are the ASCII ones. *)
Inductive int_char : Type :=
| ic_space
| ic_digit (d : Z)
| ic_plus
| ic_minus
| ic_underscore
| ic_other.

Definition is_digit (c : ascii) : bool :=
  let n := N_of_ascii c in ((48 <=? n) && (n <=? 57))%N.

Definition digit_value (c : ascii) : Z := Z.of_N (N_of_ascii c) - 48.

(** [Py_ISSPACE] *)
Definition is_int_space (c : ascii) : bool :=
  let n := N_of_ascii c in (((9 <=? n) && (n <=? 13)) || (n =? 32))%N.

Definition classify_ascii (c : ascii) : int_char :=
  if is_int_space c then ic_space
  else if is_digit c then ic_digit (digit_value c)
  else if Ascii.eqb c "+" then ic_plus
  else if Ascii.eqb c "-" then ic_minus
  else if Ascii.eqb c "_" then ic_underscore
  else ic_other.

(** The code points of the digit zero of each script but ASCII; the nine
    other digits follow each. *)
Definition DECIMAL_ZEROS : list N :=
  [1632; 1776; 1984; 2406; 2534; 2662; 2790; 2918; 3046; 3174; 3302; 3430;
   3558; 3664; 3792; 3872; 4160; 4240; 6112; 6160; 6470; 6608; 6784; 6800;
   6992; 7088; 7232; 7248; 42528; 43216; 43264; 43472; 43504; 43600; 44016;
   65296; 66720; 68912; 69734; 69872; 69942; 70096; 70384; 70736; 70864;
   71248; 71360; 71472; 71904; 72016; 72784; 73040; 73120; 92768; 92864;
   93008; 120782; 120792; 120802; 120812; 120822; 123200; 123632; 125264;
   130032]%N.

Fixpoint decimal_in (zeros : list N) (cp : N) : option Z :=
  match zeros with
  | [] => None
  | zero :: rest =>
      if ((zero <=? cp) && (cp <? zero + 10))%N then Some (Z.of_N (cp - zero))
      else decimal_in rest cp
  end.

(** [Py_UNICODE_ISSPACE] above U+007F. *)
Definition is_unicode_space (cp : N) : bool :=
  ((cp =? 133) || (cp =? 160) || (cp =? 5760)
   || ((8192 <=? cp) && (cp <=? 8202))
   || (cp =? 8232) || (cp =? 8233) || (cp =? 8239) || (cp =? 8287)
   || (cp =? 12288))%N.

Definition classify_code_point (cp : N) : int_char :=
  if is_unicode_space cp then ic_space
  else match decimal_in DECIMAL_ZEROS cp with
       | Some d => ic_digit d
       | None => ic_other
       end.

(** The six low bits of a continuation byte. *)
Definition continuation (c : ascii) : option N :=
  let n := byte c in
  if ((128 <=? n) && (n <? 192))%N then Some (n - 128)%N else None.

(** The characters of a string, one entry each; a byte that starts no
    character of UTF-8 is an entry of its own. *)
Fixpoint int_chars (s : string) : list int_char :=
  match s with
  | EmptyString => []
  | String a s1 =>
      let n := byte a in
      if (n <? 128)%N then classify_ascii a :: int_chars s1
      else
        match s1 with
        | EmptyString => [ic_other]
        | String b s2 =>
            match continuation b with
            | None => ic_other :: int_chars s1
            | Some y =>
                if ((194 <=? n) && (n <? 224))%N then
                  classify_code_point ((n - 192) * 64 + y) :: int_chars s2
                else
                  match s2 with
                  | EmptyString => ic_other :: int_chars s1
                  | String c s3 =>
                      match continuation c with
                      | None => ic_other :: int_chars s1
                      | Some z =>
                          if ((224 <=? n) && (n <? 240))%N then
                            classify_code_point ((n - 224) * 4096 + y * 64 + z)
                            :: int_chars s3
                          else
                            match s3 with
                            | EmptyString => ic_other :: int_chars s1
                            | String d s4 =>
                                match continuation d with
                                | None => ic_other :: int_chars s1
                                | Some w =>
                                    if ((240 <=? n) && (n <? 245))%N then
                                      classify_code_point
                                        ((n - 240) * 262144 + y * 4096 + z * 64 + w)
                                      :: int_chars s4
                                    else ic_other :: int_chars s1
                                end
                            end
                      end
                  end
            end
        end
  end.

Fixpoint drop_spaces (l : list int_char) : list int_char :=
  match l with
  | ic_space :: l' => drop_spaces l'
  | _ => l
  end.

(** The digits of a literal, single underscores between them allowed:
    their value on top of [acc] and their number on top of [count]. *)
Fixpoint int_digits (acc : Z) (count : N) (after_digit : bool) (l : list int_char)
  : option (Z * N) :=
  match l with
  | [] => if after_digit then Some (acc, count) else None
  | ic_digit d :: l' => int_digits (10 * acc + d) (count + 1) true l'
  | ic_underscore :: l' => if after_digit then int_digits acc count false l' else None
  | _ => None
  end.

(** [sys.get_int_max_str_digits()], the default. *)
Definition INT_MAX_STR_DIGITS : N := 4300.

(** [int(s)] of a string: blanks around, an optional sign, digits; more
    digits than the interpreter converts and anything else raise
    [ValueError], the only exception [int] has for a string. *)
Definition py_int (s : string) : exc Z :=
  let body := rev (drop_spaces (rev (drop_spaces (int_chars s)))) in
  let '(negative, ds) :=
    match body with
    | ic_minus :: r => (true, r)
    | ic_plus :: r => (false, r)
    | _ => (false, body)
    end in
  match int_digits 0 0 false ds with
  | Some (n, count) =>
      if (count <=? INT_MAX_STR_DIGITS)%N then Return (if negative then - n else n)
      else Raise (ValueError "Exceeds the limit (4300 digits) for integer string conversion")
  | None => Raise (ValueError "invalid literal for int() with base 10")
  end.

(** ** Module constants *)

Definition COLOR_CODE : dict string := [(0, "green"); (1, "orange"); (2, "red")].

(** [{value: key for key, value in COLOR_CODE.items()}] *)
Definition COLOR_NAME_TO_ID : list (string * Z) :=
  map (fun kv => (snd kv, fst kv)) (items COLOR_CODE).

Definition VALID_COLORS : list string := map fst COLOR_NAME_TO_ID.

(** [COLOR_NAME_TO_ID[color]] *)
Fixpoint name_lookup (d : list (string * Z)) (name : string) : exc Z :=
  match d with
  | [] => Raise (KeyError name)
  | (n, i) :: d' => if (n =? name)%string then Return i else name_lookup d' name
  end.

(** ** More built-ins *)

(** [s.strip()] *)
Definition py_strip (s : string) : string := rstrip (lstrip s).

(** The first occurrence of [sep] in [s]: what is before and after it. *)
Fixpoint split_once (sep : ascii) (s : string) : option (string * string) :=
  match s with
  | EmptyString => None
  | String c s' =>
      if Ascii.eqb c sep then Some (EmptyString, s')
      else match split_once sep s' with
           | Some (before, after) => Some (String c before, after)
           | None => None
           end
  end.

(** [s.split(sep, 1)] for a one-character separator. *)
Definition py_split_1 (sep : ascii) (s : string) : list string :=
  match split_once sep s with
  | Some (before, after) => [before; after]
  | None => [s]
  end.

(** [s.lower()] on the letters of ASCII, of which the words looked for in
    a description are made.  A letter outside ASCII is left as it is here;
    Python lowers it to characters outside ASCII, or to [i] and U+0307 (from
    U+0130), or to [k] (from U+212A), none of which makes or unmakes an
    occurrence of one of those words. *)
Definition lower_char (c : ascii) : ascii :=
  let n := N_of_ascii c in
  if ((65 <=? n) && (n <=? 90))%N then ascii_of_N (n + 32) else c.

Fixpoint py_lower (s : string) : string :=
  match s with
  | EmptyString => EmptyString
  | String c s' => String (lower_char c) (py_lower s')
  end.

(** [needle in hay] on strings. *)
Fixpoint py_contains (needle hay : string) : bool :=
  String.prefix needle hay ||
  match hay with
  | EmptyString => false
  | String _ hay' => py_contains needle hay'
  end.

(** ** [parse_table_range] *)

(** The body of the [try] of [parse_table_range]. *)
Definition parse_table_range_body (raw : string) : exc (Z * Z) :=
  match py_split_1 "-" raw with
  | [start_str; end_str] =>
      start <- py_int start_str ;;
      end_ <- py_int end_str ;;
      if (start <=? 0) || (end_ <? start) then Raise (ValueError "")
      else Return (start, end_)
  | _ => Raise (ValueError "not enough values to unpack (expected 2, got 1)")
  end.

(** [parse_table_range(raw)]; [raw] is [os.getenv("TABLE_RANGE")]. *)
Definition parse_table_range (raw : option string) : exc (Z * Z) :=
  if negb (truthy_str raw) then Return (1, 50)
  else
    match raw with
    | Some raw => try_except_ValueError (parse_table_range_body raw) (Return (1, 50))
    | None => Return (1, 50)
    end.

(** ** Messages pushed to the observers *)

Record TableEntry := { te_table : Z; te_color : string }.
Record Duration := { d_table : Z; d_seconds : Z }.
Record Counts := { c_green : Z; c_orange : Z; c_red : Z }.
Record Range := { r_start : Z; r_end : Z }.

Inductive Message : Type :=
| snapshot_msg (tables : list TableEntry) (counts : Counts) (range : Range)
               (redDurations : list Duration)
| table_update_msg (table : TableEntry) (counts : Counts) (range : Range)
                   (redDurations : list Duration).

(** ** Sorting

    [list.sort] and [sorted] are stable; insertion from the right, placing
    the new element in front of its equals, is a stable sort too, and a
    stable sort has one possible result. *)

Section Sort.
Context {A : Type}.
(** [before x y]: [x] may not stay after [y], i.e. [x] sorts strictly first. *)
Variable before : A -> A -> bool.

Fixpoint insert_stable (x : A) (l : list A) : list A :=
  match l with
  | [] => [x]
  | y :: l' => if before y x then y :: insert_stable x l' else x :: y :: l'
  end.

Fixpoint sort_stable (l : list A) : list A :=
  match l with
  | [] => []
  | x :: l' => insert_stable x (sort_stable l')
  end.

End Sort.

(** [durations.sort(key=lambda entry: entry["seconds"], reverse=True)]:
    [y] goes strictly before [x] when its key is the greater one. *)
Definition seconds_desc (y x : Duration) : bool := d_seconds x <? d_seconds y.

Definition sort_by_seconds_desc (l : list Duration) : list Duration :=
  sort_stable seconds_desc l.

(** Tuple order on [(table_id, color)], as [sorted(self._colors.items())]
    compares. *)
Definition item_lt (a b : Z * string) : bool :=
  (fst a <? fst b) || ((fst a =? fst b) && negb (String.leb (snd b) (snd a))).

Definition sorted_items (l : list (Z * string)) : list (Z * string) :=
  sort_stable item_lt l.

(** ** [class TableState] *)

Module TableState.

Record t := {
  _start : Z;
  _end : Z;
  _colors : dict string;
  _red_started : dict (option Q)
}.

(** [__init__(self, start, end)] *)
Definition init (start end_ : Z) : t :=
  {| _start := start;
     _end := end_;
     _colors := from_keys (py_range start (end_ + 1)) "green";
     _red_started := from_keys (py_range start (end_ + 1)) None |}.

(** [self._red_started.get(table)]: a missing key reads as [None]. *)
Definition red_started_get (self : t) (table : Z) : option Q :=
  match get (_red_started self) table with
  | Some started => started
  | None => None
  end.

(** [Counter(self._colors.values()).get(color, 0)] *)
Definition count_color (color : string) (vs : list string) : Z :=
  Z.of_nat (List.length (filter (String.eqb color) vs)).

Definition _counts_locked (self : t) : Counts :=
  let vs := values (_colors self) in
  {| c_green := count_color "green" vs;
     c_orange := count_color "orange" vs;
     c_red := count_color "red" vs |}.

(** The list comprehension of [_red_durations_locked], in dictionary order. *)
Definition durations_of (now : Q) (red_started : dict (option Q)) : list Duration :=
  flat_map
    (fun item : Z * option Q =>
       let '(table_id, started) := item in
       match started with
       | Some t =>
           if truthy_time started
           then [{| d_table := table_id; d_seconds := int_of_float (now - t) |}]
           else []
       | None => []
       end)
    (items red_started).

(** [now] is the value of [time.time()] in the body. *)
Definition _red_durations_locked (self : t) (now : Q) (limit : Z) : list Duration :=
  let durations := durations_of now (_red_started self) in
  py_slice_to (sort_by_seconds_desc durations) limit.

Definition _range_locked (self : t) : Range :=
  {| r_start := _start self; r_end := _end self |}.

Definition _snapshot_locked (self : t) (now : Q) : Message :=
  let tables :=
    map (fun item : Z * string => {| te_table := fst item; te_color := snd item |})
        (sorted_items (items (_colors self))) in
  snapshot_msg tables (_counts_locked self) (_range_locked self)
               (_red_durations_locked self now 10).

Definition snapshot (self : t) (now : Q) : Message := _snapshot_locked self now.

(** The assignments of [update_table]; [now] is what [time.time()] returns
    if the body reaches it. *)
Definition update_table_store (self : t) (table : Z) (color : string) (now : Q) : t :=
  let self1 :=
    if negb (mem (_colors self) table) then
      {| _start := _start self;
         _end := _end self;
         _colors := set (_colors self) table "green";
         _red_started := set (_red_started self) table None |}
    else self in
  let colors := set (_colors self1) table color in
  let red_started :=
    if (color =? "red")%string then
      if negb (truthy_time (red_started_get self1 table))
      then set (_red_started self1) table (Some now)
      else _red_started self1
    else set (_red_started self1) table None in
  {| _start := _start self1;
     _end := _end self1;
     _colors := colors;
     _red_started := red_started |}.

(** [update_table(self, table, color)]; [now'] is the later reading of the
    clock taken by [_red_durations_locked]. *)
Definition update_table (self : t) (table : Z) (color : string) (now now' : Q)
  : t * Message :=
  let self' := update_table_store self table color now in
  (self',
   table_update_msg {| te_table := table; te_color := color |}
                    (_counts_locked self') (_range_locked self')
                    (_red_durations_locked self' now' 10)).

(** The body of the loop of [reset_all]. *)
Definition reset_step (self : t) (table : Z) : t :=
  {| _start := _start self;
     _end := _end self;
     _colors := set (_colors self) table "green";
     _red_started := set (_red_started self) table None |}.

(** [for table in self._colors: ...] *)
Definition reset_all_store (self : t) : t :=
  fold_left reset_step (keys (_colors self)) self.

Definition reset_all (self : t) (now : Q) : t * Message :=
  let self' := reset_all_store self in
  (self', _snapshot_locked self' now).

Definition configure_range (self : t) (start end_ : Z) (now : Q) : t * exc Message :=
  if (start <=? 0) || (end_ <? start) then
    (self, Raise (ValueError "Invalid table range"))
  else
    let self' := init start end_ in
    (self', Return (_snapshot_locked self' now)).

End TableState.

(** ** [class WebsocketManager] *)

Module WebsocketManager.

(** A websocket handle; two handles are equal when they are the same object. *)
Definition WebSocket : Type := nat.

Record t := { _connections : list WebSocket }.

Definition init : t := {| _connections := [] |}.

(** [l.remove(x)]: drops the first occurrence, raises when there is none. *)
Fixpoint list_remove (l : list WebSocket) (x : WebSocket) : exc (list WebSocket) :=
  match l with
  | [] => Raise (ValueError "list.remove(x): x not in list")
  | y :: l' =>
      if Nat.eqb y x then Return l'
      else l'' <- list_remove l' x ;; Return (y :: l'')
  end.

Definition connect (self : t) (websocket : WebSocket) : t :=
  {| _connections := (_connections self ++ [websocket])%list |}.

Definition disconnect (self : t) (websocket : WebSocket) : t * exc unit :=
  if existsb (Nat.eqb websocket) (_connections self) then
    match list_remove (_connections self) websocket with
    | Return l => ({| _connections := l |}, Return tt)
    | Raise e => (self, Raise e)
    end
  else (self, Return tt).

Section Broadcast.
(** What [await connection.send_json(message)] does for each handle:
    it returns, or it raises. *)
Variable send_json : WebSocket -> Message -> exc unit.

(** The first loop of [broadcast]: the sends tried, in order, each with its
    outcome, and the handles whose send raised. *)
Fixpoint send_loop (conns : list WebSocket) (message : Message)
  : list (WebSocket * bool) * list WebSocket :=
  match conns with
  | [] => ([], [])
  | connection :: rest =>
      let '(log, stale) := send_loop rest message in
      match send_json connection message with
      | Return _ => ((connection, true) :: log, stale)
      | Raise _ => ((connection, false) :: log, connection :: stale)
      end
  end.

(** The second loop: [for connection in stale: self._connections.remove(connection)]. *)
Fixpoint remove_loop (conns stale : list WebSocket) : list WebSocket * exc unit :=
  match stale with
  | [] => (conns, Return tt)
  | connection :: rest =>
      match list_remove conns connection with
      | Return conns' => remove_loop conns' rest
      | Raise e => (conns, Raise e)
      end
  end.

(** [broadcast(self, message)]: the manager afterwards, the log of the sends,
    and how the call ended. *)
Definition broadcast (self : t) (message : Message)
  : t * list (WebSocket * bool) * exc unit :=
  let '(log, stale) := send_loop (_connections self) message in
  let '(conns, r) := remove_loop (_connections self) stale in
  ({| _connections := conns |}, log, r).

End Broadcast.

(** Whether the send to a handle returns. *)
Definition send_ok (send_json : WebSocket -> Message -> exc unit)
           (message : Message) (connection : WebSocket) : bool :=
  match send_json connection message with
  | Return _ => true
  | Raise _ => false
  end.

(** The handles a send log reports as served. *)
Definition delivered (log : list (WebSocket * bool)) : list WebSocket :=
  map fst (filter snd log).

End WebsocketManager.

(** ** [class SerialReceiver] *)

Module SerialReceiver.

(** The open [serial.Serial] handle: whether it is open and what was
    written to it, oldest first. *)
Record Serial := { is_open : bool; written : list string }.

Definition write (connection : Serial) (message : string) : Serial :=
  {| is_open := is_open connection;
     written := (written connection ++ [message])%list |}.

(** [_state] is the shared store; [_loop] is the bound event loop, as the
    queue of messages whose [broadcast] is scheduled on it. *)
Record t := {
  _state : TableState.t;
  _loop : option (list Message);
  _connection : option Serial;
  _configured_port : option string;
  _active_port : option string
}.

Definition with_connection (self : t) (connection : option Serial) : t :=
  {| _state := _state self;
     _loop := _loop self;
     _connection := connection;
     _configured_port := _configured_port self;
     _active_port := _active_port self |}.

(** [not self._connection or not self._connection.is_open] *)
Definition not_connected (self : t) : bool :=
  match _connection self with
  | Some connection => negb (is_open connection)
  | None => true
  end.

Definition write_locked (self : t) (message : string) : t * exc unit :=
  if not_connected self then
    (self, Raise (RuntimeError "Serial link is not connected."))
  else
    match _connection self with
    | Some connection => (with_connection self (Some (write connection message)), Return tt)
    | None => (self, Return tt)
    end.

Definition send_teacher_command (self : t) (table : Z) (color : string) : t * exc unit :=
  match name_lookup COLOR_NAME_TO_ID color with
  | Raise e => (self, Raise e)
  | Return color_id =>
      let message := ("T," ++ str_of_int table ++ "," ++ str_of_int color_id ++ LF)%string in
      write_locked self message
  end.

Definition reset_all (self : t) : t * exc unit :=
  write_locked self ("T,-1,0" ++ LF)%string.

Definition _parse_message (raw : string) : exc (option (Z * string)) :=
  match py_split "," raw with
  | [role; table_str; color_str] =>
      if (role =? "RT")%string then Return None
      else
        parsed <- try_except_ValueError
                    (table <- py_int table_str ;;
                     color_index <- py_int color_str ;;
                     Return (Some (table, color_index)))
                    (Return None) ;;
        match parsed with
        | None => Return None
        | Some (table, color_index) =>
            let color := get COLOR_CODE color_index in
            if negb (truthy_str color) then Return None
            else match color with
                 | Some name => Return (Some (table, name))
                 | None => Return None
                 end
        end
  | _ => Return None
  end.

(** [asyncio.run_coroutine_threadsafe(self._ws_manager.broadcast(update), self._loop)] *)
Definition schedule_broadcast (self : t) (update : Message) : t :=
  match _loop self with
  | Some queue =>
      {| _state := _state self;
         _loop := Some (queue ++ [update])%list;
         _connection := _connection self;
         _configured_port := _configured_port self;
         _active_port := _active_port self |}
  | None => self
  end.

(** One turn of the [while] of [_read_loop] after a successful read:
    [raw] is [connection.readline().decode("utf-8", errors="ignore").strip()],
    [now] and [now'] the readings of the clock [update_table] takes. *)
Definition _read_loop_body (self : t) (raw : string) (now now' : Q) : t * exc unit :=
  match raw with
  | EmptyString => (self, Return tt)
  | _ =>
      match _parse_message raw with
      | Raise e => (self, Raise e)
      | Return None => (self, Return tt)
      | Return (Some (table, color)) =>
          let '(state', update) := TableState.update_table (_state self) table color now now' in
          let self' :=
            {| _state := state';
               _loop := _loop self;
               _connection := _connection self;
               _configured_port := _configured_port self;
               _active_port := _active_port self |} in
          (schedule_broadcast self' update, Return tt)
      end
  end.

(** What one turn of the loop meets: a line, a failed read, or the stop
    event. *)
Inductive turn : Type :=
| line (raw : string) (now now' : Q)
| read_fails
| stop_set.

Fixpoint _read_loop (self : t) (turns : list turn) : t * exc unit :=
  match turns with
  | [] => (self, Return tt)
  | stop_set :: _ => (self, Return tt)
  | read_fails :: _ => (self, Return tt)
  | line raw now now' :: rest =>
      match _read_loop_body self raw now now' with
      | (self', Return _) => _read_loop self' rest
      | (self', Raise e) => (self', Raise e)
      end
  end.

(** [_force_reconnect]: the handle is closed when it is open (an error of
    [close] is swallowed) and dropped in either case. *)
Definition _force_reconnect (self : t) : t :=
  {| _state := _state self;
     _loop := _loop self;
     _connection := None;
     _configured_port := _configured_port self;
     _active_port := None |}.

(** [(port or "").strip() or None] *)
Definition normalize_port (port : option string) : option string :=
  let stripped := py_strip (match port with Some p => p | None => EmptyString end) in
  match stripped with
  | EmptyString => None
  | _ => Some stripped
  end.

Definition set_port (self : t) (port : option string) : t :=
  _force_reconnect
    {| _state := _state self;
       _loop := _loop self;
       _connection := _connection self;
       _configured_port := normalize_port port;
       _active_port := _active_port self |}.

(** [stop], once the worker thread has been joined: the handle is closed
    and dropped. *)
Definition stop (self : t) : t :=
  {| _state := _state self;
     _loop := _loop self;
     _connection := None;
     _configured_port := _configured_port self;
     _active_port := None |}.

(** An entry of [serial.tools.list_ports.comports()]. *)
Record ListPortInfo := { device : string; description : option string }.

Record PortEntry := { pe_device : string; pe_description : string }.

(** [port.description or "Unknown"] *)
Definition description_or_unknown (port : ListPortInfo) : string :=
  if truthy_str (description port)
  then match description port with Some d => d | None => "Unknown" end
  else "Unknown".

Definition _enumerate_ports (comports : list ListPortInfo) : list PortEntry :=
  map (fun port => {| pe_device := device port;
                      pe_description := description_or_unknown port |})
      comports.

Record SerialStatus := {
  configured_port : option string;
  connected_port : option string;
  available_ports : list PortEntry
}.

Definition serial_status (self : t) (comports : list ListPortInfo) : SerialStatus :=
  {| configured_port := _configured_port self;
     connected_port := _active_port self;
     available_ports := _enumerate_ports comports |}.

(** The test of the loop of [_resolve_port]. *)
Definition looks_like_microbit (port : ListPortInfo) : bool :=
  let description :=
    py_lower (if truthy_str (description port)
              then match description port with Some d => d | None => EmptyString end
              else EmptyString) in
  py_contains "microbit" description || py_contains "mbed" description
  || py_contains "cdc" description.

Fixpoint first_microbit (comports : list ListPortInfo) : option string :=
  match comports with
  | [] => None
  | port :: rest =>
      if looks_like_microbit port then Some (device port) else first_microbit rest
  end.

Definition _resolve_port (self : t) (comports : list ListPortInfo) : option string :=
  if truthy_str (_configured_port self) then _configured_port self
  else first_microbit comports.

(** What [serial.Serial(port, baud, timeout=1)] meets in one turn of
    [_worker]: the port cannot be opened, or it opens and the read loop runs
    over the given turns. *)
Inductive open_outcome : Type :=
| open_fails
| opened (turns : list turn).

(** One turn of the [while] of [_worker]: the receiver afterwards and how
    the turn ended. *)
Definition _worker_turn (self : t) (comports : list ListPortInfo)
           (outcome : open_outcome) : t * exc unit :=
  match _resolve_port self comports with
  | None => (self, Return tt)
  | Some port =>
      if negb (truthy_str (Some port)) then (self, Return tt)
      else
        let '(after, r) :=
          match outcome with
          | open_fails => (self, Return tt)
          | opened turns =>
              _read_loop
                {| _state := _state self;
                   _loop := _loop self;
                   _connection := Some {| is_open := true; written := [] |};
                   _configured_port := _configured_port self;
                   _active_port := Some port |}
                turns
          end in
        ({| _state := _state after;
            _loop := _loop after;
            _connection := None;
            _configured_port := _configured_port after;
            _active_port := None |}, r)
  end.

End SerialReceiver.

(** ** The request models and the handlers *)

Module Api.

(** How a handler ends: a body, an [HTTPException], or another exception
    that leaves the handler. *)
Inductive response (A : Type) : Type :=
| ok (body : A)
| http_error (status : Z) (detail : string)
| uncaught (e : exception).
Arguments ok {A} body.
Arguments http_error {A} status detail.
Arguments uncaught {A} e.

(** [TableRangeRequest.ensure_valid_range] *)
Definition ensure_valid_range (start end_ : Z) : exc (Z * Z) :=
  if end_ <? start then Raise (ValueError "end must be greater than or equal to start")
  else Return (start, end_).

(** The validation of a [TableRangeRequest]: both fields [ge=1], then the
    root validator, skipped when a field failed. *)
Definition validate_table_range (start end_ : Z) : exc (Z * Z) :=
  if (1 <=? start) && (1 <=? end_) then ensure_valid_range start end_
  else Raise (ValueError "Input should be greater than or equal to 1").

(** The process-wide objects: [serial_receiver], whose [_state] is
    [table_state] itself, and [ws_manager]. *)
Record t := {
  serial_receiver : SerialReceiver.t;
  ws_manager : WebsocketManager.t
}.

Definition table_state (app : t) : TableState.t :=
  SerialReceiver._state (serial_receiver app).

Definition with_table_state (app : t) (state : TableState.t) : t :=
  {| serial_receiver :=
       {| SerialReceiver._state := state;
          SerialReceiver._loop := SerialReceiver._loop (serial_receiver app);
          SerialReceiver._connection := SerialReceiver._connection (serial_receiver app);
          SerialReceiver._configured_port :=
            SerialReceiver._configured_port (serial_receiver app);
          SerialReceiver._active_port := SerialReceiver._active_port (serial_receiver app) |};
     ws_manager := ws_manager app |}.

Definition with_serial_receiver (app : t) (receiver : SerialReceiver.t) : t :=
  {| serial_receiver := receiver; ws_manager := ws_manager app |}.

Section Handlers.
Variable send_json : WebsocketManager.WebSocket -> Message -> exc unit.

(** The tail shared by the handlers: [await ws_manager.broadcast(message)]
    and [return message]. *)
Definition broadcast_and_return (app : t) (message : Message)
  : t * list (WebsocketManager.WebSocket * bool) * response Message :=
  let '(manager, log, r) := WebsocketManager.broadcast send_json (ws_manager app) message in
  ({| serial_receiver := serial_receiver app; ws_manager := manager |},
   log,
   match r with
   | Return _ => ok message
   | Raise e => uncaught e
   end).

(** [api_update_table(table_id, request)], with [color = request.color]. *)
Definition api_update_table (app : t) (table_id : Z) (color : string) (now now' : Q)
  : t * list (WebsocketManager.WebSocket * bool) * response Message :=
  let '(state, update) := TableState.update_table (table_state app) table_id color now now' in
  let app1 := with_table_state app state in
  match SerialReceiver.send_teacher_command (serial_receiver app1) table_id color with
  | (receiver, Raise (RuntimeError detail)) =>
      (with_serial_receiver app1 receiver, [], http_error 503 detail)
  | (receiver, Raise e) => (with_serial_receiver app1 receiver, [], uncaught e)
  | (receiver, Return _) => broadcast_and_return (with_serial_receiver app1 receiver) update
  end.

(** [api_reset()] *)
Definition api_reset (app : t) (now : Q)
  : t * list (WebsocketManager.WebSocket * bool) * response Message :=
  let '(state, snapshot) := TableState.reset_all (table_state app) now in
  let app1 := with_table_state app state in
  match SerialReceiver.reset_all (serial_receiver app1) with
  | (receiver, Raise (RuntimeError detail)) =>
      (with_serial_receiver app1 receiver, [], http_error 503 detail)
  | (receiver, Raise e) => (with_serial_receiver app1 receiver, [], uncaught e)
  | (receiver, Return _) => broadcast_and_return (with_serial_receiver app1 receiver) snapshot
  end.

(** [api_table_range(request)], with the two fields of the request. *)
Definition api_table_range (app : t) (start end_ : Z) (now : Q)
  : t * list (WebsocketManager.WebSocket * bool) * response Message :=
  match TableState.configure_range (table_state app) start end_ now with
  | (state, Raise (ValueError detail)) => (with_table_state app state, [], http_error 400 detail)
  | (state, Raise e) => (with_table_state app state, [], uncaught e)
  | (state, Return snapshot) => broadcast_and_return (with_table_state app state) snapshot
  end.

(** [POST /api/table-range] as the application serves it: the body is
    validated as a [TableRangeRequest] before [api_table_range] is called,
    and a body that fails is answered with status 422, the handler not being
    called. *)
Definition post_table_range (app : t) (start end_ : Z) (now : Q)
  : t * list (WebsocketManager.WebSocket * bool) * response Message :=
  match validate_table_range start end_ with
  | Return (start, end_) => api_table_range app start end_ now
  | Raise (ValueError detail) => (app, [], http_error 422 detail)
  | Raise e => (app, [], uncaught e)
  end.

End Handlers.

(** [api_serial_config(request)] *)
Definition api_serial_config (app : t) (port : option string)
           (comports : list SerialReceiver.ListPortInfo) : t * SerialReceiver.SerialStatus :=
  let receiver := SerialReceiver.set_port (serial_receiver app) (SerialReceiver.normalize_port port) in
  (with_serial_receiver app receiver, SerialReceiver.serial_status receiver comports).

End Api.

(** ** Runs of the store *)

Inductive store_op : Type :=
| op_update (table : Z) (color : string) (now : Q)
| op_reset
| op_configure (start end_ : Z).

Definition apply_op (self : TableState.t) (o : store_op) : TableState.t :=
  match o with
  | op_update table color now => TableState.update_table_store self table color now
  | op_reset => TableState.reset_all_store self
  | op_configure start end_ => fst (TableState.configure_range self start end_ 0)
  end.

Definition run (self : TableState.t) (ops : list store_op) : TableState.t :=
  fold_left apply_op ops self.

(* ===================================================================== *)
(** * Part II: the vocabulary of the design document *)
(* ===================================================================== *)

Import TableState.

(** The entities of the store are the keys of [_colors]; an entity's
    [redSince] is what [_red_started] holds for it. *)
Definition entity_ids (st : TableState.t) : list Z := keys (_colors st).
Definition color_of (st : TableState.t) (id : Z) : option string := get (_colors st) id.
Definition redSince (st : TableState.t) (id : Z) : option Q := red_started_get st id.

(** Invariant I2: [redSince] is set exactly for the red entities. *)
Definition I2 (st : TableState.t) : Prop :=
  forall id c, color_of st id = Some c -> (redSince st id <> None <-> c = "red").

(** No recorded timestamp is the float [0.0]: the clock did not read the
    epoch itself when an entity turned red. *)
Definition stamps_nonzero (st : TableState.t) : Prop :=
  forall id t, redSince st id = Some t -> ~ t == 0.

(** A step of a run during which the clock does not read [0.0]. *)
Definition clock_nonzero (o : store_op) : Prop :=
  match o with
  | op_update _ _ now => ~ now == 0
  | _ => True
  end.

Definition in_range (st : TableState.t) (id : Z) : Prop :=
  _start st <= id <= _end st.

(** Invariant I1 as the design document words it: the entities are exactly
    the ids of the configured range. *)
Definition I1 (st : TableState.t) : Prop :=
  forall id, In id (entity_ids st) <-> in_range st id.

(** The ids passed to [update_table] since the store was last replaced by a
    successful [configure_range], latest first, on top of [acc]. *)
Fixpoint updated_since (acc : list Z) (ops : list store_op) : list Z :=
  match ops with
  | [] => acc
  | op_update table _ _ :: rest => updated_since (table :: acc) rest
  | op_reset :: rest => updated_since acc rest
  | op_configure start end_ :: rest =>
      updated_since (if (start <=? 0) || (end_ <? start) then acc else []) rest
  end.

(** Both dictionaries hold each key once, as every Python dictionary does. *)
Definition keys_distinct (st : TableState.t) : Prop :=
  NoDup (keys (_colors st)) /\ NoDup (keys (_red_started st)).

(** Both dictionaries list the ids of the range, in ascending order. *)
Definition laid_out (st : TableState.t) : Prop :=
  keys (_colors st) = py_range (_start st) (_end st + 1) /\
  keys (_red_started st) = py_range (_start st) (_end st + 1).

(** Every update of the run addresses an id of the range configured at
    that moment. *)
Fixpoint updates_in_range (st : TableState.t) (ops : list store_op) : Prop :=
  match ops with
  | [] => True
  | o :: rest =>
      match o with
      | op_update table _ _ => in_range st table
      | _ => True
      end /\ updates_in_range (apply_op st o) rest
  end.

(** The order the design document gives the red durations: longer first,
    equal durations by ascending id. *)
Definition by_seconds_then_id (a b : Duration) : Prop :=
  d_seconds a > d_seconds b \/ (d_seconds a = d_seconds b /\ d_table a < d_table b).

(** A malformed line: not three comma-separated fields, an id or a colour
    field that [int] rejects, or a colour index other than 0, 1 and 2. *)
Inductive malformed (raw : string) : Prop :=
| wrong_field_count :
    List.length (py_split "," raw) <> 3%nat -> malformed raw
| id_not_integer role table_str color_str e :
    py_split "," raw = [role; table_str; color_str] ->
    py_int table_str = Raise e -> malformed raw
| color_not_integer role table_str color_str e :
    py_split "," raw = [role; table_str; color_str] ->
    py_int color_str = Raise e -> malformed raw
| color_out_of_range role table_str color_str color_index :
    py_split "," raw = [role; table_str; color_str] ->
    py_int color_str = Return color_index ->
    ~ (0 <= color_index <= 2) -> malformed raw.

(** The fields of a message. *)
Definition msg_tables (m : Message) : list TableEntry :=
  match m with
  | snapshot_msg tables _ _ _ => tables
  | table_update_msg table _ _ _ => [table]
  end.

Definition msg_counts (m : Message) : Counts :=
  match m with
  | snapshot_msg _ counts _ _ => counts
  | table_update_msg _ counts _ _ => counts
  end.

Definition msg_range (m : Message) : Range :=
  match m with
  | snapshot_msg _ _ range _ => range
  | table_update_msg _ _ range _ => range
  end.

Definition msg_red_durations (m : Message) : list Duration :=
  match m with
  | snapshot_msg _ _ _ durations => durations
  | table_update_msg _ _ _ durations => durations
  end.

(** Every character of a string passes a test. *)
Fixpoint string_forall (p : ascii -> bool) (s : string) : bool :=
  match s with
  | EmptyString => true
  | String c s' => p c && string_forall p s'
  end.

(** A character of ASCII that is no white space. *)
Definition not_space (c : ascii) : bool := (byte c <? 128)%N && negb (is_space c).
Definition not_char (x c : ascii) : bool := negb (Ascii.eqb c x).

(** A string whose first character is white space. *)
Definition starts_with_space (s : string) : bool :=
  match s with
  | EmptyString => false
  | String a s1 =>
      is_space a
      || match s1 with
         | EmptyString => false
         | String b s2 =>
             is_space2 a b
             || match s2 with
                | EmptyString => false
                | String c _ => is_space3 a b c
                end
         end
  end.

(** The number of digits of the decimal numeral of an integer. *)
Definition decimal_digits (z : Z) : N :=
  N.of_nat (String.length (str_of_int (Z.abs z))).

(** What [int] raises for a numeral of more than [INT_MAX_STR_DIGITS]
    digits. *)
Definition too_many_digits : exception :=
  ValueError "Exceeds the limit (4300 digits) for integer string conversion".

(** The text of given bytes. *)
Definition of_bytes (bytes : list nat) : string :=
  string_of_list_ascii (map ascii_of_nat bytes).

(** The white-space characters of Python, those [str.isspace] holds of: the
    blanks and separators of ASCII, U+0085, U+00A0, U+1680, U+2000 to
    U+200A, U+2028, U+2029, U+202F, U+205F and U+3000, each in UTF-8. *)
Definition WHITESPACE : list string :=
  map of_bytes
      [[9]; [10]; [11]; [12]; [13]; [28]; [29]; [30]; [31]; [32];
       [194; 133]; [194; 160]; [225; 154; 128];
       [226; 128; 128]; [226; 128; 129]; [226; 128; 130]; [226; 128; 131];
       [226; 128; 132]; [226; 128; 133]; [226; 128; 134]; [226; 128; 135];
       [226; 128; 136]; [226; 128; 137]; [226; 128; 138];
       [226; 128; 168]; [226; 128; 169]; [226; 128; 175];
       [226; 129; 159]; [227; 128; 128]]%nat.

(** A text of white space only, the empty one included. *)
Inductive blank : string -> Prop :=
| blank_empty : blank EmptyString
| blank_space (w s : string) : In w WHITESPACE -> blank s -> blank (w ++ s).

(** The last character of [String a s]. *)
Fixpoint last_char (a : ascii) (s : string) : ascii :=
  match s with
  | EmptyString => a
  | String b s' => last_char b s'
  end.

(** A text that starts and ends with a character of ASCII that is no white
    space. *)
Definition trimmed (s : string) : bool :=
  match s with
  | EmptyString => false
  | String a r => not_space a && not_space (last_char a r)
  end.

(** The words [_resolve_port] looks for. *)
Definition MICROBIT_WORDS : list string := ["microbit"; "mbed"; "cdc"].

(** [needle] is a piece of [hay]. *)
Definition occurs_in (needle hay : string) : Prop :=
  exists before after, hay = (before ++ needle ++ after)%string.

(** The capital letters of ASCII and their small ones. *)
Definition CAPITALS : string := "ABCDEFGHIJKLMNOPQRSTUVWXYZ".
Definition SMALLS : string := "abcdefghijklmnopqrstuvwxyz".

Definition LETTERS : list (ascii * ascii) :=
  combine (list_ascii_of_string CAPITALS) (list_ascii_of_string SMALLS).

Definition small_letter (c : ascii) : ascii :=
  match find (fun letter => Ascii.eqb (fst letter) c) LETTERS with
  | Some letter => snd letter
  | None => c
  end.

(** A text with its capital letters made small. *)
Fixpoint small_letters (s : string) : string :=
  match s with
  | EmptyString => EmptyString
  | String c s' => String (small_letter c) (small_letters s')
  end.

(** A port whose description holds one of the words, in letters of either
    case. *)
Definition describes_microbit (port : SerialReceiver.ListPortInfo) : Prop :=
  exists text word,
    SerialReceiver.description port = Some text /\
    In word MICROBIT_WORDS /\ occurs_in word (small_letters text).

(** A decimal digit, hence no space, comma or sign. *)
Definition plain_digit (c : ascii) : bool :=
  is_digit c && not_space c && not_char "," c && not_char "-" c && not_char "+" c.

(** The number a string of decimal digits denotes, read from the left on
    top of [acc]. *)
Fixpoint uint_value (acc : Z) (u : Decimal.uint) : Z :=
  match u with
  | Decimal.Nil => acc
  | Decimal.D0 u' => uint_value (10 * acc + 0) u'
  | Decimal.D1 u' => uint_value (10 * acc + 1) u'
  | Decimal.D2 u' => uint_value (10 * acc + 2) u'
  | Decimal.D3 u' => uint_value (10 * acc + 3) u'
  | Decimal.D4 u' => uint_value (10 * acc + 4) u'
  | Decimal.D5 u' => uint_value (10 * acc + 5) u'
  | Decimal.D6 u' => uint_value (10 * acc + 6) u'
  | Decimal.D7 u' => uint_value (10 * acc + 7) u'
  | Decimal.D8 u' => uint_value (10 * acc + 8) u'
  | Decimal.D9 u' => uint_value (10 * acc + 9) u'
  end.

(** All colours of the store are colours of the protocol. *)
Definition colors_valid (st : TableState.t) : Prop :=
  forall id c, color_of st id = Some c -> In c VALID_COLORS.

Definition op_color_valid (o : store_op) : Prop :=
  match o with
  | op_update _ color _ => In color VALID_COLORS
  | _ => True
  end.

(** The two dictionaries list the same keys in the same order. *)
Definition keys_agree (st : TableState.t) : Prop :=
  keys (_colors st) = keys (_red_started st).

(** The updates a run of the read loop applies: the lines it accepts, up
    to the first failed read or stop. *)
Fixpoint accepted_updates (turns : list SerialReceiver.turn) : list store_op :=
  match turns with
  | [] => []
  | SerialReceiver.stop_set :: _ => []
  | SerialReceiver.read_fails :: _ => []
  | SerialReceiver.line raw now _ :: rest =>
      match raw with
      | EmptyString => accepted_updates rest
      | _ =>
          match SerialReceiver._parse_message raw with
          | Return (Some (table, color)) => op_update table color now :: accepted_updates rest
          | _ => accepted_updates rest
          end
      end
  end.

Definition longer_first (a b : Duration) : Prop := d_seconds a >= d_seconds b.

Definition has_seconds (s : Z) (d : Duration) : bool := d_seconds d =? s.


(** ** Proof steps *)

(** Evaluates what [int] makes of the character at the head of the goal. *)
Ltac classify_head :=
  match goal with
  | |- context [classify_ascii ?c] =>
      let v := eval vm_compute in (classify_ascii c) in
      change (classify_ascii c) with v
  end.

(** One case for each white-space character of a hypothesis
    [In w WHITESPACE]. *)
Ltac each_whitespace H :=
  cbv [WHITESPACE of_bytes map string_of_list_ascii] in H; cbn [In] in H;
  repeat (destruct H as [<-|H]; [|]); [..|destruct H].

(* ===================================================================== *)
(** * Part III: properties *)
(* ===================================================================== *)

(** ** Dictionaries *)

Lemma get_set_same {V} (d : dict V) k v : get (set d k v) k = Some v.
Proof.
  induction d as [|[k' v'] d IH]; simpl.
  - now rewrite Z.eqb_refl.
  - destruct (k' =? k) eqn:E; simpl.
    + now rewrite Z.eqb_refl.
    + now rewrite E.
Qed.

Lemma get_set_other {V} (d : dict V) k v j : j <> k -> get (set d k v) j = get d j.
Proof.
  intros Hjk. induction d as [|[k' v'] d IH]; simpl.
  - destruct (k =? j) eqn:E; [apply Z.eqb_eq in E; congruence | reflexivity].
  - destruct (k' =? k) eqn:E; simpl.
    + apply Z.eqb_eq in E; subst k'.
      destruct (k =? j) eqn:E'; [apply Z.eqb_eq in E'; congruence | reflexivity].
    + destruct (k' =? j); [reflexivity | exact IH].
Qed.

Lemma get_Some_In_keys {V} (d : dict V) k v : get d k = Some v -> In k (keys d).
Proof.
  induction d as [|[k' v'] d IH]; simpl; [discriminate|].
  destruct (k' =? k) eqn:E.
  - apply Z.eqb_eq in E. now left.
  - intros H. right. now apply IH.
Qed.

Lemma In_keys_get {V} (d : dict V) k : In k (keys d) -> exists v, get d k = Some v.
Proof.
  induction d as [|[k' v'] d IH]; simpl; [tauto|].
  intros [->|H].
  - rewrite Z.eqb_refl. now exists v'.
  - destruct (k' =? k); [now exists v' | now apply IH].
Qed.

Lemma mem_true_iff {V} (d : dict V) k : mem d k = true <-> In k (keys d).
Proof.
  unfold mem. split.
  - destruct (get d k) eqn:E; [intros _; eapply get_Some_In_keys; eauto | discriminate].
  - intros H. apply In_keys_get in H as [v ->]. reflexivity.
Qed.

Lemma mem_false_iff {V} (d : dict V) k : mem d k = false <-> ~ In k (keys d).
Proof.
  rewrite <- mem_true_iff. destruct (mem d k); split; congruence.
Qed.

Lemma set_absent {V} (d : dict V) k v : ~ In k (keys d) -> set d k v = (d ++ [(k, v)])%list.
Proof.
  induction d as [|[k' v'] d IH]; simpl; [reflexivity|].
  intros H. destruct (k' =? k) eqn:E.
  - apply Z.eqb_eq in E. tauto.
  - f_equal. apply IH. tauto.
Qed.

(** Assigning to a key that is present keeps the key order. *)
Lemma keys_set_present {V} (d : dict V) k v : In k (keys d) -> keys (set d k v) = keys d.
Proof.
  induction d as [|[k' v'] d IH]; simpl; [tauto|].
  destruct (k' =? k) eqn:E; simpl.
  - apply Z.eqb_eq in E. now subst.
  - intros [->|H]; [rewrite Z.eqb_refl in E; discriminate|].
    f_equal. now apply IH.
Qed.

(** Assigning to a new key appends it. *)
Lemma keys_set_absent {V} (d : dict V) k v :
  ~ In k (keys d) -> keys (set d k v) = (keys d ++ [k])%list.
Proof.
  intros H. rewrite set_absent by assumption. unfold keys. now rewrite map_app.
Qed.

Lemma In_keys_set {V} (d : dict V) k v j :
  In j (keys (set d k v)) <-> In j (keys d) \/ j = k.
Proof.
  destruct (in_dec Z.eq_dec k (keys d)) as [Hin|Hout].
  - rewrite keys_set_present by assumption. intuition (subst; auto).
  - rewrite keys_set_absent by assumption. rewrite in_app_iff. simpl. intuition.
Qed.

Lemma from_keys_fold {V} (ks : list Z) (v : V) (d : dict V) :
  NoDup (keys d ++ ks) ->
  fold_left (fun d k => set d k v) ks d = (d ++ map (fun k => (k, v)) ks)%list.
Proof.
  revert d. induction ks as [|k ks IH]; intros d Hnd; simpl.
  - now rewrite app_nil_r.
  - assert (Hk : ~ In k (keys d)).
    { apply NoDup_remove_2 in Hnd. intros Hin. apply Hnd.
      apply in_or_app. now left. }
    rewrite set_absent by assumption.
    rewrite IH.
    + now rewrite <- app_assoc.
    + unfold keys. rewrite map_app. simpl. rewrite <- app_assoc. exact Hnd.
Qed.

Lemma from_keys_NoDup {V} (ks : list Z) (v : V) :
  NoDup ks -> from_keys ks v = map (fun k => (k, v)) ks.
Proof.
  intros H. unfold from_keys. now rewrite from_keys_fold.
Qed.

(** ** [range] *)

Lemma In_py_range a b k : In k (py_range a b) <-> a <= k < b.
Proof.
  unfold py_range. rewrite in_map_iff. split.
  - intros [i [<- Hi]]. apply in_seq in Hi. lia.
  - intros H. exists (Z.to_nat (k - a)). split; [lia|]. apply in_seq. lia.
Qed.

Lemma length_py_range a b : List.length (py_range a b) = Z.to_nat (b - a).
Proof. unfold py_range. now rewrite length_map, length_seq. Qed.

Lemma py_range_sorted a b : StronglySorted Z.lt (py_range a b).
Proof.
  unfold py_range. generalize (Z.to_nat (b - a)) as n. intros n.
  generalize 0%nat as s. induction n as [|n IH]; intros s; simpl.
  - constructor.
  - constructor; [apply IH|].
    apply Forall_forall. intros x Hx. apply in_map_iff in Hx as [i [<- Hi]].
    apply in_seq in Hi. lia.
Qed.

Lemma StronglySorted_lt_NoDup (l : list Z) : StronglySorted Z.lt l -> NoDup l.
Proof.
  induction 1 as [|x l Hs IH Hall]; constructor; [|exact IH].
  intros Hin. rewrite Forall_forall in Hall. specialize (Hall x Hin). lia.
Qed.

Lemma py_range_NoDup a b : NoDup (py_range a b).
Proof. apply StronglySorted_lt_NoDup, py_range_sorted. Qed.

(** ** The store: what each operation does to one entity *)

Lemma init_colors s e :
  _colors (init s e) = map (fun k => (k, "green")) (py_range s (e + 1)).
Proof. unfold init; simpl. apply from_keys_NoDup, py_range_NoDup. Qed.

Lemma init_red_started s e :
  _red_started (init s e) = map (fun k => (k, @None Q)) (py_range s (e + 1)).
Proof. unfold init; simpl. apply from_keys_NoDup, py_range_NoDup. Qed.

Lemma keys_const {V} (ks : list Z) (v : V) : keys (map (fun k => (k, v)) ks) = ks.
Proof. unfold keys. rewrite map_map. simpl. apply map_id. Qed.

Lemma get_const {V} (ks : list Z) (v : V) k x :
  get (map (fun k => (k, v)) ks) k = Some x -> x = v.
Proof.
  induction ks as [|k' ks IH]; simpl; [discriminate|].
  destruct (k' =? k); [intros [= <-]; reflexivity | exact IH].
Qed.

Lemma entity_ids_init s e : entity_ids (init s e) = py_range s (e + 1).
Proof. unfold entity_ids. rewrite init_colors. apply keys_const. Qed.

Lemma color_of_init s e id c : color_of (init s e) id = Some c -> c = "green".
Proof. unfold color_of. rewrite init_colors. apply get_const. Qed.

Lemma redSince_init s e id : redSince (init s e) id = None.
Proof.
  unfold redSince, red_started_get. rewrite init_red_started.
  destruct (get _ id) as [x|] eqn:E; [|reflexivity].
  now apply get_const in E.
Qed.

Lemma update_color_same st id c now :
  color_of (update_table_store st id c now) id = Some c.
Proof. unfold color_of, update_table_store; simpl. apply get_set_same. Qed.

Lemma update_color_other st id c now j :
  j <> id -> color_of (update_table_store st id c now) j = color_of st j.
Proof.
  intros H. unfold color_of, update_table_store; simpl.
  rewrite get_set_other by assumption.
  destruct (mem (_colors st) id); simpl; [reflexivity|].
  now rewrite get_set_other.
Qed.

(** The entry of the updated entity: cleared for a colour other than red,
    kept when it is already set and true, stamped otherwise. *)
Lemma update_redSince_same st id c now :
  redSince (update_table_store st id c now) id =
  if (c =? "red")%string then
    let prev := if mem (_colors st) id then redSince st id else None in
    if truthy_time prev then prev else Some now
  else None.
Proof.
  unfold redSince, update_table_store. unfold red_started_get.
  destruct (mem (_colors st) id); simpl;
    destruct (c =? "red")%string; simpl;
    rewrite ?get_set_same; simpl; try reflexivity.
  - destruct (get (_red_started st) id) as [[t|]|] eqn:G; simpl;
      try (now rewrite get_set_same).
    destruct (Qeq_bool t 0); simpl.
    + rewrite get_set_same. reflexivity.
    + rewrite G. reflexivity.
  - rewrite get_set_same. reflexivity.
Qed.

Lemma update_redSince_other st id c now j :
  j <> id -> redSince (update_table_store st id c now) j = redSince st j.
Proof.
  intros H. unfold redSince, update_table_store. unfold red_started_get.
  destruct (mem (_colors st) id); simpl;
    destruct (c =? "red")%string; simpl;
    repeat match goal with
           | |- context [if ?b then _ else _] => destruct b; simpl
           end;
    rewrite ?get_set_other by assumption; reflexivity.
Qed.

Lemma update_start_end st id c now :
  _start (update_table_store st id c now) = _start st /\
  _end (update_table_store st id c now) = _end st.
Proof. unfold update_table_store. destruct (mem (_colors st) id); simpl; auto. Qed.

Lemma entity_ids_update st id c now j :
  In j (entity_ids (update_table_store st id c now)) <-> In j (entity_ids st) \/ j = id.
Proof.
  unfold entity_ids, update_table_store.
  destruct (mem (_colors st) id) eqn:E; simpl; rewrite !In_keys_set; tauto.
Qed.

(** ** The store: [reset_all] *)

Lemma reset_fold_colors ks s j :
  get (_colors (fold_left reset_step ks s)) j =
  if in_dec Z.eq_dec j ks then Some "green" else get (_colors s) j.
Proof.
  revert s. induction ks as [|k ks IH]; intros s; simpl; [reflexivity|].
  rewrite IH. destruct (in_dec Z.eq_dec j ks) as [Hin|Hout].
  - destruct (Z.eq_dec k j); reflexivity.
  - destruct (Z.eq_dec k j) as [->|Hne]; simpl.
    + apply get_set_same.
    + apply get_set_other. congruence.
Qed.

Lemma reset_fold_red_started ks s j :
  get (_red_started (fold_left reset_step ks s)) j =
  if in_dec Z.eq_dec j ks then Some None else get (_red_started s) j.
Proof.
  revert s. induction ks as [|k ks IH]; intros s; simpl; [reflexivity|].
  rewrite IH. destruct (in_dec Z.eq_dec j ks) as [Hin|Hout].
  - destruct (Z.eq_dec k j); reflexivity.
  - destruct (Z.eq_dec k j) as [->|Hne]; simpl.
    + apply get_set_same.
    + apply get_set_other. congruence.
Qed.

Lemma reset_fold_keys ks s :
  (forall k, In k ks -> In k (keys (_colors s))) ->
  keys (_colors (fold_left reset_step ks s)) = keys (_colors s).
Proof.
  revert s. induction ks as [|k ks IH]; intros s H; simpl; [reflexivity|].
  rewrite IH.
  - simpl. apply keys_set_present. apply H. now left.
  - intros k' Hk'. simpl. apply In_keys_set. left. apply H. now right.
Qed.

Lemma reset_fold_start_end ks s :
  _start (fold_left reset_step ks s) = _start s /\
  _end (fold_left reset_step ks s) = _end s.
Proof.
  revert s. induction ks as [|k ks IH]; intros s; simpl; [auto|].
  destruct (IH (reset_step s k)) as [-> ->]. auto.
Qed.

Lemma entity_ids_reset st : entity_ids (reset_all_store st) = entity_ids st.
Proof. apply (reset_fold_keys (keys (_colors st)) st). auto. Qed.

Lemma color_of_reset st id c : color_of (reset_all_store st) id = Some c -> c = "green".
Proof.
  unfold color_of, reset_all_store. rewrite reset_fold_colors.
  destruct (in_dec Z.eq_dec id (keys (_colors st))) as [Hin|Hout].
  - now intros [= <-].
  - intros H. apply get_Some_In_keys in H. contradiction.
Qed.

Lemma redSince_reset st id : In id (entity_ids st) -> redSince (reset_all_store st) id = None.
Proof.
  intros Hin. unfold redSince, red_started_get, reset_all_store.
  rewrite reset_fold_red_started.
  destruct (in_dec Z.eq_dec id (keys (_colors st))); [reflexivity | contradiction].
Qed.

(** ** Invariant I2 *)

Lemma I2_init s e : I2 (init s e).
Proof.
  intros id c Hc. apply color_of_init in Hc. subst c.
  rewrite redSince_init. split; [congruence | discriminate].
Qed.

Lemma truthy_time_not_None x : truthy_time x = true -> x <> None.
Proof. destruct x; [discriminate | discriminate]. Qed.

Lemma I2_update st id c now : I2 st -> I2 (update_table_store st id c now).
Proof.
  intros H j cj Hj. destruct (Z.eq_dec j id) as [->|Hne].
  - rewrite update_color_same in Hj. injection Hj as <-.
    rewrite update_redSince_same.
    destruct (c =? "red")%string eqn:E.
    + apply String.eqb_eq in E. subst c. simpl.
      destruct (truthy_time _) eqn:T.
      * split; [reflexivity|]. intros _. now apply truthy_time_not_None.
      * split; [reflexivity | discriminate].
    + apply String.eqb_neq in E. split; [congruence | contradiction].
  - rewrite update_color_other in Hj by assumption.
    rewrite update_redSince_other by assumption. now apply H.
Qed.

Lemma I2_reset st : I2 (reset_all_store st).
Proof.
  intros id c Hc. pose proof (color_of_reset _ _ _ Hc) as ->.
  apply get_Some_In_keys in Hc. fold (entity_ids (reset_all_store st)) in Hc.
  rewrite entity_ids_reset in Hc. rewrite redSince_reset by assumption.
  split; [congruence | discriminate].
Qed.

Lemma I2_configure st s e now : I2 st -> I2 (fst (configure_range st s e now)).
Proof.
  intros H. unfold configure_range.
  destruct ((s <=? 0) || (e <? s)); simpl; [exact H | apply I2_init].
Qed.

Lemma I2_run st ops : I2 st -> I2 (run st ops).
Proof.
  revert st. induction ops as [|o ops IH]; intros st H; simpl; [exact H|].
  apply IH. destruct o; simpl.
  - now apply I2_update.
  - apply I2_reset.
  - now apply I2_configure.
Qed.

(** ** Recorded timestamps *)

Lemma stamps_nonzero_init s e : stamps_nonzero (init s e).
Proof. intros id t H. rewrite redSince_init in H. discriminate. Qed.

Lemma truthy_time_Some t : truthy_time (Some t) = true <-> ~ t == 0.
Proof.
  simpl. rewrite negb_true_iff. split.
  - intros H E. apply Qeq_bool_iff in E. congruence.
  - intros H. destruct (Qeq_bool t 0) eqn:E; [|reflexivity].
    apply Qeq_bool_iff in E. contradiction.
Qed.

Lemma stamps_nonzero_update st id c now :
  ~ now == 0 -> stamps_nonzero st -> stamps_nonzero (update_table_store st id c now).
Proof.
  intros Hnow H j t Hj. destruct (Z.eq_dec j id) as [->|Hne].
  - rewrite update_redSince_same in Hj.
    destruct (c =? "red")%string; [|discriminate]. simpl in Hj.
    destruct (truthy_time _) eqn:T.
    + rewrite Hj in T. now apply truthy_time_Some.
    + injection Hj as <-. exact Hnow.
  - rewrite update_redSince_other in Hj by assumption. now apply (H j).
Qed.

(** ** Transitions of [redSince] *)

Lemma update_red_redSince st id now :
  redSince (update_table_store st id "red" now) id =
  if truthy_time (if mem (_colors st) id then redSince st id else None)
  then (if mem (_colors st) id then redSince st id else None)
  else Some now.
Proof. rewrite update_redSince_same. reflexivity. Qed.

(** C1. Let the store satisfy I2 and hold no timestamp equal to [0.0].
    [update(id, red)] on an entity that is not red (or not yet known) sets
    its [redSince] to the reading of the clock; [update(id, red)] on an
    entity that is red leaves its [redSince] as it is, so that a second
    [update(id, red)] keeps the first stamp; [update(id, c)] with any colour
    other than red clears [redSince]. *)
Theorem redSince_on_update (st : TableState.t) (id : Z) (now now' : Q) :
  I2 st -> stamps_nonzero st ->
  (color_of st id <> Some "red" ->
   redSince (fst (update_table st id "red" now now')) id = Some now) /\
  (color_of st id = Some "red" ->
   redSince (fst (update_table st id "red" now now')) id = redSince st id) /\
  (color_of st id <> Some "red" -> ~ now == 0 ->
   forall later later',
     redSince (fst (update_table (fst (update_table st id "red" now now'))
                                 id "red" later later')) id = Some now) /\
  (forall c, c <> "red" ->
   redSince (fst (update_table st id c now now')) id = None).
Proof.
  intros HI2 Hst. unfold update_table. cbn [fst].
  assert (first : color_of st id <> Some "red" ->
                  redSince (update_table_store st id "red" now) id = Some now).
  { intros Hc. rewrite update_red_redSince.
    destruct (mem (_colors st) id) eqn:M; [|reflexivity].
    apply mem_true_iff, In_keys_get in M as [c0 Hc0].
    destruct (redSince st id) as [t|] eqn:R; [|reflexivity].
    exfalso. apply Hc. fold (color_of st id) in Hc0. rewrite Hc0. f_equal.
    apply (HI2 id c0 Hc0). rewrite R. discriminate. }
  repeat split.
  - exact first.
  - intros Hc. rewrite update_red_redSince.
    assert (M : mem (_colors st) id = true).
    { apply mem_true_iff. eapply get_Some_In_keys. exact Hc. }
    rewrite M.
    destruct (redSince st id) as [t|] eqn:R.
    + assert (T : truthy_time (Some t) = true)
        by (apply truthy_time_Some; now apply (Hst id)).
      now rewrite T.
    + exfalso. now apply (HI2 id "red" Hc).
  - intros Hc Hnow later later'.
    rewrite update_red_redSince.
    assert (M : mem (_colors (update_table_store st id "red" now)) id = true).
    { apply mem_true_iff. eapply get_Some_In_keys. apply update_color_same. }
    rewrite M, (first Hc).
    assert (T : truthy_time (Some now) = true) by now apply truthy_time_Some.
    now rewrite T.
  - intros c Hc. rewrite update_redSince_same.
    apply String.eqb_neq in Hc. now rewrite Hc.
Qed.

Lemma redSince_on_update_witness :
  let st := run (init 1 3) [op_update 2 "red" 100] in
  I2 st /\ stamps_nonzero st /\ color_of st 2 = Some "red" /\
  redSince (fst (update_table st 2 "red" 250 251)) 2 = Some 100%Q /\
  redSince (fst (update_table st 3 "red" 250 251)) 3 = Some 250%Q /\
  redSince (fst (update_table st 2 "orange" 250 251)) 2 = None.
Proof.
  intros st.
  assert (HI2 : I2 st) by (apply I2_run, I2_init).
  assert (Hst : stamps_nonzero st).
  { apply stamps_nonzero_update; [discriminate | apply stamps_nonzero_init]. }
  split; [exact HI2|]. split; [exact Hst|]. split; [reflexivity|].
  split; [|split].
  - exact (proj1 (proj2 (redSince_on_update st 2 250 251 HI2 Hst)) eq_refl).
  - apply (proj1 (redSince_on_update st 3 250 251 HI2 Hst)). discriminate.
  - apply (proj2 (proj2 (proj2 (redSince_on_update st 2 250 251 HI2 Hst)))).
    discriminate.
Defined.

(** C2. Invariant I2 ([redSince] is set if and only if the colour is red,
    for every entity of the store) holds in a freshly constructed store and
    is preserved by [update_table], [reset_all] and [configure_range]
    (whether the latter succeeds or raises). *)
Theorem I2_initial_and_preserved (st : TableState.t) :
  I2 st ->
  (forall start end_, I2 (init start end_)) /\
  (forall id c now now', I2 (fst (update_table st id c now now'))) /\
  (forall now, I2 (fst (reset_all st now))) /\
  (forall start end_ now, I2 (fst (configure_range st start end_ now))).
Proof.
  intros H. split; [|split; [|split]].
  - intros start end_. apply I2_init.
  - intros id c now now'. apply I2_update. exact H.
  - intros now. apply I2_reset.
  - intros start end_ now. apply I2_configure. exact H.
Qed.

Lemma I2_initial_and_preserved_witness :
  let st := run (init 1 3) [op_update 2 "red" 100; op_update 7 "orange" 101] in
  I2 st /\
  I2 (fst (update_table st 2 "red" 250 251)) /\
  I2 (fst (reset_all st 250)) /\
  I2 (fst (configure_range st 4 9 250)) /\
  I2 (fst (configure_range st 4 2 250)).
Proof.
  intros st.
  assert (HI2 : I2 st) by (apply I2_run, I2_init).
  destruct (I2_initial_and_preserved st HI2) as [_ [Hu [Hr Hc]]].
  split; [exact HI2|]. split; [apply Hu|]. split; [apply Hr|].
  split; apply Hc.
Defined.

Lemma stamps_nonzero_reset st : stamps_nonzero st -> stamps_nonzero (reset_all_store st).
Proof.
  intros H id t Hid.
  destruct (in_dec Z.eq_dec id (entity_ids st)) as [Hin|Hout].
  - rewrite redSince_reset in Hid by assumption. discriminate.
  - unfold redSince, red_started_get, reset_all_store in Hid.
    rewrite reset_fold_red_started in Hid.
    destruct (in_dec Z.eq_dec id (keys (_colors st))); [contradiction|].
    now apply (H id).
Qed.

(** Every store reached from a fresh one while the clock never reads [0.0]
    holds nonzero timestamps only. *)
Lemma stamps_nonzero_run st ops :
  Forall clock_nonzero ops -> stamps_nonzero st -> stamps_nonzero (run st ops).
Proof.
  revert st. induction ops as [|o ops IH]; intros st Hops H; simpl; [exact H|].
  inversion Hops as [|? ? Ho Hops']; subst.
  apply IH; [exact Hops'|]. destruct o as [id c now| |s e]; simpl.
  - now apply stamps_nonzero_update.
  - now apply stamps_nonzero_reset.
  - unfold configure_range. destruct ((s <=? 0) || (e <? s)); simpl;
      [exact H | apply stamps_nonzero_init].
Qed.

(** ** Sorting an ordered list *)

Lemma sort_stable_sorted {A} (before : A -> A -> bool) (l : list A) :
  StronglySorted (fun x y => before y x = false) l -> sort_stable before l = l.
Proof.
  induction 1 as [|x l Hs IH Hall]; simpl; [reflexivity|].
  rewrite IH. destruct l as [|y l']; simpl; [reflexivity|].
  inversion Hall as [|? ? Hy _]; subst. now rewrite Hy.
Qed.

Lemma item_lt_false_of_key_lt (a b : Z * string) : fst a < fst b -> item_lt b a = false.
Proof.
  intros H. unfold item_lt.
  assert ((fst b <? fst a) = false) as -> by (apply Z.ltb_ge; lia).
  assert ((fst b =? fst a) = false) as -> by (apply Z.eqb_neq; lia).
  reflexivity.
Qed.

Lemma sorted_items_of_sorted_keys (d : dict string) :
  StronglySorted Z.lt (keys d) -> sorted_items (items d) = d.
Proof.
  intros H. unfold sorted_items, items. apply sort_stable_sorted.
  induction d as [|[k v] d IH]; [constructor|].
  simpl in H. inversion H as [|? ? Hs Hall]; subst.
  constructor; [now apply IH|].
  rewrite Forall_forall in *. intros [k' v'] Hin.
  apply item_lt_false_of_key_lt. simpl. apply Hall.
  change k' with (fst (k', v')). now apply in_map.
Qed.

(** ** [configure_range] *)

Lemma count_color_const (c c' : string) (ks : list Z) :
  count_color c (values (map (fun k => (k, c')) ks)) =
  if (c =? c')%string then Z.of_nat (List.length ks) else 0.
Proof.
  unfold count_color, values. rewrite map_map. simpl.
  induction ks as [|k ks IH]; simpl.
  - now destruct (c =? c')%string.
  - destruct (c =? c')%string; simpl in *; [lia | exact IH].
Qed.

Lemma durations_of_all_None now (ks : list Z) :
  durations_of now (map (fun k => (k, @None Q)) ks) = [].
Proof. unfold durations_of, items. induction ks; simpl; auto. Qed.

Lemma snapshot_init s e now :
  _snapshot_locked (init s e) now =
  snapshot_msg
    (map (fun k => {| te_table := k; te_color := "green" |}) (py_range s (e + 1)))
    {| c_green := Z.of_nat (List.length (py_range s (e + 1))); c_orange := 0; c_red := 0 |}
    {| r_start := s; r_end := e |}
    [].
Proof.
  unfold _snapshot_locked, _counts_locked, _red_durations_locked, _range_locked.
  rewrite init_colors, init_red_started.
  rewrite sorted_items_of_sorted_keys
    by (rewrite keys_const; apply py_range_sorted).
  rewrite !count_color_const, durations_of_all_None, map_map. simpl.
  reflexivity.
Qed.

(** C4. [configure_range(start, end)] raises exactly when [start <= 0] or
    [end < start]; it then raises [ValueError("Invalid table range")] and
    leaves the store as it was.  For every other pair the store is replaced
    by one whose entities are [start], ..., [end], each once, that is
    [end - start + 1] of them, all green, none with a [redSince]; the
    snapshot it returns lists the same. *)
Theorem configure_range_spec (st : TableState.t) (start end_ : Z) (now : Q) :
  ((exists e, snd (configure_range st start end_ now) = Raise e) <->
   (start <= 0 \/ end_ < start)) /\
  (start <= 0 \/ end_ < start ->
   configure_range st start end_ now =
   (st, Raise (ValueError "Invalid table range"))) /\
  (0 < start <= end_ ->
   let st' := fst (configure_range st start end_ now) in
   snd (configure_range st start end_ now) =
     Return (snapshot_msg
               (map (fun k => {| te_table := k; te_color := "green" |}) (entity_ids st'))
               {| c_green := end_ - start + 1; c_orange := 0; c_red := 0 |}
               {| r_start := start; r_end := end_ |}
               []) /\
   _start st' = start /\ _end st' = end_ /\
   Z.of_nat (List.length (entity_ids st')) = end_ - start + 1 /\
   NoDup (entity_ids st') /\
   (forall id, In id (entity_ids st') <-> start <= id <= end_) /\
   (forall id, In id (entity_ids st') ->
               color_of st' id = Some "green" /\ redSince st' id = None)).
Proof.
  unfold configure_range.
  destruct ((start <=? 0) || (end_ <? start)) eqn:G.
  - assert (Hbad : start <= 0 \/ end_ < start).
    { apply orb_true_iff in G as [G|G]; [left; lia | right; lia]. }
    split; [|split].
    + split; [intros _; exact Hbad | intros _; eexists; reflexivity].
    + reflexivity.
    + intros Hok. lia.
  - apply orb_false_iff in G as [G1 G2].
    apply Z.leb_gt in G1. apply Z.ltb_ge in G2.
    split; [|split].
    + split; [intros [e He]; discriminate | lia].
    + lia.
    + intros _. cbn [fst snd].
      rewrite entity_ids_init, snapshot_init, length_py_range.
      replace (Z.of_nat (Z.to_nat (end_ + 1 - start))) with (end_ - start + 1) by lia.
      do 4 (split; [reflexivity|]).
      split; [apply py_range_NoDup|]. split.
      * intros id. rewrite In_py_range. lia.
      * intros id Hid. split; [|apply redSince_init].
        destruct (In_keys_get (_colors (init start end_)) id) as [c Hc].
        { fold (entity_ids (init start end_)). now rewrite entity_ids_init. }
        unfold color_of. rewrite Hc. f_equal. now apply (color_of_init start end_ id).
Qed.

Lemma configure_range_spec_witness :
  let st := run (init 1 3) [op_update 2 "red" 100] in
  configure_range st 0 5 7 = (st, Raise (ValueError "Invalid table range")) /\
  configure_range st 5 4 7 = (st, Raise (ValueError "Invalid table range")) /\
  entity_ids (fst (configure_range st 4 6 7)) = [4; 5; 6] /\
  Z.of_nat (List.length (entity_ids (fst (configure_range st 4 6 7)))) = 6 - 4 + 1.
Proof.
  intros st.
  destruct (configure_range_spec st 0 5 7) as [_ [B1 _]].
  destruct (configure_range_spec st 5 4 7) as [_ [B2 _]].
  destruct (configure_range_spec st 4 6 7) as [_ [_ C]].
  split; [apply B1; left; lia|]. split; [apply B2; right; lia|].
  split; [reflexivity|]. apply C. lia.
Defined.

(** ** The entity set *)

Lemma entity_ids_run_from st acc ops :
  (forall id, In id (entity_ids st) <-> in_range st id \/ In id acc) ->
  forall id, In id (entity_ids (run st ops)) <->
             in_range (run st ops) id \/ In id (updated_since acc ops).
Proof.
  revert st acc. induction ops as [|o ops IH]; intros st acc H; simpl; [exact H|].
  destruct o as [table c now| |s e]; simpl; apply IH; intros id.
  - rewrite entity_ids_update, H. unfold in_range.
    destruct (update_start_end st table c now) as [-> ->]. simpl. intuition.
  - rewrite entity_ids_reset, H. unfold in_range, reset_all_store.
    destruct (reset_fold_start_end (keys (_colors st)) st) as [-> ->]. reflexivity.
  - unfold configure_range. destruct ((s <=? 0) || (e <? s)); simpl; [apply H|].
    rewrite entity_ids_init, In_py_range. unfold in_range. simpl. lia.
Qed.

Lemma I1_init start end_ : I1 (init start end_).
Proof.
  intros id. rewrite entity_ids_init, In_py_range. unfold in_range. simpl. lia.
Qed.

(** C8, as the code has it.  After any sequence of store operations on a
    fresh store, the entities are the ids of the configured range together
    with the ids passed to [update_table] since the last successful
    [configure_range] (or since construction): the range is always
    covered, an id outside it is adopted.  The entity set is exactly the
    range when all those updates addressed ids of the range, in particular
    right after construction and after a successful [configure_range]. *)
Theorem entity_ids_after_run (start end_ : Z) (ops : list store_op) :
  let st := run (init start end_) ops in
  (forall id, In id (entity_ids st) <->
              in_range st id \/ In id (updated_since [] ops)) /\
  ((forall id, In id (updated_since [] ops) -> in_range st id) -> I1 st).
Proof.
  intros st.
  assert (H : forall id, In id (entity_ids st) <->
                         in_range st id \/ In id (updated_since [] ops)).
  { apply entity_ids_run_from. intros id. rewrite (I1_init start end_ id).
    simpl. tauto. }
  split; [exact H|].
  intros Hin id. rewrite H. split; [intros [?|?]; auto | auto].
Qed.

Lemma entity_ids_after_run_witness :
  let st := run (init 1 5) [op_update 7 "red" 100; op_configure 2 4;
                            op_update 3 "red" 101; op_reset] in
  entity_ids st = [2; 3; 4] /\ I1 st.
Proof.
  intros st. split; [reflexivity|].
  apply (proj2 (entity_ids_after_run 1 5
                  [op_update 7 "red" 100; op_configure 2 4;
                   op_update 3 "red" 101; op_reset])).
  simpl. intros id [<-|[]]. unfold in_range. simpl. lia.
Defined.

(** C8 as stated fails: an update on an id outside the range adds the id. *)
Lemma entity_ids_leave_range :
  let st := run (init 1 5) [op_update 7 "red" 100] in
  _start st = 1 /\ _end st = 5 /\ In 7 (entity_ids st) /\ ~ I1 st.
Proof.
  intros st. split; [reflexivity|]. split; [reflexivity|].
  assert (H7 : In 7 (entity_ids st)) by (vm_compute; tauto).
  split; [exact H7|].
  intros H. apply H in H7. unfold in_range in H7. simpl in H7. lia.
Qed.

(** ** The stable sort *)

Section SortFacts.
Context {A : Type} (before : A -> A -> bool).

Lemma insert_stable_perm x l : Permutation (insert_stable before x l) (x :: l).
Proof.
  induction l as [|y l IH]; simpl; [reflexivity|].
  destruct (before y x); [|reflexivity].
  rewrite IH. apply perm_swap.
Qed.

Lemma sort_stable_perm l : Permutation (sort_stable before l) l.
Proof.
  induction l as [|x l IH]; simpl; [reflexivity|].
  rewrite insert_stable_perm. now constructor.
Qed.

Lemma In_insert_stable x l z : In z (insert_stable before x l) <-> z = x \/ In z l.
Proof.
  split; intros H.
  - apply (Permutation_in _ (insert_stable_perm x l)) in H. simpl in H. intuition.
  - apply (Permutation_in _ (Permutation_sym (insert_stable_perm x l))).
    simpl. intuition.
Qed.

End SortFacts.

Lemma insert_desc_sorted x l :
  StronglySorted longer_first l -> StronglySorted longer_first (insert_stable seconds_desc x l).
Proof.
  induction 1 as [|y l Hs IH Hall]; simpl; [repeat constructor|].
  unfold seconds_desc at 1. destruct (d_seconds x <? d_seconds y) eqn:E.
  - apply Z.ltb_lt in E. constructor; [exact IH|].
    apply Forall_forall. intros z Hz. apply In_insert_stable in Hz as [->|Hz].
    + unfold longer_first. lia.
    + rewrite Forall_forall in Hall. now apply Hall.
  - apply Z.ltb_ge in E. constructor; [now constructor|].
    constructor; [unfold longer_first; lia|].
    rewrite Forall_forall in *. intros z Hz. specialize (Hall z Hz).
    unfold longer_first in *. lia.
Qed.

Lemma sort_desc_sorted l : StronglySorted longer_first (sort_by_seconds_desc l).
Proof.
  unfold sort_by_seconds_desc. induction l as [|x l IH]; simpl; [constructor|].
  now apply insert_desc_sorted.
Qed.

(** Stability: entries with equal seconds keep their order. *)
Lemma insert_desc_filter s x l :
  filter (has_seconds s) (insert_stable seconds_desc x l) = filter (has_seconds s) (x :: l).
Proof.
  induction l as [|y l IH]; [reflexivity|].
  cbn [insert_stable]. unfold seconds_desc at 1.
  destruct (d_seconds x <? d_seconds y) eqn:E; [|reflexivity].
  apply Z.ltb_lt in E. cbn [filter] in *. rewrite IH. unfold has_seconds.
  destruct (d_seconds y =? s) eqn:Ey; [|reflexivity].
  apply Z.eqb_eq in Ey.
  assert ((d_seconds x =? s) = false) as -> by (apply Z.eqb_neq; lia).
  reflexivity.
Qed.

Lemma sort_desc_filter s l :
  filter (has_seconds s) (sort_by_seconds_desc l) = filter (has_seconds s) l.
Proof.
  unfold sort_by_seconds_desc. induction l as [|x l IH]; [reflexivity|].
  cbn [sort_stable]. rewrite insert_desc_filter. cbn [filter]. now rewrite IH.
Qed.

(** When the input is in ascending id order, equal seconds come out in
    ascending id order. *)
Lemma insert_desc_by_id x l :
  StronglySorted by_seconds_then_id l ->
  Forall (fun y => d_table x < d_table y) l ->
  StronglySorted by_seconds_then_id (insert_stable seconds_desc x l).
Proof.
  induction 1 as [|y l Hs IH Hall]; intros Hx; simpl; [repeat constructor|].
  inversion Hx as [|? ? Hxy Hxl]; subst.
  unfold seconds_desc at 1. destruct (d_seconds x <? d_seconds y) eqn:E.
  - apply Z.ltb_lt in E. constructor; [now apply IH|].
    apply Forall_forall. intros z Hz. apply In_insert_stable in Hz as [->|Hz].
    + left. lia.
    + rewrite Forall_forall in Hall. now apply Hall.
  - apply Z.ltb_ge in E. constructor; [now constructor|].
    assert (Hy : by_seconds_then_id x y).
    { unfold by_seconds_then_id. lia. }
    constructor; [exact Hy|].
    rewrite Forall_forall in *. intros z Hz.
    specialize (Hall z Hz). specialize (Hxl z Hz).
    unfold by_seconds_then_id in *. lia.
Qed.

Lemma sort_desc_by_id l :
  StronglySorted (fun a b => d_table a < d_table b) l ->
  StronglySorted by_seconds_then_id (sort_by_seconds_desc l).
Proof.
  unfold sort_by_seconds_desc.
  induction 1 as [|x l Hs IH Hall]; simpl; [constructor|].
  apply insert_desc_by_id; [exact IH|].
  rewrite Forall_forall in *. intros z Hz. apply Hall.
  eapply Permutation_in; [apply sort_stable_perm | exact Hz].
Qed.

Lemma In_firstn_In {A} (z : A) n l : In z (firstn n l) -> In z l.
Proof.
  revert n. induction l as [|x l IH]; intros [|n]; simpl; try tauto.
  intros [->|H]; [now left | right; eapply IH; exact H].
Qed.

Lemma StronglySorted_firstn {A} (R : A -> A -> Prop) n l :
  StronglySorted R l -> StronglySorted R (firstn n l).
Proof.
  intros H. revert n. induction H as [|x l Hs IH Hall]; intros [|n]; simpl;
    try constructor.
  - apply IH.
  - rewrite Forall_forall in *. intros z Hz. apply Hall.
    eapply In_firstn_In. exact Hz.
Qed.

Lemma py_slice_to_nonneg {A} (l : list A) limit :
  0 <= limit -> py_slice_to l limit = firstn (Z.to_nat limit) l.
Proof.
  intros H. unfold py_slice_to.
  assert ((0 <=? limit) = true) as -> by (apply Z.leb_le; lia). reflexivity.
Qed.

(** ** The red durations *)

Lemma In_items_get {V} (d : dict V) k v :
  NoDup (keys d) -> (In (k, v) (items d) <-> get d k = Some v).
Proof.
  unfold items. induction d as [|[k' v'] d IH]; simpl; intros Hnd.
  - split; [tauto | discriminate].
  - inversion Hnd as [|? ? Hk' Hnd']; subst. destruct (k' =? k) eqn:E.
    + apply Z.eqb_eq in E. subst k'. split.
      * intros [[= ->]|H]; [reflexivity|]. exfalso. apply Hk'.
        change k with (fst (k, v)). now apply in_map.
      * intros [= ->]. now left.
    + apply Z.eqb_neq in E. rewrite <- (IH Hnd'). split.
      * intros [[= -> _]|H]; [contradiction | exact H].
      * intros H. now right.
Qed.

Lemma In_durations_of now rs d :
  In d (durations_of now rs) <->
  exists t, In (d_table d, Some t) (items rs) /\ ~ t == 0 /\
            d_seconds d = int_of_float (now - t).
Proof.
  unfold durations_of. rewrite in_flat_map. split.
  - intros [[k [t|]] [Hin Hd]]; [|contradiction].
    destruct (truthy_time (Some t)) eqn:T; [|contradiction].
    destruct Hd as [<-|[]]. exists t. simpl.
    split; [exact Hin|]. split; [now apply truthy_time_Some | reflexivity].
  - intros [t [Hin [Ht Hs]]]. exists (d_table d, Some t). split; [exact Hin|].
    apply truthy_time_Some in Ht. rewrite Ht. left.
    destruct d as [k s]. simpl in *. now subst s.
Qed.

Lemma durations_of_by_id now rs :
  StronglySorted Z.lt (keys rs) ->
  StronglySorted (fun a b => d_table a < d_table b) (durations_of now rs).
Proof.
  unfold durations_of, items. induction rs as [|[k o] rs IH]; simpl; intros H;
    [constructor|].
  inversion H as [|? ? Hs Hall]; subst. specialize (IH Hs).
  assert (Hk : Forall (fun b => k < d_table b) (durations_of now rs)).
  { apply Forall_forall. intros b Hb. apply In_durations_of in Hb as [t [Hin _]].
    rewrite Forall_forall in Hall. apply Hall.
    change (d_table b) with (fst (d_table b, Some t)). now apply in_map. }
  destruct o as [t|]; [|exact IH].
  destruct (truthy_time (Some t)); [|exact IH].
  simpl. now constructor.
Qed.

(** *** The shape of the dictionaries along a run *)

Lemma NoDup_keys_set {V} (d : dict V) k v : NoDup (keys d) -> NoDup (keys (set d k v)).
Proof.
  intros H. destruct (in_dec Z.eq_dec k (keys d)) as [Hin|Hout].
  - now rewrite keys_set_present.
  - rewrite keys_set_absent by assumption.
    apply (Permutation_NoDup (Permutation_cons_append (keys d) k)).
    now constructor.
Qed.

Lemma keys_distinct_init s e : keys_distinct (init s e).
Proof.
  unfold keys_distinct. rewrite init_colors, init_red_started, !keys_const.
  split; apply py_range_NoDup.
Qed.

Lemma keys_distinct_update st id c now :
  keys_distinct st -> keys_distinct (update_table_store st id c now).
Proof.
  intros [Hc Hr]. unfold keys_distinct, update_table_store.
  destruct (mem (_colors st) id); cbn [_colors _red_started];
    (split; [repeat apply NoDup_keys_set; exact Hc|]);
    destruct (c =? "red")%string;
    try destruct (negb (truthy_time _));
    repeat apply NoDup_keys_set; exact Hr.
Qed.

Lemma keys_distinct_reset_fold ks : forall s,
  keys_distinct s -> keys_distinct (fold_left reset_step ks s).
Proof.
  induction ks as [|k ks IH]; intros s H; simpl; [exact H|].
  apply IH. destruct H as [Hc Hr]. split; simpl; now apply NoDup_keys_set.
Qed.

(** Every store reached from a fresh one holds each key once. *)
Lemma keys_distinct_run st ops : keys_distinct st -> keys_distinct (run st ops).
Proof.
  revert st. induction ops as [|o ops IH]; intros st H; simpl; [exact H|].
  apply IH. destruct o as [id c now| |s e]; simpl.
  - now apply keys_distinct_update.
  - now apply keys_distinct_reset_fold.
  - unfold configure_range. destruct ((s <=? 0) || (e <? s)); simpl;
      [exact H | apply keys_distinct_init].
Qed.

Lemma laid_out_init s e : laid_out (init s e).
Proof.
  unfold laid_out. rewrite init_colors, init_red_started, !keys_const.
  simpl. auto.
Qed.

Lemma laid_out_update st id c now :
  in_range st id -> laid_out st -> laid_out (update_table_store st id c now).
Proof.
  intros Hid [Hc Hr].
  assert (Hin : In id (py_range (_start st) (_end st + 1))).
  { apply In_py_range. unfold in_range in Hid. lia. }
  assert (M : mem (_colors st) id = true).
  { apply mem_true_iff. now rewrite Hc. }
  unfold laid_out, update_table_store. rewrite M.
  cbn [negb _colors _red_started _start _end]. split.
  - rewrite keys_set_present; [exact Hc | now rewrite Hc].
  - destruct (c =? "red")%string; try destruct (negb (truthy_time _));
      rewrite ?keys_set_present; try exact Hr; now rewrite Hr.
Qed.

Lemma reset_fold_keys_red_started ks : forall s,
  (forall k, In k ks -> In k (keys (_red_started s))) ->
  keys (_red_started (fold_left reset_step ks s)) = keys (_red_started s).
Proof.
  induction ks as [|k ks IH]; intros s H; simpl; [reflexivity|].
  rewrite IH.
  - simpl. apply keys_set_present. apply H. now left.
  - intros k' Hk'. simpl. apply In_keys_set. left. apply H. now right.
Qed.

Lemma laid_out_reset st : laid_out st -> laid_out (reset_all_store st).
Proof.
  intros [Hc Hr]. unfold laid_out, reset_all_store.
  destruct (reset_fold_start_end (keys (_colors st)) st) as [-> ->].
  rewrite reset_fold_keys by auto.
  rewrite reset_fold_keys_red_started; [auto|].
  intros k Hk. rewrite Hr. now rewrite Hc in Hk.
Qed.

(** As long as every update addresses an id of the range, the keys of the
    store are the ids of the range in ascending order. *)
Lemma laid_out_run st ops :
  updates_in_range st ops -> laid_out st -> laid_out (run st ops).
Proof.
  revert st. induction ops as [|o ops IH]; intros st Hops H; simpl; [exact H|].
  destruct Hops as [Ho Hops]. apply IH; [exact Hops|].
  destruct o as [id c now| |s e]; simpl.
  - now apply laid_out_update.
  - now apply laid_out_reset.
  - unfold configure_range. destruct ((s <=? 0) || (e <? s)); simpl;
      [exact H | apply laid_out_init].
Qed.

Lemma laid_out_keys_ascending st :
  laid_out st -> StronglySorted Z.lt (keys (_red_started st)).
Proof. intros [_ ->]. apply py_range_sorted. Qed.

(** C3, as the code has it.  For a limit that is not negative (10 unless
    the caller says otherwise), [_red_durations_locked] returns the first
    [limit] entries of a list [full] that holds one entry for every entity
    with a [redSince], giving the whole seconds elapsed since then, longest
    first.  Entries with equal seconds keep the order the entities have in
    the dictionary, which is the order of their first assignment; they are
    in ascending id order when the keys of the dictionary are. *)
Theorem red_durations_sorted_stable (st : TableState.t) (now : Q) (limit : Z) :
  0 <= limit ->
  NoDup (keys (_red_started st)) ->
  stamps_nonzero st ->
  exists full,
    _red_durations_locked st now limit = firstn (Z.to_nat limit) full /\
    Permutation full (durations_of now (_red_started st)) /\
    (forall id s,
        In {| d_table := id; d_seconds := s |} full <->
        exists t, redSince st id = Some t /\ s = int_of_float (now - t)) /\
    StronglySorted longer_first full /\
    (forall s, filter (has_seconds s) full =
               filter (has_seconds s) (durations_of now (_red_started st))) /\
    (StronglySorted Z.lt (keys (_red_started st)) ->
     StronglySorted by_seconds_then_id full).
Proof.
  intros Hlimit Hnd Hst.
  exists (sort_by_seconds_desc (durations_of now (_red_started st))).
  split; [|split; [|split; [|split; [|split]]]].
  - unfold _red_durations_locked. now apply py_slice_to_nonneg.
  - apply sort_stable_perm.
  - intros id s. split.
    + intros H. apply (Permutation_in _ (sort_stable_perm _ _)) in H.
      apply In_durations_of in H as [t [Hin [_ Hs]]]. simpl in *.
      exists t. split; [|exact Hs].
      apply In_items_get in Hin; [|exact Hnd].
      unfold redSince, red_started_get. now rewrite Hin.
    + intros [t [Hr Hs]].
      apply (Permutation_in _ (Permutation_sym (sort_stable_perm _ _))).
      apply In_durations_of. exists t. simpl.
      split; [|split; [now apply (Hst id) | exact Hs]].
      apply In_items_get; [exact Hnd|].
      unfold redSince, red_started_get in Hr.
      destruct (get (_red_started st) id) as [o|]; [now subst o | discriminate].
  - apply sort_desc_sorted.
  - intros s. apply sort_desc_filter.
  - intros Hkeys. apply sort_desc_by_id. now apply durations_of_by_id.
Qed.

Lemma red_durations_sorted_stable_witness :
  let st := run (init 5 7) [op_update 3 "red" 100; op_update 5 "red" (201 # 2);
                            op_update 6 "red" 107] in
  exists full,
    _red_durations_locked st (1107 # 10) 2 = firstn 2 full /\
    StronglySorted longer_first full /\
    (forall s, filter (has_seconds s) full =
               filter (has_seconds s) (durations_of (1107 # 10) (_red_started st))).
Proof.
  intros st.
  assert (H0 : 0 <= 2) by lia.
  assert (Hnd : NoDup (keys (_red_started st))).
  { vm_compute. repeat constructor; simpl; intuition discriminate. }
  assert (Hst : stamps_nonzero st).
  { apply stamps_nonzero_run; [|apply stamps_nonzero_init].
    repeat constructor; simpl; discriminate. }
  destruct (red_durations_sorted_stable st (1107 # 10) 2 H0 Hnd Hst)
    as [full [E [_ [_ [Hs [Hf _]]]]]].
  exists full. split; [exact E|]. split; [exact Hs | exact Hf].
Defined.

(** C3 as stated fails on the order of equal durations: entity 3, adopted
    after the range 5..7 was laid out, has been red as many whole seconds
    as entity 5 and is listed after it. *)
Lemma red_durations_ties_not_by_id :
  let st := run (init 5 7) [op_update 3 "red" 100; op_update 5 "red" (201 # 2)] in
  _red_durations_locked st (1107 # 10) 10 =
    [{| d_table := 5; d_seconds := 10 |}; {| d_table := 3; d_seconds := 10 |}] /\
  ~ StronglySorted by_seconds_then_id (_red_durations_locked st (1107 # 10) 10).
Proof.
  intros st. split; [reflexivity|].
  intros H. change (_red_durations_locked st (1107 # 10) 10)
    with [{| d_table := 5; d_seconds := 10 |}; {| d_table := 3; d_seconds := 10 |}] in H.
  inversion H as [|? ? _ Hall]; subst.
  inversion Hall as [|? ? Hlt _]; subst.
  unfold by_seconds_then_id in Hlt. simpl in Hlt. lia.
Qed.

(** ** Inbound lines *)

Import SerialReceiver.

Lemma py_int_raises_ValueError s e : py_int s = Raise e -> is_ValueError e = true.
Proof.
  unfold py_int.
  set (body := rev (drop_spaces (rev (drop_spaces (int_chars s))))).
  destruct (match body with
            | ic_minus :: r => (true, r)
            | ic_plus :: r => (false, r)
            | _ => (false, body)
            end) as [negative ds].
  destruct (int_digits 0 0 false ds) as [[n count]|]; [|now intros [= <-]].
  destruct (count <=? INT_MAX_STR_DIGITS)%N; [discriminate | now intros [= <-]].
Qed.

Lemma color_code_in_range color_index :
  0 <= color_index <= 2 ->
  exists color, get COLOR_CODE color_index = Some color /\
                truthy_str (Some color) = true /\ In color VALID_COLORS.
Proof.
  intros H.
  assert (color_index = 0 \/ color_index = 1 \/ color_index = 2) as [-> | [-> | ->]] by lia;
    eexists; (split; [reflexivity|]); (split; [reflexivity|]); simpl; tauto.
Qed.

Lemma color_code_out_of_range color_index :
  ~ (0 <= color_index <= 2) -> get COLOR_CODE color_index = None.
Proof.
  intros H. unfold COLOR_CODE, get.
  destruct (0 =? color_index) eqn:E0; [apply Z.eqb_eq in E0; lia|].
  destruct (1 =? color_index) eqn:E1; [apply Z.eqb_eq in E1; lia|].
  destruct (2 =? color_index) eqn:E2; [apply Z.eqb_eq in E2; lia|].
  reflexivity.
Qed.

(** [_parse_message] has no way to raise: the only calls that can are
    inside the [try]. *)
Lemma parse_message_returns raw : exists r, _parse_message raw = Return r.
Proof.
  unfold _parse_message.
  destruct (py_split "," raw) as [|role [|t [|c [|x l]]]]; try (eexists; reflexivity).
  destruct (role =? "RT")%string; [eexists; reflexivity|].
  destruct (py_int t) as [table|e] eqn:Et; cbn [bind try_except_ValueError].
  - destruct (py_int c) as [ci|e] eqn:Ec; cbn [bind try_except_ValueError].
    + destruct (get COLOR_CODE ci) as [[|a n]|]; simpl; eexists; reflexivity.
    + rewrite (py_int_raises_ValueError _ _ Ec). eexists; reflexivity.
  - rewrite (py_int_raises_ValueError _ _ Et). eexists; reflexivity.
Qed.

Lemma read_loop_body_skips self raw now now' :
  _parse_message raw = Return None ->
  _read_loop_body self raw now now' = (self, Return tt).
Proof.
  intros H. unfold _read_loop_body. destruct raw; [reflexivity|]. now rewrite H.
Qed.

Lemma schedule_broadcast_state self update :
  _state (schedule_broadcast self update) = _state self.
Proof. unfold schedule_broadcast. destruct (_loop self); reflexivity. Qed.

(** C5. A line whose first field is ["RT"] is dropped, whatever follows:
    [_parse_message] returns [None], and the turn of the read loop leaves
    the receiver as it was, so the store is not touched and no broadcast is
    scheduled. *)
Theorem rt_line_is_discarded (self : SerialReceiver.t) (raw : string)
        (payload : list string) (now now' : Q) :
  py_split "," raw = "RT" :: payload ->
  _parse_message raw = Return None /\
  _read_loop_body self raw now now' = (self, Return tt) /\
  _state (fst (_read_loop_body self raw now now')) = _state self /\
  _loop (fst (_read_loop_body self raw now now')) = _loop self.
Proof.
  intros H.
  assert (P : _parse_message raw = Return None).
  { unfold _parse_message. rewrite H.
    destruct payload as [|t [|c [|x l]]]; reflexivity. }
  split; [exact P|].
  rewrite (read_loop_body_skips self raw now now' P). auto.
Qed.

Lemma rt_line_is_discarded_witness :
  let self := {| _state := init 1 3; _loop := Some [];
                 _connection := None; _configured_port := None;
                 _active_port := None |} in
  _read_loop_body self "RT,2,2" 100 101 = (self, Return tt) /\
  _read_loop_body self "RT,2,2,junk" 100 101 = (self, Return tt) /\
  _read_loop_body self "RT" 100 101 = (self, Return tt).
Proof.
  intros self. split; [|split].
  - apply (rt_line_is_discarded self "RT,2,2" ["2"; "2"] 100 101). reflexivity.
  - apply (rt_line_is_discarded self "RT,2,2,junk" ["2"; "2"; "junk"] 100 101).
    reflexivity.
  - apply (rt_line_is_discarded self "RT" [] 100 101). reflexivity.
Defined.

(** C6. A malformed line (a wrong number of fields, an id or colour field
    that is not an integer, a colour index outside 0..2) makes
    [_parse_message] return [None] without raising, and the turn of the
    read loop ends normally with the receiver, hence the store, as it was. *)
Theorem malformed_line_is_dropped (self : SerialReceiver.t) (raw : string)
        (now now' : Q) :
  malformed raw ->
  _parse_message raw = Return None /\
  _read_loop_body self raw now now' = (self, Return tt) /\
  _state (fst (_read_loop_body self raw now now')) = _state self.
Proof.
  intros H.
  assert (P : _parse_message raw = Return None).
  { unfold _parse_message.
    destruct H as [Hlen|role t c e Hs Ht|role t c e Hs Hc|role t c ci Hs Hc Hci].
    - destruct (py_split "," raw) as [|r [|t [|c [|x l]]]]; try reflexivity.
      now contradiction Hlen.
    - rewrite Hs, Ht. destruct (role =? "RT")%string; [reflexivity|].
      cbn [bind try_except_ValueError].
      now rewrite (py_int_raises_ValueError _ _ Ht).
    - rewrite Hs, Hc. destruct (role =? "RT")%string; [reflexivity|].
      destruct (py_int t) as [table|e'] eqn:Et; cbn [bind try_except_ValueError].
      + now rewrite (py_int_raises_ValueError _ _ Hc).
      + now rewrite (py_int_raises_ValueError _ _ Et).
    - rewrite Hs, Hc. destruct (role =? "RT")%string; [reflexivity|].
      destruct (py_int t) as [table|e'] eqn:Et; cbn [bind try_except_ValueError].
      + now rewrite (color_code_out_of_range _ Hci).
      + now rewrite (py_int_raises_ValueError _ _ Et). }
  split; [exact P|].
  rewrite (read_loop_body_skips self raw now now' P). auto.
Qed.

Lemma malformed_line_is_dropped_witness :
  let self := {| _state := init 1 3; _loop := Some [];
                 _connection := None; _configured_port := None;
                 _active_port := None |} in
  _read_loop_body self "S,2" 100 101 = (self, Return tt) /\
  _read_loop_body self "S,two,2" 100 101 = (self, Return tt) /\
  _read_loop_body self "S,2,red" 100 101 = (self, Return tt) /\
  _read_loop_body self "S,2,3" 100 101 = (self, Return tt) /\
  _read_loop_body self ("S," ++ of_bytes [28%nat] ++ "2,1") 100 101 = (self, Return tt) /\
  _read_loop_body self ("S," ++ String.concat "" (repeat "1" 4301) ++ ",1") 100 101 =
    (self, Return tt).
Proof.
  intros self. split; [|split; [|split; [|split; [|split]]]].
  - apply (malformed_line_is_dropped self "S,2" 100 101).
    apply wrong_field_count. vm_compute. discriminate.
  - apply (malformed_line_is_dropped self "S,two,2" 100 101).
    eapply id_not_integer with (table_str := "two"); reflexivity.
  - apply (malformed_line_is_dropped self "S,2,red" 100 101).
    eapply color_not_integer with (color_str := "red"); reflexivity.
  - apply (malformed_line_is_dropped self "S,2,3" 100 101).
    eapply color_out_of_range with (color_index := 3); [reflexivity | reflexivity | lia].
  - apply (malformed_line_is_dropped self ("S," ++ of_bytes [28%nat] ++ "2,1") 100 101).
    eapply id_not_integer with (table_str := (of_bytes [28%nat] ++ "2")%string); reflexivity.
  - apply (malformed_line_is_dropped
             self ("S," ++ String.concat "" (repeat "1" 4301) ++ ",1") 100 101).
    apply id_not_integer
      with (role := "S"%string) (table_str := String.concat "" (repeat "1" 4301))
           (color_str := "1"%string) (e := too_many_digits);
      vm_compute; reflexivity.
Defined.

Lemma read_loop_body_returns self raw now now' :
  snd (_read_loop_body self raw now now') = Return tt.
Proof.
  unfold _read_loop_body. destruct raw as [|a raw']; [reflexivity|].
  destruct (parse_message_returns (String a raw')) as [[[table color]|] ->];
    [|reflexivity].
  destruct (update_table (_state self) table color now now'). reflexivity.
Qed.

(** The read loop ends normally on every sequence of turns. *)
Lemma read_loop_returns turns : forall self, snd (_read_loop self turns) = Return tt.
Proof.
  induction turns as [|[raw now now'| |] turns IH]; intros self; simpl; try reflexivity.
  pose proof (read_loop_body_returns self raw now now') as H.
  destruct (_read_loop_body self raw now now') as [self' r]. simpl in H. subst r.
  apply IH.
Qed.

(** C10. A line of three fields whose role is anything but ["RT"], whose id
    field is an integer and whose colour field is 0, 1 or 2 is accepted
    whatever the role says: [_parse_message] returns the id with the colour
    name, and the turn of the read loop applies [update_table] to the store
    and, when an event loop is bound, schedules one broadcast of the
    payload. *)
Theorem other_roles_are_applied (self : SerialReceiver.t)
        (raw role table_str color_str : string) (table color_index : Z)
        (now now' : Q) :
  py_split "," raw = [role; table_str; color_str] ->
  role <> "RT" ->
  py_int table_str = Return table ->
  py_int color_str = Return color_index ->
  0 <= color_index <= 2 ->
  exists color,
    get COLOR_CODE color_index = Some color /\
    _parse_message raw = Return (Some (table, color)) /\
    snd (_read_loop_body self raw now now') = Return tt /\
    _state (fst (_read_loop_body self raw now now')) =
      fst (update_table (_state self) table color now now') /\
    color_of (_state (fst (_read_loop_body self raw now now'))) table = Some color /\
    (forall queue, _loop self = Some queue ->
       _loop (fst (_read_loop_body self raw now now')) =
       Some (queue ++ [snd (update_table (_state self) table color now now')])%list).
Proof.
  intros Hs Hrole Ht Hc Hci.
  destruct (color_code_in_range color_index Hci) as [color [Hcolor [Htruthy _]]].
  exists color.
  assert (P : _parse_message raw = Return (Some (table, color))).
  { unfold _parse_message. rewrite Hs.
    apply String.eqb_neq in Hrole. rewrite Hrole, Ht, Hc.
    cbn [bind try_except_ValueError]. now rewrite Hcolor, Htruthy. }
  assert (B : _read_loop_body self raw now now' =
              (schedule_broadcast
                 {| _state := fst (update_table (_state self) table color now now');
                    _loop := _loop self;
                    _connection := _connection self;
                    _configured_port := _configured_port self;
                    _active_port := _active_port self |}
                 (snd (update_table (_state self) table color now now')),
               Return tt)).
  { unfold _read_loop_body. destruct raw as [|a raw']; [discriminate Hs|].
    rewrite P. reflexivity. }
  split; [exact Hcolor|]. split; [exact P|]. rewrite B.
  split; [reflexivity|]. cbn [fst]. rewrite schedule_broadcast_state. cbn [_state].
  split; [reflexivity|]. split; [apply update_color_same|].
  intros queue Hq. unfold schedule_broadcast. cbn [_loop]. now rewrite Hq.
Qed.

Lemma other_roles_are_applied_witness :
  let self := {| _state := init 1 3; _loop := Some [];
                 _connection := None; _configured_port := None;
                 _active_port := None |} in
  color_of (_state (fst (_read_loop_body self "X,2,2" 100 101))) 2 = Some "red" /\
  color_of (_state (fst (_read_loop_body self ",3,1" 100 101))) 3 = Some "orange" /\
  color_of (_state (fst (_read_loop_body self "T,-1,0" 100 101))) (-1) = Some "green" /\
  color_of (_state (fst (_read_loop_body
                           self ("S," ++ of_bytes [217; 161; 217; 162]%nat ++ ",1") 100 101))) 12 =
    Some "orange" /\
  color_of (_state (fst (_read_loop_body
                           self ("S, 12" ++ of_bytes [194; 160]%nat ++ ",1") 100 101))) 12 =
    Some "orange".
Proof.
  intros self.
  assert (S : "S" <> "RT") by discriminate.
  destruct (other_roles_are_applied
              self ("S," ++ of_bytes [217; 161; 217; 162]%nat ++ ",1") "S"
              (of_bytes [217; 161; 217; 162]%nat) "1" 12 1 100 101
              eq_refl S eq_refl eq_refl ltac:(lia)) as [ca [Ga [_ [_ [_ [Ha _]]]]]].
  destruct (other_roles_are_applied
              self ("S, 12" ++ of_bytes [194; 160]%nat ++ ",1") "S"
              (" 12" ++ of_bytes [194; 160]%nat) "1" 12 1 100 101
              eq_refl S eq_refl eq_refl ltac:(lia)) as [cb [Gb [_ [_ [_ [Hb _]]]]]].
  injection Ga as <-. injection Gb as <-.
  assert (X : "X" <> "RT") by discriminate.
  assert (E : "" <> "RT") by discriminate.
  assert (T : "T" <> "RT") by discriminate.
  assert (R0 : 0 <= 0 <= 2) by lia.
  assert (R1 : 0 <= 1 <= 2) by lia.
  assert (R2 : 0 <= 2 <= 2) by lia.
  destruct (other_roles_are_applied self "X,2,2" "X" "2" "2" 2 2 100 101
              eq_refl X eq_refl eq_refl R2) as [c2 [G2 [_ [_ [_ [H2 _]]]]]].
  destruct (other_roles_are_applied self ",3,1" "" "3" "1" 3 1 100 101
              eq_refl E eq_refl eq_refl R1) as [c1 [G1 [_ [_ [_ [H1 _]]]]]].
  destruct (other_roles_are_applied self "T,-1,0" "T" "-1" "0" (-1) 0 100 101
              eq_refl T eq_refl eq_refl R0) as [c0 [G0 [_ [_ [_ [H0 _]]]]]].
  injection G2 as <-. injection G1 as <-. injection G0 as <-.
  split; [exact H2|]. split; [exact H1|]. split; [exact H0|].
  split; [exact Ha | exact Hb].
Defined.

(** ** Broadcast *)

Import WebsocketManager.

Section BroadcastFacts.
Variable send_json : WebSocket -> Message -> exc unit.
Variable message : Message.

Let ok := send_ok send_json message.

Lemma send_loop_spec conns :
  send_loop send_json conns message =
  (map (fun c => (c, ok c)) conns, filter (fun c => negb (ok c)) conns).
Proof.
  induction conns as [|c conns IH]; simpl; [reflexivity|].
  rewrite IH. unfold ok, send_ok. destruct (send_json c message); reflexivity.
Qed.

Lemma list_remove_head_kept a conns x :
  x <> a ->
  list_remove (a :: conns) x = (l <- list_remove conns x ;; Return (a :: l)).
Proof.
  intros H. simpl. destruct (Nat.eqb a x) eqn:E; [|reflexivity].
  apply Nat.eqb_eq in E. congruence.
Qed.

Lemma remove_loop_head_kept a stale : forall conns,
  Forall (fun x => x <> a) stale ->
  remove_loop (a :: conns) stale =
  (a :: fst (remove_loop conns stale), snd (remove_loop conns stale)).
Proof.
  induction stale as [|x stale IH]; intros conns H; [reflexivity|].
  inversion H as [|? ? Hx Hrest]; subst.
  cbn [remove_loop]. rewrite list_remove_head_kept by assumption.
  destruct (list_remove conns x) as [conns'|e]; cbn [bind]; [|reflexivity].
  now apply IH.
Qed.

(** Removing the handles whose send raised never fails and leaves the
    others, in order. *)
Lemma remove_loop_spec conns :
  remove_loop conns (filter (fun c => negb (ok c)) conns) =
  (filter ok conns, Return tt).
Proof.
  induction conns as [|c conns IH]; [reflexivity|].
  cbn [filter]. destruct (ok c) eqn:E; cbn [negb].
  - rewrite remove_loop_head_kept, IH; [reflexivity|].
    apply Forall_forall. intros x Hx. apply filter_In in Hx as [_ Hx].
    intros ->. rewrite E in Hx. discriminate.
  - cbn [remove_loop list_remove]. rewrite Nat.eqb_refl. exact IH.
Qed.

Lemma broadcast_spec self :
  broadcast send_json self message =
  ({| _connections := filter ok (_connections self) |},
   map (fun c => (c, ok c)) (_connections self),
   Return tt).
Proof.
  unfold broadcast. rewrite send_loop_spec, remove_loop_spec. reflexivity.
Qed.

Lemma delivered_spec conns :
  delivered (map (fun c => (c, ok c)) conns) = filter ok conns.
Proof.
  unfold delivered. induction conns as [|c conns IH]; simpl; [reflexivity|].
  destruct (ok c); simpl; now rewrite IH.
Qed.

End BroadcastFacts.

(** C7. [broadcast] tries a send on every registered handle, in order, and
    ends normally whatever the sends do.  The handles whose send raised are
    removed from the manager and no others: the handles left are those that
    were served, in their order.  With three handles of which the second
    fails, the first and the third are served and stay registered. *)
Theorem broadcast_isolates_failures
        (send_json : WebSocket -> Message -> exc unit)
        (self : WebsocketManager.t) (message : Message) :
  let '(self', log, result) := broadcast send_json self message in
  result = Return tt /\
  map fst log = _connections self /\
  (forall c ok, In (c, ok) log -> ok = send_ok send_json message c) /\
  delivered log = filter (send_ok send_json message) (_connections self) /\
  _connections self' = filter (send_ok send_json message) (_connections self) /\
  (forall c, In c (_connections self') <->
             In c (_connections self) /\ send_ok send_json message c = true) /\
  (forall a b c,
      _connections self = [a; b; c] ->
      send_ok send_json message a = true ->
      send_ok send_json message b = false ->
      send_ok send_json message c = true ->
      delivered log = [a; c] /\ _connections self' = [a; c]).
Proof.
  rewrite broadcast_spec. cbn [_connections].
  split; [reflexivity|]. split; [|split; [|split; [|split; [|split]]]].
  - rewrite map_map. simpl. apply map_id.
  - intros c ok H. apply in_map_iff in H as [c' [[= <- <-] _]]. reflexivity.
  - apply delivered_spec.
  - reflexivity.
  - intros c. apply filter_In.
  - intros a b c Hself Ha Hb Hc. rewrite delivered_spec, Hself. simpl.
    rewrite Ha, Hb, Hc. auto.
Qed.

Lemma broadcast_isolates_failures_witness :
  let send_json := fun (c : WebSocket) (_ : Message) =>
                     if Nat.eqb c 2 then Raise (RuntimeError "connection closed")
                     else Return tt in
  let message := TableState.snapshot (TableState.init 1 2) 100 in
  let self := {| _connections := [1; 2; 3]%nat |} in
  delivered (snd (fst (broadcast send_json self message))) = [1; 3]%nat /\
  _connections (fst (fst (broadcast send_json self message))) = [1; 3]%nat /\
  snd (broadcast send_json self message) = Return tt.
Proof.
  intros send_json message self.
  pose proof (broadcast_isolates_failures send_json self message) as H.
  destruct (broadcast send_json self message) as [[self' log] result].
  destruct H as [Hr [_ [_ [_ [_ [_ H3]]]]]].
  destruct (H3 1%nat 2%nat 3%nat eq_refl eq_refl eq_refl eq_refl) as [Hd Hc].
  simpl. auto.
Defined.

(** ** Outbound commands *)

Lemma color_name_to_id color :
  In color VALID_COLORS ->
  exists color_id, name_lookup COLOR_NAME_TO_ID color = Return color_id /\
                   get COLOR_CODE color_id = Some color.
Proof.
  simpl. intros [<-|[<-|[<-|[]]]]; eexists; split; reflexivity.
Qed.



(** ** Runs that stay inside the range *)

(** X22. While every update addresses an id of the configured range, the
    red durations do come out longest first with equal durations by
    ascending id. *)
Lemma red_durations_by_id_in_range (start end_ : Z) (ops : list store_op)
      (now : Q) (limit : Z) :
  updates_in_range (TableState.init start end_) ops ->
  0 <= limit ->
  StronglySorted by_seconds_then_id
    (_red_durations_locked (run (TableState.init start end_) ops) now limit).
Proof.
  intros Hops Hlimit. unfold _red_durations_locked.
  rewrite py_slice_to_nonneg by assumption.
  apply StronglySorted_firstn, sort_desc_by_id, durations_of_by_id.
  apply laid_out_keys_ascending, laid_out_run; [exact Hops | apply laid_out_init].
Qed.

(** The end-to-end scenario of the design document: range 1..5, entity 3
    turns orange, then red; ten seconds later it leads the red durations;
    back to green it is gone from them. *)
Example end_to_end_scenario :
  let s0 := TableState.init 1 5 in
  let s1 := fst (update_table s0 3 "orange" 1000 1000) in
  let s2 := fst (update_table s1 3 "red" 1001 1001) in
  let s3 := fst (update_table s2 3 "green" 1020 1020) in
  _counts_locked s1 = {| c_green := 4; c_orange := 1; c_red := 0 |} /\
  color_of s1 3 = Some "orange" /\
  _red_durations_locked s2 1011 10 = [{| d_table := 3; d_seconds := 10 |}] /\
  redSince s3 3 = None /\
  _red_durations_locked s3 1030 10 = [].
Proof. repeat split; reflexivity. Qed.

(* ===================================================================== *)
(** * Part IV: further properties of the receiver *)
(* ===================================================================== *)

(** ** Decimal strings *)

Lemma uint_value_pos u : forall acc,
  uint_value (Z.pos acc) u = Z.pos (Pos.of_uint_acc u acc).
Proof.
  induction u as [|u IH|u IH|u IH|u IH|u IH|u IH|u IH|u IH|u IH|u IH];
    intros acc; cbn [uint_value Pos.of_uint_acc]; try reflexivity;
    rewrite <- IH; f_equal; lia.
Qed.

Lemma uint_value_0 u : uint_value 0 u = Z.of_N (Pos.of_uint u).
Proof.
  induction u as [|u IH|u IH|u IH|u IH|u IH|u IH|u IH|u IH|u IH|u IH];
    cbn [uint_value Pos.of_uint]; try reflexivity; try exact IH;
    cbn [Z.of_N]; rewrite <- uint_value_pos; reflexivity.
Qed.

Lemma string_forall_impl (p q : ascii -> bool) s :
  (forall c, p c = true -> q c = true) ->
  string_forall p s = true -> string_forall q s = true.
Proof.
  intros H. induction s as [|c s IH]; simpl; [auto|].
  rewrite !andb_true_iff. intros [Hc Hs]. auto.
Qed.

Lemma string_of_uint_digits u : string_forall plain_digit (NilEmpty.string_of_uint u) = true.
Proof.
  induction u as [|u IH|u IH|u IH|u IH|u IH|u IH|u IH|u IH|u IH|u IH];
    [reflexivity|..]; cbn [NilEmpty.string_of_uint string_forall];
    rewrite IH; reflexivity.
Qed.

(** *** What [int] makes of ASCII *)

Lemma int_chars_ascii a s :
  (byte a <? 128)%N = true -> int_chars (String a s) = classify_ascii a :: int_chars s.
Proof. intros H. cbn [int_chars]. now rewrite H. Qed.

Lemma int_digits_uint u : forall acc count,
  int_digits acc count true (int_chars (NilEmpty.string_of_uint u)) =
  Some (uint_value acc u,
        (count + N.of_nat (String.length (NilEmpty.string_of_uint u)))%N).
Proof.
  induction u as [|u IH|u IH|u IH|u IH|u IH|u IH|u IH|u IH|u IH|u IH];
    intros acc count;
    [cbn [NilEmpty.string_of_uint int_chars int_digits String.length uint_value];
     now rewrite N.add_0_r|..];
    cbn [NilEmpty.string_of_uint String.length uint_value];
    rewrite int_chars_ascii by reflexivity;
    (change (classify_ascii _) with (ic_digit 0)
     || change (classify_ascii _) with (ic_digit 1)
     || change (classify_ascii _) with (ic_digit 2)
     || change (classify_ascii _) with (ic_digit 3)
     || change (classify_ascii _) with (ic_digit 4)
     || change (classify_ascii _) with (ic_digit 5)
     || change (classify_ascii _) with (ic_digit 6)
     || change (classify_ascii _) with (ic_digit 7)
     || change (classify_ascii _) with (ic_digit 8)
     || change (classify_ascii _) with (ic_digit 9));
    cbn [int_digits]; rewrite IH; do 2 f_equal; lia.
Qed.

Lemma int_chars_uint_no_space u :
  ~ In ic_space (int_chars (NilEmpty.string_of_uint u)).
Proof.
  induction u as [|u IH|u IH|u IH|u IH|u IH|u IH|u IH|u IH|u IH|u IH];
    [intros []|..];
    cbn [NilEmpty.string_of_uint]; rewrite int_chars_ascii by reflexivity;
    (intros [H|H]; [discriminate H | exact (IH H)]).
Qed.

Lemma drop_spaces_id l : ~ In ic_space l -> drop_spaces l = l.
Proof. destruct l as [|[| | | | |] l]; simpl; intros H; try reflexivity. exfalso; auto. Qed.

Lemma int_strip_id l :
  ~ In ic_space l -> rev (drop_spaces (rev (drop_spaces l))) = l.
Proof.
  intros H. rewrite (drop_spaces_id l H).
  rewrite drop_spaces_id; [apply rev_involutive|].
  intros H'. apply H. now apply in_rev.
Qed.

Lemma int_chars_uint_head u :
  u <> Decimal.Nil ->
  exists d l, int_chars (NilEmpty.string_of_uint u) = ic_digit d :: l.
Proof.
  intros Hu. destruct u; [contradiction|..];
    cbn [NilEmpty.string_of_uint]; rewrite int_chars_ascii by reflexivity;
    classify_head; eauto.
Qed.

Lemma int_digits_uint_fresh u :
  u <> Decimal.Nil ->
  int_digits 0 0 false (int_chars (NilEmpty.string_of_uint u)) =
  Some (uint_value 0 u, N.of_nat (String.length (NilEmpty.string_of_uint u))).
Proof.
  intros Hu. destruct u; [contradiction|..];
    cbn [NilEmpty.string_of_uint String.length uint_value];
    rewrite int_chars_ascii by reflexivity; classify_head;
    cbn [int_digits]; rewrite int_digits_uint; do 2 f_equal; lia.
Qed.

Lemma py_int_of_digits u :
  u <> Decimal.Nil ->
  let capped (z : Z) :=
    if (N.of_nat (String.length (NilEmpty.string_of_uint u)) <=? INT_MAX_STR_DIGITS)%N
    then Return z else Raise too_many_digits in
  py_int (NilEmpty.string_of_uint u) = capped (uint_value 0 u) /\
  py_int (String "-" (NilEmpty.string_of_uint u)) = capped (- uint_value 0 u).
Proof.
  intros Hu capped. subst capped. cbv beta.
  pose proof (int_chars_uint_no_space u) as Hs.
  destruct (int_chars_uint_head u Hu) as [d [l E]].
  split.
  - unfold py_int. rewrite (int_strip_id _ Hs).
    rewrite E. cbn match. rewrite <- E.
    rewrite (int_digits_uint_fresh u Hu). reflexivity.
  - unfold py_int. rewrite int_chars_ascii by reflexivity.
    change (classify_ascii "-") with ic_minus.
    rewrite int_strip_id by (intros [H|H]; [discriminate H | exact (Hs H)]).
    cbn match. rewrite (int_digits_uint_fresh u Hu). reflexivity.
Qed.

Lemma str_of_int_abs z :
  str_of_int z = if z <? 0 then String "-" (str_of_int (Z.abs z)) else str_of_int (Z.abs z).
Proof. destruct z as [|p|p]; reflexivity. Qed.

(** [format] writes the digits of the absolute value, a minus sign before
    them for a negative number. *)
Lemma str_of_int_shape z :
  exists u, u <> Decimal.Nil /\ uint_value 0 u = Z.abs z /\
            str_of_int (Z.abs z) = NilEmpty.string_of_uint u /\
            str_of_int z =
            if z <? 0 then String "-" (NilEmpty.string_of_uint u)
            else NilEmpty.string_of_uint u.
Proof.
  assert (P : forall p, str_of_int (Z.pos p) = NilEmpty.string_of_uint (Pos.to_uint p)).
  { intros p. unfold str_of_int. cbn [Z.to_int NilZero.string_of_int].
    unfold NilZero.string_of_uint.
    pose proof (DecimalPos.Unsigned.to_uint_nonnil p).
    destruct (Pos.to_uint p); [contradiction|reflexivity..]. }
  destruct z as [|p|p].
  - exists (Decimal.D0 Decimal.Nil). repeat split. discriminate.
  - exists (Pos.to_uint p). split; [apply DecimalPos.Unsigned.to_uint_nonnil|].
    split; [rewrite uint_value_0, DecimalPos.Unsigned.of_to; reflexivity|].
    cbn [Z.abs Z.ltb Z.compare]. split; apply P.
  - exists (Pos.to_uint p). split; [apply DecimalPos.Unsigned.to_uint_nonnil|].
    split; [rewrite uint_value_0, DecimalPos.Unsigned.of_to; reflexivity|].
    rewrite (str_of_int_abs (Z.neg p)).
    cbn [Z.abs Z.ltb Z.compare]. rewrite P. split; reflexivity.
Qed.

(** What [format] writes, [int] reads back, up to the number of digits
    [int] takes. *)
Lemma py_int_str_of_int z :
  py_int (str_of_int z) =
  if (decimal_digits z <=? INT_MAX_STR_DIGITS)%N then Return z else Raise too_many_digits.
Proof.
  unfold decimal_digits.
  destruct (str_of_int_shape z) as [u [Hu [Hv [-> ->]]]].
  destruct (py_int_of_digits u Hu) as [Hp Hn].
  destruct (z <? 0) eqn:E.
  - rewrite Hn, Hv. apply Z.ltb_lt in E. now replace (- Z.abs z) with z by lia.
  - rewrite Hp, Hv. apply Z.ltb_ge in E. now replace (Z.abs z) with z by lia.
Qed.

Lemma py_int_str_of_int_small z :
  (decimal_digits z <= INT_MAX_STR_DIGITS)%N -> py_int (str_of_int z) = Return z.
Proof.
  intros H. rewrite py_int_str_of_int. apply N.leb_le in H. now rewrite H.
Qed.

Lemma string_forall_app p a b :
  string_forall p (a ++ b) = string_forall p a && string_forall p b.
Proof.
  induction a as [|c a IH]; simpl; [reflexivity|]. now rewrite IH, andb_assoc.
Qed.

Lemma str_of_int_forall (p : ascii -> bool) z :
  (forall c, plain_digit c = true -> p c = true) ->
  (z < 0 -> p "-"%char = true) ->
  string_forall p (str_of_int z) = true.
Proof.
  intros Hd Hm. destruct (str_of_int_shape z) as [u [_ [_ [_ ->]]]].
  pose proof (string_forall_impl _ _ _ Hd (string_of_uint_digits u)) as Hu.
  destruct (z <? 0) eqn:E; [|exact Hu].
  apply Z.ltb_lt in E. cbn [string_forall]. now rewrite Hu, (Hm E).
Qed.

Lemma str_of_int_not_empty z : str_of_int z <> EmptyString.
Proof.
  destruct (str_of_int_shape z) as [u [Hu [_ [_ ->]]]].
  destruct (z <? 0); [discriminate|].
  destruct u; [contradiction|discriminate..].
Qed.

Lemma plain_digit_not_space c : plain_digit c = true -> not_space c = true.
Proof. unfold plain_digit. rewrite !andb_true_iff. tauto. Qed.

Lemma plain_digit_not_char x c :
  x = ","%char \/ x = "-"%char \/ x = "+"%char ->
  plain_digit c = true -> not_char x c = true.
Proof. unfold plain_digit. rewrite !andb_true_iff. intros [-> | [-> | ->]]; tauto. Qed.

(** ** White space *)

Lemma not_space_ascii a : not_space a = true -> (byte a <? 128)%N = true.
Proof. unfold not_space. rewrite andb_true_iff. tauto. Qed.

Lemma not_space_1 a : not_space a = true -> is_space a = false.
Proof. unfold not_space. rewrite andb_true_iff, negb_true_iff. tauto. Qed.

Lemma not_space_lead a k : not_space a = true -> (128 <= k)%N -> (byte a =? k)%N = false.
Proof.
  intros H Hk. apply not_space_ascii, N.ltb_lt in H. apply N.eqb_neq. lia.
Qed.

Lemma not_space_2 a b : not_space a = true -> is_space2 a b = false.
Proof. intros H. unfold is_space2. now rewrite (not_space_lead a 194 H) by lia. Qed.

Lemma not_space_3 a b c : not_space a = true -> is_space3 a b c = false.
Proof.
  intros H. unfold is_space3.
  rewrite (not_space_lead a 225 H), (not_space_lead a 226 H), (not_space_lead a 227 H) by lia.
  reflexivity.
Qed.

Lemma not_space_char a s : not_space a = true -> is_space_char (String a s) = false.
Proof.
  intros H. destruct s as [|b [|c [|d s]]]; cbn [is_space_char];
    auto using not_space_1, not_space_2, not_space_3.
Qed.

Lemma not_space_start a s : not_space a = true -> starts_with_space (String a s) = false.
Proof.
  intros H. cbn [starts_with_space]. rewrite (not_space_1 a H).
  destruct s as [|b [|c s]]; [reflexivity|..];
    rewrite (not_space_2 a b H); [reflexivity|]. now rewrite (not_space_3 a b c H).
Qed.

Lemma lstrip_of_start s : starts_with_space s = false -> lstrip s = s.
Proof.
  destruct s as [|a s1]; [reflexivity|]. cbn [starts_with_space lstrip].
  destruct (is_space a); [discriminate|]. cbn [orb].
  destruct s1 as [|b s2]; [reflexivity|].
  destruct (is_space2 a b); [discriminate|]. cbn [orb].
  destruct s2 as [|c s3]; [reflexivity|].
  now destruct (is_space3 a b c).
Qed.

Lemma lstrip_start s : starts_with_space (lstrip s) = false.
Proof.
  enough (G : forall n s, (String.length s <= n)%nat -> starts_with_space (lstrip s) = false)
    by exact (G _ s (le_n _)).
  clear s. induction n as [|n IH]; intros s Hn.
  - destruct s; [reflexivity | simpl in Hn; lia].
  - destruct s as [|a s1]; [reflexivity|]. cbn [lstrip String.length] in *.
    destruct (is_space a) eqn:Ea; [apply IH; lia|].
    destruct s1 as [|b s2]; [cbn [starts_with_space]; now rewrite Ea|].
    cbn [String.length] in Hn.
    destruct (is_space2 a b) eqn:Eb; [apply IH; lia|].
    destruct s2 as [|c s3]; [cbn [starts_with_space]; now rewrite Ea, Eb|].
    cbn [String.length] in Hn.
    destruct (is_space3 a b c) eqn:Ec; [apply IH; lia|].
    cbn [starts_with_space]. now rewrite Ea, Eb, Ec.
Qed.

Lemma lstrip_id s : string_forall not_space s = true -> lstrip s = s.
Proof.
  intros H. apply lstrip_of_start. destruct s as [|a s]; [reflexivity|].
  simpl in H. apply andb_true_iff in H. now apply not_space_start.
Qed.

Lemma rstrip_id s : string_forall not_space s = true -> rstrip s = s.
Proof.
  induction s as [|a s IH]; cbn [rstrip string_forall]; [reflexivity|].
  rewrite andb_true_iff. intros [Ha Hs]. cbv zeta.
  now rewrite (IH Hs), (not_space_char a s Ha).
Qed.

Lemma py_strip_id s : string_forall not_space s = true -> py_strip s = s.
Proof. intros H. unfold py_strip. rewrite lstrip_id by assumption. now apply rstrip_id. Qed.

(** White space at the end goes, whatever is before it. *)
Lemma rstrip_app_blank s post :
  rstrip post = EmptyString -> rstrip (s ++ post) = rstrip s.
Proof.
  intros H. induction s as [|a s IH]; cbn [String.append rstrip]; [exact H|].
  now rewrite IH.
Qed.

(** ** Splitting *)

Lemma py_split_plain sep a :
  string_forall (not_char sep) a = true -> py_split sep a = [a].
Proof.
  induction a as [|c a IH]; simpl; [reflexivity|].
  unfold not_char at 1. rewrite andb_true_iff, negb_true_iff. intros [-> Ha].
  now rewrite (IH Ha).
Qed.

Lemma py_split_app sep a b :
  string_forall (not_char sep) a = true ->
  py_split sep (a ++ String sep b) = a :: py_split sep b.
Proof.
  induction a as [|c a IH]; simpl.
  - intros _. now rewrite Ascii.eqb_refl.
  - unfold not_char at 1. rewrite andb_true_iff, negb_true_iff. intros [-> Ha].
    now rewrite (IH Ha).
Qed.

Lemma split_once_app sep a b :
  string_forall (not_char sep) a = true ->
  split_once sep (a ++ String sep b) = Some (a, b).
Proof.
  induction a as [|c a IH]; simpl.
  - intros _. now rewrite Ascii.eqb_refl.
  - unfold not_char at 1. rewrite andb_true_iff, negb_true_iff. intros [-> Ha].
    now rewrite (IH Ha).
Qed.



(** ** [parse_table_range] *)


Lemma parse_table_range_split a b :
  string_forall (not_char "-") a = true ->
  parse_table_range (Some (a ++ "-" ++ b)%string) =
  match py_int a, py_int b with
  | Return s, Return e => if (s <=? 0) || (e <? s) then Return (1, 50) else Return (s, e)
  | _, _ => Return (1, 50)
  end.
Proof.
  intros H. unfold parse_table_range.
  assert (T : truthy_str (Some (a ++ "-" ++ b)%string) = true) by (now destruct a).
  rewrite T. cbn [negb]. unfold parse_table_range_body, py_split_1.
  change ("-" ++ b)%string with (String "-" b).
  rewrite (split_once_app _ _ _ H).
  destruct (py_int a) as [s|err] eqn:Ea; cbn [bind].
  - destruct (py_int b) as [e|err] eqn:Eb; cbn [bind].
    + now destruct ((s <=? 0) || (e <? s)).
    + cbn [try_except_ValueError]. now rewrite (py_int_raises_ValueError _ _ Eb).
  - cbn [try_except_ValueError]. now rewrite (py_int_raises_ValueError _ _ Ea).
Qed.



(** X2. A range written as [<start>-<end>] with [0 < start <= end] is read
    back as it is, when neither numeral has more digits than [int] takes;
    with more, the fallback [1-50] is returned. *)
Theorem parse_table_range_round_trip (start end_ : Z) :
  0 < start <= end_ ->
  parse_table_range (Some (str_of_int start ++ "-" ++ str_of_int end_)%string) =
  if ((decimal_digits start <=? INT_MAX_STR_DIGITS)
      && (decimal_digits end_ <=? INT_MAX_STR_DIGITS))%N
  then Return (start, end_) else Return (1, 50).
Proof.
  intros H. rewrite parse_table_range_split.
  - rewrite !py_int_str_of_int.
    destruct (decimal_digits start <=? INT_MAX_STR_DIGITS)%N; [|reflexivity].
    destruct (decimal_digits end_ <=? INT_MAX_STR_DIGITS)%N; [|reflexivity].
    cbn [andb].
    assert (((start <=? 0) || (end_ <? start)) = false) as ->.
    { apply orb_false_iff. split; [apply Z.leb_gt | apply Z.ltb_ge]; lia. }
    reflexivity.
  - apply str_of_int_forall; [|lia].
    intros c. now apply plain_digit_not_char; auto.
Qed.

Lemma parse_table_range_round_trip_witness :
  parse_table_range (Some "3-12") = Return (3, 12) /\
  parse_table_range (Some "12-3") = Return (1, 50) /\
  parse_table_range (Some "0-4") = Return (1, 50) /\
  parse_table_range (Some "seven") = Return (1, 50).
Proof.
  split; [|repeat split; reflexivity].
  exact (parse_table_range_round_trip 3 12 ltac:(lia)).
Defined.

(** ** The store: one update among the others *)

Lemma mem_set_same {V} (d : dict V) k v : mem (set d k v) k = true.
Proof. unfold mem. now rewrite get_set_same. Qed.

Lemma set_set_same {V} (d : dict V) k v v' : set (set d k v) k v' = set d k v'.
Proof.
  induction d as [|[k' x] d IH]; simpl.
  - now rewrite Z.eqb_refl.
  - destruct (k' =? k) eqn:E; simpl.
    + now rewrite Z.eqb_refl.
    + now rewrite E, IH.
Qed.

Lemma set_get_same {V} (d : dict V) k v : get d k = Some v -> set d k v = d.
Proof.
  induction d as [|[k' x] d IH]; simpl; [discriminate|].
  destruct (k' =? k) eqn:E.
  - apply Z.eqb_eq in E. subst k'. now intros [= ->].
  - intros H. now rewrite (IH H).
Qed.

(** X3. [update_table] on one id leaves the colour and the [redSince] of
    every other entity, and the configured range, as they were; the entity
    has the new colour afterwards, and the store has one entity more
    exactly when the id was unknown. *)
Theorem update_table_frame (st : TableState.t) (id : Z) (c : string) (now now' : Q) :
  let st' := fst (update_table st id c now now') in
  (forall j, j <> id -> color_of st' j = color_of st j /\ redSince st' j = redSince st j) /\
  color_of st' id = Some c /\
  _start st' = _start st /\ _end st' = _end st /\
  (forall j, In j (entity_ids st') <-> In j (entity_ids st) \/ j = id) /\
  List.length (entity_ids st') =
    (List.length (entity_ids st) + if mem (_colors st) id then 0 else 1)%nat.
Proof.
  cbn [fst update_table]. split; [|split; [|split; [|split; [|split]]]].
  - intros j Hj. split;
      [now apply update_color_other | now apply update_redSince_other].
  - apply update_color_same.
  - apply update_start_end.
  - apply update_start_end.
  - intros j. apply entity_ids_update.
  - unfold entity_ids, update_table_store.
    destruct (mem (_colors st) id) eqn:M; cbn [negb _colors].
    + rewrite keys_set_present by now apply mem_true_iff. lia.
    + rewrite keys_set_present by (apply In_keys_set; now right).
      rewrite keys_set_absent by now apply mem_false_iff.
      rewrite length_app. simpl. lia.
Qed.

(** X4. Repeating an update changes nothing: the store after
    [update_table(id, c)] twice is the store after the first call, provided
    the clock did not read [0.0] at the first call when [c] is red. *)
Theorem update_table_idempotent (st : TableState.t) (id : Z) (c : string)
        (now now' later later' : Q) :
  (c = "red" -> ~ now == 0) ->
  fst (update_table (fst (update_table st id c now now')) id c later later') =
  fst (update_table st id c now now').
Proof.
  intros Hnow. cbn [fst update_table].
  set (st1 := update_table_store st id c now).
  assert (M : mem (_colors st1) id = true).
  { apply mem_true_iff. eapply get_Some_In_keys. apply update_color_same. }
  assert (C : set (_colors st1) id c = _colors st1).
  { apply set_get_same. apply update_color_same. }
  unfold update_table_store at 1. rewrite M. cbn [negb]. rewrite C.
  destruct (c =? "red")%string eqn:E.
  - apply String.eqb_eq in E.
    assert (T : truthy_time (red_started_get st1 id) = true).
    { fold (redSince st1 id). unfold st1. subst c. rewrite update_red_redSince.
      destruct (truthy_time (if mem (_colors st) id then redSince st id else None)) eqn:T;
        [exact T | now apply truthy_time_Some, Hnow]. }
    rewrite T. cbn [negb]. now destruct st1.
  - assert (R : set (_red_started st1) id None = _red_started st1).
    { apply set_get_same. unfold st1, update_table_store.
      rewrite E. cbn [_red_started]. apply get_set_same. }
    rewrite R. now destruct st1.
Qed.

Lemma update_table_idempotent_witness :
  let st := fst (update_table (TableState.init 1 3) 2 "red" 100 101) in
  fst (update_table st 2 "red" 200 201) = st /\
  fst (update_table (fst (update_table (TableState.init 1 3) 9 "orange" 0 0)) 9 "orange" 5 5) =
  fst (update_table (TableState.init 1 3) 9 "orange" 0 0).
Proof.
  intros st. split.
  - apply (update_table_idempotent (TableState.init 1 3) 2 "red" 100 101 200 201).
    intros _. discriminate.
  - apply (update_table_idempotent (TableState.init 1 3) 9 "orange" 0 0 5 5).
    discriminate.
Defined.

(** ** The store: shape of the two dictionaries *)

Lemma keys_agree_init s e : keys_agree (TableState.init s e).
Proof. unfold keys_agree. now rewrite init_colors, init_red_started, !keys_const. Qed.

Lemma keys_agree_update st id c now :
  keys_agree st -> keys_agree (update_table_store st id c now).
Proof.
  unfold keys_agree, update_table_store. intros H.
  destruct (mem (_colors st) id) eqn:M; cbn [negb _colors _red_started].
  - assert (Hc : In id (keys (_colors st))) by now apply mem_true_iff.
    assert (Hr : In id (keys (_red_started st))) by now rewrite <- H.
    rewrite keys_set_present by assumption.
    destruct (c =? "red")%string; try destruct (negb (truthy_time _));
      rewrite ?keys_set_present by assumption; exact H.
  - assert (Hc : ~ In id (keys (_colors st))) by now apply mem_false_iff.
    assert (Hr : ~ In id (keys (_red_started st))) by now rewrite <- H.
    rewrite keys_set_present by (apply In_keys_set; now right).
    rewrite keys_set_absent by assumption.
    destruct (c =? "red")%string; try destruct (negb (truthy_time _));
      rewrite ?keys_set_present by (apply In_keys_set; now right);
      rewrite keys_set_absent by assumption; now rewrite H.
Qed.

Lemma keys_agree_reset st : keys_agree st -> keys_agree (reset_all_store st).
Proof.
  unfold keys_agree, reset_all_store. intros H.
  rewrite reset_fold_keys by auto.
  rewrite reset_fold_keys_red_started; [exact H|].
  intros k Hk. now rewrite <- H.
Qed.

Lemma keys_agree_run st ops : keys_agree st -> keys_agree (run st ops).
Proof.
  revert st. induction ops as [|o ops IH]; intros st H; simpl; [exact H|].
  apply IH. destruct o as [id c now| |s e]; simpl.
  - now apply keys_agree_update.
  - now apply keys_agree_reset.
  - unfold configure_range. destruct ((s <=? 0) || (e <? s)); simpl;
      [exact H | apply keys_agree_init].
Qed.

Lemma values_Forall {V} (P : V -> Prop) (d : dict V) :
  NoDup (keys d) -> (forall k v, get d k = Some v -> P v) -> Forall P (values d).
Proof.
  intros Hnd H. apply Forall_forall. intros v Hv.
  unfold values in Hv. apply in_map_iff in Hv as [[k v'] [<- Hin]].
  apply (H k). now apply In_items_get.
Qed.

Lemma count_color_cons c v vs :
  count_color c (v :: vs) = (if (c =? v)%string then 1 else 0) + count_color c vs.
Proof.
  unfold count_color. cbn [filter]. destruct (c =? v)%string; cbn [List.length]; lia.
Qed.

Lemma counts_of_valid vs :
  Forall (fun v => In v VALID_COLORS) vs ->
  count_color "green" vs + count_color "orange" vs + count_color "red" vs =
  Z.of_nat (List.length vs).
Proof.
  induction 1 as [|v vs Hv _ IH]; [reflexivity|].
  rewrite !count_color_cons. cbn [List.length].
  simpl in Hv. destruct Hv as [<-|[<-|[<-|[]]]];
    cbn [String.eqb Ascii.eqb Bool.eqb]; lia.
Qed.

Lemma counts_of_green vs :
  Forall (eq "green") vs ->
  count_color "green" vs = Z.of_nat (List.length vs) /\
  count_color "orange" vs = 0 /\ count_color "red" vs = 0.
Proof.
  induction 1 as [|v vs <- _ [IH1 [IH2 IH3]]]; [now repeat split|].
  rewrite !count_color_cons. cbn [List.length String.eqb Ascii.eqb Bool.eqb]. lia.
Qed.

Lemma durations_of_none now rs :
  (forall k t, ~ In (k, Some t) (items rs)) -> durations_of now rs = [].
Proof.
  intros H. destruct (durations_of now rs) as [|d l] eqn:E; [reflexivity|].
  assert (Hd : In d (durations_of now rs)) by (rewrite E; now left).
  apply In_durations_of in Hd as [t [Hin _]]. now apply H in Hin.
Qed.

Lemma In_py_slice_to {A} (x : A) l limit : In x (py_slice_to l limit) -> In x l.
Proof. unfold py_slice_to. destruct (0 <=? limit); apply In_firstn_In. Qed.

(** ** The store: [reset_all] *)

(** X5. [reset_all] keeps the entities, those adopted from outside the
    range included, and the range; it makes every entity green and clears
    every [redSince]; the snapshot it returns counts all entities as green
    and lists no red duration. *)
Theorem reset_all_spec (st : TableState.t) (now : Q) :
  keys_distinct st -> keys_agree st ->
  let st' := fst (TableState.reset_all st now) in
  let snap := snd (TableState.reset_all st now) in
  entity_ids st' = entity_ids st /\
  _start st' = _start st /\ _end st' = _end st /\
  (forall id, In id (entity_ids st) ->
              color_of st' id = Some "green" /\ redSince st' id = None) /\
  msg_counts snap =
    {| c_green := Z.of_nat (List.length (entity_ids st)); c_orange := 0; c_red := 0 |} /\
  msg_red_durations snap = [].
Proof.
  intros Hd Ha. cbn [fst snd TableState.reset_all].
  pose proof (keys_distinct_reset_fold (keys (_colors st)) st Hd) as [Hdc Hdr].
  fold (reset_all_store st) in Hdc, Hdr.
  pose proof (keys_agree_reset st Ha) as Ha'.
  split; [apply entity_ids_reset|].
  split; [apply (reset_fold_start_end (keys (_colors st)) st)|].
  split; [apply (reset_fold_start_end (keys (_colors st)) st)|].
  split; [|split].
  - intros id Hid. split; [|now apply redSince_reset].
    destruct (In_keys_get (_colors (reset_all_store st)) id) as [c Hc].
    { fold (entity_ids (reset_all_store st)). now rewrite entity_ids_reset. }
    unfold color_of. rewrite Hc. f_equal. now apply (color_of_reset st id).
  - cbn [msg_counts _snapshot_locked]. unfold _counts_locked.
    assert (G : Forall (eq "green") (values (_colors (reset_all_store st)))).
    { apply values_Forall; [exact Hdc|]. intros k v Hk. symmetry.
      now apply (color_of_reset st k). }
    destruct (counts_of_green _ G) as [-> [-> ->]].
    unfold values. rewrite length_map.
    replace (List.length (_colors (reset_all_store st)))
      with (List.length (entity_ids (reset_all_store st)))
      by (unfold entity_ids, keys; apply length_map).
    now rewrite entity_ids_reset.
  - cbn [msg_red_durations _snapshot_locked]. unfold _red_durations_locked.
    rewrite durations_of_none; [reflexivity|].
    intros k t Hin. apply In_items_get in Hin; [|exact Hdr].
    assert (Hk : In k (entity_ids st)).
    { apply get_Some_In_keys in Hin. rewrite <- Ha' in Hin.
      fold (entity_ids (reset_all_store st)) in Hin. now rewrite entity_ids_reset in Hin. }
    pose proof (redSince_reset st k Hk) as R.
    unfold redSince, red_started_get in R. rewrite Hin in R. discriminate.
Qed.

Lemma reset_all_spec_witness :
  let st := run (TableState.init 1 3) [op_update 2 "red" 100; op_update 8 "orange" 101] in
  entity_ids (fst (TableState.reset_all st 200)) = [1; 2; 3; 8] /\
  msg_counts (snd (TableState.reset_all st 200)) =
    {| c_green := 4; c_orange := 0; c_red := 0 |} /\
  msg_red_durations (snd (TableState.reset_all st 200)) = [].
Proof.
  intros st.
  assert (Hd : keys_distinct st) by apply keys_distinct_run, keys_distinct_init.
  assert (Ha : keys_agree st) by apply keys_agree_run, keys_agree_init.
  destruct (reset_all_spec st 200 Hd Ha) as [H1 [_ [_ [_ [H5 H6]]]]].
  split; [exact H1|]. split; [exact H5 | exact H6].
Defined.

(** ** The store: counts and snapshot *)

Lemma colors_valid_init s e : colors_valid (TableState.init s e).
Proof. intros id c H. apply color_of_init in H. subst c. simpl. tauto. Qed.

Lemma colors_valid_update st id c now :
  In c VALID_COLORS -> colors_valid st -> colors_valid (update_table_store st id c now).
Proof.
  intros Hc H j cj Hj. destruct (Z.eq_dec j id) as [->|Hne].
  - rewrite update_color_same in Hj. now injection Hj as <-.
  - rewrite update_color_other in Hj by assumption. now apply (H j).
Qed.

Lemma colors_valid_reset st : colors_valid (reset_all_store st).
Proof. intros id c H. apply color_of_reset in H. subst c. simpl. tauto. Qed.

Lemma colors_valid_run st ops :
  Forall op_color_valid ops -> colors_valid st -> colors_valid (run st ops).
Proof.
  revert st. induction ops as [|o ops IH]; intros st Hops H; simpl; [exact H|].
  inversion Hops as [|? ? Ho Hops']; subst.
  apply IH; [exact Hops'|]. destruct o as [id c now| |s e]; simpl.
  - now apply colors_valid_update.
  - apply colors_valid_reset.
  - unfold configure_range. destruct ((s <=? 0) || (e <? s)); simpl;
      [exact H | apply colors_valid_init].
Qed.

(** X6. In a store reached from a fresh one by updates with colours of the
    protocol, resets and reconfigurations, the three counts of
    [_counts_locked] add up to the number of entities: every entity is
    counted once. *)
Theorem counts_cover_entities (start end_ : Z) (ops : list store_op) :
  Forall op_color_valid ops ->
  let st := run (TableState.init start end_) ops in
  c_green (_counts_locked st) + c_orange (_counts_locked st) + c_red (_counts_locked st) =
  Z.of_nat (List.length (entity_ids st)).
Proof.
  intros Hops st.
  assert (Hv : colors_valid st) by (apply colors_valid_run; [exact Hops | apply colors_valid_init]).
  assert (Hd : keys_distinct st) by apply keys_distinct_run, keys_distinct_init.
  unfold _counts_locked. cbn [c_green c_orange c_red].
  rewrite counts_of_valid.
  - unfold values, entity_ids, keys. now rewrite !length_map.
  - apply values_Forall; [apply Hd|]. intros k v Hk. now apply (Hv k).
Qed.

Lemma counts_cover_entities_witness :
  let st := run (TableState.init 1 4)
                [op_update 2 "red" 100; op_update 9 "orange" 101; op_update 2 "orange" 102] in
  _counts_locked st = {| c_green := 3; c_orange := 2; c_red := 0 |} /\
  c_green (_counts_locked st) + c_orange (_counts_locked st) + c_red (_counts_locked st) =
  Z.of_nat (List.length (entity_ids st)).
Proof.
  intros st. split; [reflexivity|].
  apply (counts_cover_entities 1 4
           [op_update 2 "red" 100; op_update 9 "orange" 101; op_update 2 "orange" 102]).
  repeat constructor; simpl; tauto.
Defined.

Lemma item_lt_distinct_keys (y x : Z * string) :
  fst y <> fst x -> item_lt y x = (fst y <? fst x).
Proof.
  intros H. unfold item_lt.
  assert ((fst y =? fst x) = false) as -> by now apply Z.eqb_neq.
  now rewrite orb_false_r.
Qed.

Lemma insert_item_sorted x l :
  StronglySorted (fun a b : Z * string => fst a < fst b) l ->
  ~ In (fst x) (map fst l) ->
  StronglySorted (fun a b : Z * string => fst a < fst b) (insert_stable item_lt x l).
Proof.
  induction 1 as [|y l Hs IH Hall]; intros Hx; simpl; [repeat constructor|].
  assert (Hyx : fst y <> fst x) by (intros E; apply Hx; now left).
  rewrite item_lt_distinct_keys by assumption.
  destruct (fst y <? fst x) eqn:E.
  - apply Z.ltb_lt in E. constructor.
    + apply IH. intros H. apply Hx. now right.
    + apply Forall_forall. intros z Hz. apply In_insert_stable in Hz as [->|Hz];
        [exact E|]. rewrite Forall_forall in Hall. now apply Hall.
  - apply Z.ltb_ge in E. constructor; [now constructor|].
    constructor; [lia|]. rewrite Forall_forall in *. intros z Hz.
    specialize (Hall z Hz). lia.
Qed.

Lemma sorted_items_sorted (l : list (Z * string)) :
  NoDup (map fst l) ->
  StronglySorted (fun a b : Z * string => fst a < fst b) (sorted_items l).
Proof.
  unfold sorted_items. induction l as [|x l IH]; simpl; intros H; [constructor|].
  inversion H as [|? ? Hx Hnd]; subst.
  apply insert_item_sorted; [now apply IH|].
  intros Hin. apply Hx. apply in_map_iff in Hin as [z [Hz Hin]].
  apply in_map_iff. exists z. split; [exact Hz|].
  eapply Permutation_in; [apply sort_stable_perm | exact Hin].
Qed.

Lemma StronglySorted_map {A B} (f : A -> B) (R : B -> B -> Prop) l :
  StronglySorted (fun a b => R (f a) (f b)) l -> StronglySorted R (map f l).
Proof.
  induction 1 as [|x l Hs IH Hall]; simpl; constructor; [exact IH|].
  apply Forall_forall. intros y Hy. apply in_map_iff in Hy as [z [<- Hz]].
  rewrite Forall_forall in Hall. now apply Hall.
Qed.

(** X7. The snapshot lists every entity of the store once, with its
    colour, in ascending order of id, wherever the id stands in the
    dictionary. *)
Theorem snapshot_tables_sorted (st : TableState.t) (now : Q) :
  keys_distinct st ->
  let tables := msg_tables (snapshot st now) in
  StronglySorted Z.lt (map te_table tables) /\
  (forall id c, In {| te_table := id; te_color := c |} tables <-> color_of st id = Some c) /\
  List.length tables = List.length (entity_ids st) /\
  msg_range (snapshot st now) = {| r_start := _start st; r_end := _end st |}.
Proof.
  intros [Hd _]. cbn [snapshot _snapshot_locked msg_tables msg_range].
  split; [|split; [|split]].
  - rewrite map_map. cbn [te_table]. apply StronglySorted_map.
    now apply sorted_items_sorted.
  - intros id c. rewrite in_map_iff. unfold color_of. split.
    + intros [[k v] [[= -> ->] Hin]].
      apply In_items_get; [exact Hd|].
      eapply Permutation_in; [apply sort_stable_perm | exact Hin].
    + intros H. exists (id, c). split; [reflexivity|].
      eapply Permutation_in; [apply Permutation_sym, sort_stable_perm|].
      now apply In_items_get.
  - rewrite length_map. unfold sorted_items, entity_ids, keys, items.
    rewrite length_map. apply Permutation_length, sort_stable_perm.
  - reflexivity.
Qed.

Lemma snapshot_tables_sorted_witness :
  let st := run (TableState.init 5 7) [op_update 3 "red" 100; op_update 6 "orange" 101] in
  entity_ids st = [5; 6; 7; 3] /\
  map te_table (msg_tables (snapshot st 200)) = [3; 5; 6; 7] /\
  StronglySorted Z.lt (map te_table (msg_tables (snapshot st 200))).
Proof.
  intros st. split; [reflexivity|]. split; [reflexivity|].
  apply (snapshot_tables_sorted st 200).
  apply keys_distinct_run, keys_distinct_init.
Defined.

(** X8. Every entry of [_red_durations_locked], whatever the limit, is an
    entity that is red now and carries the whole seconds since its
    [redSince]; for a limit that is not negative there are at most [limit]
    entries. *)
Theorem red_durations_are_red (st : TableState.t) (now : Q) (limit : Z) :
  I2 st -> keys_distinct st -> keys_agree st ->
  (forall d, In d (_red_durations_locked st now limit) ->
             color_of st (d_table d) = Some "red" /\
             exists t, redSince st (d_table d) = Some t /\
                       d_seconds d = int_of_float (now - t)) /\
  (0 <= limit ->
   (List.length (_red_durations_locked st now limit) <= Z.to_nat limit)%nat).
Proof.
  intros HI2 [Hdc Hdr] Ha. split.
  - intros d Hd. unfold _red_durations_locked in Hd. apply In_py_slice_to in Hd.
    eapply Permutation_in in Hd; [|apply sort_stable_perm].
    apply In_durations_of in Hd as [t [Hin [_ Hs]]].
    apply In_items_get in Hin; [|exact Hdr].
    assert (R : redSince st (d_table d) = Some t).
    { unfold redSince, red_started_get. now rewrite Hin. }
    split; [|now exists t].
    apply get_Some_In_keys in Hin. rewrite <- Ha in Hin.
    apply In_keys_get in Hin as [c Hc]. unfold color_of. rewrite Hc. f_equal.
    apply (HI2 (d_table d) c Hc). rewrite R. discriminate.
  - intros Hl. unfold _red_durations_locked. rewrite py_slice_to_nonneg by assumption.
    apply firstn_le_length.
Qed.

Lemma red_durations_are_red_witness :
  let st := run (TableState.init 1 4) [op_update 2 "red" 100; op_update 9 "red" 101;
                                       op_update 3 "orange" 102] in
  _red_durations_locked st 130 10 =
    [{| d_table := 2; d_seconds := 30 |}; {| d_table := 9; d_seconds := 29 |}] /\
  color_of st 2 = Some "red" /\ color_of st 9 = Some "red" /\
  (List.length (_red_durations_locked st 130 1) <= 1)%nat.
Proof.
  intros st.
  assert (HI2 : I2 st) by apply I2_run, I2_init.
  assert (Hd : keys_distinct st) by apply keys_distinct_run, keys_distinct_init.
  assert (Ha : keys_agree st) by apply keys_agree_run, keys_agree_init.
  split; [reflexivity|].
  destruct (red_durations_are_red st 130 10 HI2 Hd Ha) as [H _].
  split; [apply (H {| d_table := 2; d_seconds := 30 |}); now left|].
  split; [apply (H {| d_table := 9; d_seconds := 29 |}); right; now left|].
  apply (proj2 (red_durations_are_red st 130 1 HI2 Hd Ha)). lia.
Defined.

(** ** Registering and unregistering observers *)

Lemma existsb_eqb_In (ws : WebSocket) l : existsb (Nat.eqb ws) l = true <-> In ws l.
Proof.
  rewrite existsb_exists. split.
  - intros [x [Hx E]]. apply Nat.eqb_eq in E. now subst.
  - intros H. exists ws. split; [exact H | apply Nat.eqb_refl].
Qed.

Lemma list_remove_In l x :
  In x l ->
  exists l', list_remove l x = Return l' /\
             List.length l = S (List.length l') /\
             (forall y, y <> x -> (In y l' <-> In y l)) /\
             (NoDup l -> l' = filter (fun c => negb (Nat.eqb c x)) l).
Proof.
  induction l as [|y l IH]; [contradiction|]. intros Hin.
  cbn [list_remove filter]. destruct (Nat.eqb y x) eqn:E.
  - apply Nat.eqb_eq in E. subst y. exists l. split; [reflexivity|].
    split; [reflexivity|]. split.
    + intros z Hz. simpl. split; [auto | intros [->|H]; [contradiction | exact H]].
    + intros Hnd. inversion Hnd as [|? ? Hx Hnd']; subst. cbn [negb].
      symmetry. apply forallb_filter_id. apply forallb_forall. intros z Hz.
      apply negb_true_iff, Nat.eqb_neq. intros ->. contradiction.
  - destruct Hin as [->|Hin]; [rewrite Nat.eqb_refl in E; discriminate|].
    destruct (IH Hin) as [l' [-> [Hlen [Hmem Hnd]]]]. exists (y :: l').
    split; [reflexivity|]. split; [simpl; lia|]. split.
    + intros z Hz. simpl. rewrite (Hmem z Hz). tauto.
    + intros Hn. inversion Hn as [|? ? _ Hn']; subst. cbn [negb].
      now rewrite <- (Hnd Hn').
Qed.

(** X9. [disconnect] never raises.  A handle that is not registered (never
    was, or was pruned by a broadcast) leaves the manager as it is; a
    registered one is removed once, the other handles are kept; and
    registering a new handle then unregistering it gives the manager back. *)
Theorem disconnect_spec (self : WebsocketManager.t) (ws : WebSocket) :
  snd (disconnect self ws) = Return tt /\
  (~ In ws (_connections self) -> fst (disconnect self ws) = self) /\
  (In ws (_connections self) ->
   List.length (_connections self) =
     S (List.length (_connections (fst (disconnect self ws)))) /\
   forall other, other <> ws ->
     (In other (_connections (fst (disconnect self ws))) <-> In other (_connections self))) /\
  (NoDup (_connections self) -> ~ In ws (_connections (fst (disconnect self ws)))) /\
  (~ In ws (_connections self) -> fst (disconnect (connect self ws) ws) = self).
Proof.
  unfold disconnect.
  destruct (existsb (Nat.eqb ws) (_connections self)) eqn:E.
  - apply existsb_eqb_In in E.
    destruct (list_remove_In _ _ E) as [l' [R [Hlen [Hmem Hnd]]]]. rewrite R.
    cbn [fst snd _connections].
    split; [reflexivity|]. split; [intros H; contradiction|].
    split; [intros _; split; [exact Hlen | exact Hmem]|].
    split; [|intros H; contradiction].
    intros Hn. rewrite (Hnd Hn). intros Hin. apply filter_In in Hin as [_ Hin].
    now rewrite Nat.eqb_refl in Hin.
  - assert (Hout : ~ In ws (_connections self)).
    { intros H. apply existsb_eqb_In in H. congruence. }
    cbn [fst snd].
    split; [reflexivity|]. split; [reflexivity|].
    split; [intros H; contradiction|]. split; [intros _; exact Hout|].
    intros _. unfold connect. cbn [_connections].
    assert (Hin : In ws (_connections self ++ [ws])) by (apply in_or_app; right; now left).
    apply existsb_eqb_In in Hin. rewrite Hin.
    assert (R : list_remove (_connections self ++ [ws]) ws = Return (_connections self)).
    { clear - Hout. induction (_connections self) as [|y l IH]; simpl.
      - now rewrite Nat.eqb_refl.
      - destruct (Nat.eqb y ws) eqn:E.
        + apply Nat.eqb_eq in E. subst y. exfalso. apply Hout. now left.
        + rewrite IH; [reflexivity|]. intros H. apply Hout. now right. }
    rewrite R. now destruct self.
Qed.

Lemma disconnect_spec_witness :
  let self := {| _connections := [4; 7; 9]%nat |} in
  fst (disconnect self 5%nat) = self /\
  _connections (fst (disconnect self 7%nat)) = [4; 9]%nat /\
  ~ In 7%nat (_connections (fst (disconnect self 7%nat))) /\
  fst (disconnect (connect self 5%nat) 5%nat) = self.
Proof.
  intros self.
  assert (H5 : ~ In 5%nat (_connections self)) by (simpl; intuition discriminate).
  assert (Hn : NoDup (_connections self)).
  { repeat constructor; simpl; intuition discriminate. }
  destruct (disconnect_spec self 5%nat) as [_ [A [_ [_ D]]]].
  destruct (disconnect_spec self 7%nat) as [_ [_ [_ [C _]]]].
  split; [exact (A H5)|]. split; [reflexivity|]. split; [exact (C Hn) | exact (D H5)].
Defined.

(** X10. A handle whose send fails during a broadcast is gone from the
    manager afterwards, and the [disconnect] that its endpoint still issues
    ends normally and changes nothing. *)
Theorem disconnect_after_prune (send_json : WebSocket -> Message -> exc unit)
        (self : WebsocketManager.t) (message : Message) (ws : WebSocket) :
  send_ok send_json message ws = false ->
  let self' := fst (fst (broadcast send_json self message)) in
  ~ In ws (_connections self') /\
  disconnect self' ws = (self', Return tt).
Proof.
  intros Hfail. rewrite broadcast_spec. cbn [fst].
  assert (Hout : ~ In ws (filter (send_ok send_json message) (_connections self))).
  { intros H. apply filter_In in H as [_ H]. congruence. }
  split; [exact Hout|].
  unfold disconnect. cbn [_connections].
  destruct (existsb (Nat.eqb ws) (filter (send_ok send_json message) (_connections self))) eqn:E;
    [|reflexivity].
  apply existsb_eqb_In in E. contradiction.
Qed.

Lemma disconnect_after_prune_witness :
  let send_json := fun (c : WebSocket) (_ : Message) =>
                     if Nat.eqb c 2 then Raise (RuntimeError "connection closed")
                     else Return tt in
  let message := snapshot (TableState.init 1 2) 100 in
  let self' := fst (fst (broadcast send_json {| _connections := [1; 2; 3]%nat |} message)) in
  disconnect self' 2%nat = (self', Return tt).
Proof.
  intros send_json message self'.
  apply (disconnect_after_prune send_json {| _connections := [1; 2; 3]%nat |} message 2%nat).
  reflexivity.
Defined.

(** ** Outbound commands and what comes back *)

(** X11. [reset_all] of the receiver does what [send_teacher_command(-1,
    "green")] does: the same line [T,-1,0] on an open connection, the same
    [RuntimeError] without one. *)
Theorem reset_all_is_green_to_all (self : SerialReceiver.t) :
  SerialReceiver.reset_all self = send_teacher_command self (-1) "green" /\
  (not_connected self = true ->
   SerialReceiver.reset_all self =
     (self, Raise (RuntimeError "Serial link is not connected."))) /\
  (forall connection,
      _connection self = Some connection -> is_open connection = true ->
      SerialReceiver.reset_all self =
        (with_connection self (Some (write connection ("T,-1,0" ++ LF)%string)), Return tt)).
Proof.
  split; [reflexivity|]. unfold SerialReceiver.reset_all, write_locked. split.
  - intros H. now rewrite H.
  - intros connection Hc Ho.
    assert (N : not_connected self = false).
    { unfold not_connected. now rewrite Hc, Ho. }
    now rewrite N, Hc.
Qed.

Lemma reset_all_is_green_to_all_witness :
  let port := {| is_open := true; written := ["T,4,2" ++ LF]%string |} in
  let self := {| _state := TableState.init 1 3; _loop := None; _connection := Some port;
                 _configured_port := None; _active_port := Some "COM5" |} in
  SerialReceiver.reset_all self =
    (with_connection self
       (Some {| is_open := true;
                written := ["T,4,2" ++ LF; "T,-1,0" ++ LF]%string |}), Return tt).
Proof.
  intros port self.
  exact (proj2 (proj2 (reset_all_is_green_to_all self)) port eq_refl eq_refl).
Defined.

Lemma string_app_assoc (a b c : string) : ((a ++ b) ++ c = a ++ (b ++ c))%string.
Proof. induction a as [|x a IH]; simpl; [reflexivity | now rewrite IH]. Qed.

Lemma command_line_no_space table color_id :
  string_forall not_space ("T," ++ str_of_int table ++ "," ++ str_of_int color_id)%string = true.
Proof.
  change ("T," ++ str_of_int table ++ "," ++ str_of_int color_id)%string
    with (String "T" (String "," (str_of_int table ++ String "," (str_of_int color_id)))).
  cbn [string_forall]. rewrite string_forall_app. cbn [string_forall].
  rewrite !str_of_int_forall; try reflexivity; try (intros _; reflexivity);
    apply plain_digit_not_space.
Qed.

Lemma command_line_fields table color_id :
  py_split "," ("T," ++ str_of_int table ++ "," ++ str_of_int color_id)%string =
  ["T"; str_of_int table; str_of_int color_id].
Proof.
  assert (H : forall z, string_forall (not_char ",") (str_of_int z) = true).
  { intros z. apply str_of_int_forall; [|intros _; reflexivity].
    intros c. apply plain_digit_not_char. auto. }
  change ("T," ++ str_of_int table ++ "," ++ str_of_int color_id)%string
    with ("T" ++ String "," (str_of_int table ++ String "," (str_of_int color_id)))%string.
  rewrite py_split_app by reflexivity.
  rewrite py_split_app by apply H.
  now rewrite py_split_plain by apply H.
Qed.

(** X12. The line [send_teacher_command] writes is read back by the read
    loop as the command it encodes: stripped of its line feed it is a line
    that [_parse_message] turns into the same table and colour.  The table
    number has no more digits than [int] takes, as every number that
    reaches [send_teacher_command] through the request validation. *)
Theorem command_round_trip (self : SerialReceiver.t) (connection : Serial)
        (table : Z) (color : string) :
  In color VALID_COLORS ->
  _connection self = Some connection -> is_open connection = true ->
  (decimal_digits table <= INT_MAX_STR_DIGITS)%N ->
  exists raw,
    send_teacher_command self table color =
      (with_connection self (Some (write connection (raw ++ LF)%string)), Return tt) /\
    py_strip (raw ++ LF) = raw /\
    _parse_message raw = Return (Some (table, color)).
Proof.
  intros Hcolor Hconn Hopen Hdigits.
  destruct (color_name_to_id color Hcolor) as [color_id [Hid Hcode]].
  exists ("T," ++ str_of_int table ++ "," ++ str_of_int color_id)%string.
  split; [|split].
  - unfold send_teacher_command, write_locked. rewrite Hid.
    assert (N : not_connected self = false).
    { unfold not_connected. now rewrite Hconn, Hopen. }
    rewrite N, Hconn. do 3 f_equal.
    cbn [String.append]. now rewrite !string_app_assoc.
  - unfold py_strip. rewrite lstrip_of_start by (now apply not_space_start).
    rewrite rstrip_app_blank by reflexivity.
    apply rstrip_id, command_line_no_space.
  - unfold _parse_message. rewrite command_line_fields.
    change ("T" =? "RT")%string with false. cbn iota.
    rewrite (py_int_str_of_int_small table Hdigits). cbn [bind].
    assert (Hc : py_int (str_of_int color_id) = Return color_id).
    { simpl in Hcolor. destruct Hcolor as [<-|[<-|[<-|[]]]];
        injection Hid as <-; reflexivity. }
    rewrite Hc. cbn [bind try_except_ValueError]. rewrite Hcode.
    simpl in Hcolor. destruct Hcolor as [<-|[<-|[<-|[]]]]; reflexivity.
Qed.

Lemma command_round_trip_witness :
  let port := {| is_open := true; written := [] |} in
  let self := {| _state := TableState.init 1 3; _loop := None; _connection := Some port;
                 _configured_port := None; _active_port := Some "COM5" |} in
  exists raw,
    send_teacher_command self (-1) "orange" =
      (with_connection self (Some (write port (raw ++ LF)%string)), Return tt) /\
    py_strip (raw ++ LF) = raw /\
    _parse_message raw = Return (Some (-1, "orange")).
Proof.
  intros port self.
  apply (command_round_trip self port (-1) "orange");
    [simpl; tauto | reflexivity | reflexivity | vm_compute; discriminate].
Defined.

(** X13. [_parse_message] yields a pair only for a line of three fields
    whose role is not ["RT"], whose two other fields [int] accepts and
    whose colour index is 0, 1 or 2; the colour it yields is the name of
    that index, one of green, orange and red. *)
Theorem parse_message_accepts_only (raw : string) (table : Z) (color : string) :
  _parse_message raw = Return (Some (table, color)) ->
  exists role table_str color_str color_index,
    py_split "," raw = [role; table_str; color_str] /\
    role <> "RT" /\
    py_int table_str = Return table /\
    py_int color_str = Return color_index /\
    0 <= color_index <= 2 /\
    get COLOR_CODE color_index = Some color /\
    In color VALID_COLORS.
Proof.
  unfold _parse_message.
  destruct (py_split "," raw) as [|role [|ts [|cs [|x l]]]]; try discriminate.
  destruct (role =? "RT")%string eqn:Er; [discriminate|].
  apply String.eqb_neq in Er.
  destruct (py_int ts) as [t|e] eqn:Et; cbn [bind try_except_ValueError].
  - destruct (py_int cs) as [ci|e] eqn:Ec; cbn [bind try_except_ValueError].
    + destruct (get COLOR_CODE ci) as [name|] eqn:G; [|discriminate].
      destruct (negb (truthy_str (Some name))); [discriminate|].
      intros [= <- <-]. exists role, ts, cs, ci.
      assert (R : 0 <= ci <= 2).
      { destruct (Z_le_dec 0 ci) as [H0|H0]; [destruct (Z_le_dec ci 2) as [H2|H2]|];
          [lia | |]; rewrite color_code_out_of_range in G by lia; discriminate. }
      do 5 (split; [assumption || reflexivity|]). split; [exact G|].
      destruct (color_code_in_range ci R) as [name' [G' [_ Hin]]].
      rewrite G in G'. now injection G' as <-.
    + destruct (is_ValueError e); discriminate.
  - destruct (is_ValueError e); discriminate.
Qed.

Lemma parse_message_accepts_only_witness :
  exists role table_str color_str color_index,
    py_split "," "S,12,1" = [role; table_str; color_str] /\
    role <> "RT" /\
    py_int table_str = Return 12 /\
    py_int color_str = Return color_index /\
    0 <= color_index <= 2 /\
    get COLOR_CODE color_index = Some "orange" /\
    In "orange" VALID_COLORS.
Proof. apply (parse_message_accepts_only "S,12,1" 12 "orange"). reflexivity. Defined.

(** ** Choosing the port *)

Lemma string_app_nil_r (s : string) : (s ++ EmptyString)%string = s.
Proof. induction s as [|c s IH]; simpl; [reflexivity | now rewrite IH]. Qed.

Lemma rstrip_prefix s : exists t, s = (rstrip s ++ t)%string.
Proof.
  induction s as [|a s [t IH]]; cbn [rstrip]; [now exists EmptyString|]. cbv zeta.
  destruct (is_space_char (String a (rstrip s))).
  - now exists (String a s).
  - exists t. cbn [String.append]. now rewrite <- IH.
Qed.

Lemma starts_with_space_app p t :
  starts_with_space p = true -> starts_with_space (p ++ t) = true.
Proof.
  destruct p as [|a [|b [|c p]]]; cbn [starts_with_space String.append];
    [discriminate|..].
  - rewrite orb_false_r. now intros ->.
  - rewrite orb_false_r. intros H. apply orb_true_iff in H as [-> | ->]; [reflexivity|].
    apply orb_true_r.
  - auto.
Qed.

Lemma rstrip_start s :
  starts_with_space s = false -> starts_with_space (rstrip s) = false.
Proof.
  intros H. destruct (starts_with_space (rstrip s)) eqn:E; [|reflexivity].
  destruct (rstrip_prefix s) as [t Ht].
  apply (starts_with_space_app _ t) in E. rewrite <- Ht in E. congruence.
Qed.

Lemma rstrip_idem s : rstrip (rstrip s) = rstrip s.
Proof.
  induction s as [|a s IH]; cbn [rstrip]; [reflexivity|]. cbv zeta.
  destruct (is_space_char (String a (rstrip s))) eqn:E; [reflexivity|].
  cbn [rstrip]. cbv zeta. now rewrite IH, E.
Qed.

Lemma py_strip_idem s : py_strip (py_strip s) = py_strip s.
Proof.
  unfold py_strip.
  rewrite (lstrip_of_start (rstrip (lstrip s))) by apply rstrip_start, lstrip_start.
  apply rstrip_idem.
Qed.

Lemma normalize_port_idem port :
  normalize_port (normalize_port port) = normalize_port port.
Proof.
  unfold normalize_port.
  destruct (py_strip match port with Some p => p | None => EmptyString end) as [|c s] eqn:E;
    [reflexivity|].
  rewrite <- E, py_strip_idem, E. reflexivity.
Qed.

Lemma lstrip_space w s : In w WHITESPACE -> lstrip (w ++ s) = lstrip s.
Proof. intros H. each_whitespace H; reflexivity. Qed.

Lemma rstrip_space w : In w WHITESPACE -> rstrip w = EmptyString.
Proof. intros H. each_whitespace H; reflexivity. Qed.

Lemma lstrip_blank pre s : blank pre -> lstrip (pre ++ s) = lstrip s.
Proof.
  induction 1 as [|w pre Hw _ IH]; [reflexivity|].
  now rewrite string_app_assoc, lstrip_space.
Qed.

Lemma rstrip_blank post : blank post -> rstrip post = EmptyString.
Proof.
  induction 1 as [|w post Hw _ IH]; [reflexivity|].
  rewrite rstrip_app_blank by exact IH. now apply rstrip_space.
Qed.

Lemma py_strip_blank p : blank p -> py_strip p = EmptyString.
Proof.
  intros H. unfold py_strip.
  rewrite <- (string_app_nil_r p), (lstrip_blank p EmptyString H). reflexivity.
Qed.

Lemma not_space_last_2 a z : not_space z = true -> is_space2 a z = false.
Proof.
  intros H. unfold is_space2.
  rewrite (not_space_lead z 133 H), (not_space_lead z 160 H) by lia.
  apply andb_false_r.
Qed.

Lemma not_space_last_3 a b z : not_space z = true -> is_space3 a b z = false.
Proof.
  intros H. unfold is_space3.
  rewrite (not_space_lead z 128 H), (not_space_lead z 168 H), (not_space_lead z 169 H),
    (not_space_lead z 175 H), (not_space_lead z 159 H) by lia.
  assert ((128 <=? byte z)%N = false) as ->.
  { apply not_space_ascii, N.ltb_lt in H. apply N.leb_gt. lia. }
  cbn [andb orb]. now rewrite !andb_false_r.
Qed.

Lemma rstrip_last s : forall a,
  not_space (last_char a s) = true -> rstrip (String a s) = String a s.
Proof.
  induction s as [|b s IH]; intros a H.
  - cbn [rstrip last_char] in *. cbv zeta. cbn [is_space_char].
    now rewrite (not_space_1 a H).
  - cbn [last_char] in H. change (rstrip (String a (String b s)))
      with (let r := String a (rstrip (String b s)) in
            if is_space_char r then EmptyString else r).
    cbv zeta. rewrite (IH b H).
    destruct s as [|c [|d s]]; cbn [is_space_char last_char] in *.
    + now rewrite (not_space_last_2 a b H).
    + now rewrite (not_space_last_3 a b c H).
    + reflexivity.
Qed.

Lemma py_strip_trimmed pre core post :
  blank pre -> blank post -> trimmed core = true ->
  py_strip (pre ++ core ++ post) = core.
Proof.
  intros Hpre Hpost Hcore. unfold py_strip. rewrite (lstrip_blank _ _ Hpre).
  destruct core as [|a core]; [discriminate|].
  cbn [trimmed] in Hcore. apply andb_true_iff in Hcore as [Ha Hz].
  rewrite lstrip_of_start by (cbn [String.append]; now apply not_space_start).
  rewrite rstrip_app_blank by now apply rstrip_blank.
  now apply rstrip_last.
Qed.

(** X14. [set_port] tears the link down and records the override in
    normal form.  The store and the event loop are untouched; no connection
    and no active port are left, so that a command issued before the worker
    reconnects raises the [RuntimeError]; the configured port is never an
    empty string and is left as it is by [strip]: none for no text and for
    white space only, that of Unicode included, and a text that starts and
    ends with visible ASCII once the white space around it is gone. *)
Theorem set_port_spec (self : SerialReceiver.t) (port : option string) :
  let self' := set_port self port in
  _state self' = _state self /\ _loop self' = _loop self /\
  _connection self' = None /\ _active_port self' = None /\
  (forall table color, In color VALID_COLORS ->
     send_teacher_command self' table color =
       (self', Raise (RuntimeError "Serial link is not connected."))) /\
  (forall comports, connected_port (serial_status self' comports) = None) /\
  (forall p, _configured_port self' = Some p -> p <> EmptyString /\ py_strip p = p) /\
  (port = None -> _configured_port self' = None) /\
  (forall p, port = Some p -> blank p -> _configured_port self' = None) /\
  (forall pre core post,
     port = Some (pre ++ core ++ post)%string ->
     blank pre -> blank post -> trimmed core = true ->
     _configured_port self' = Some core).
Proof.
  cbn [set_port _force_reconnect _state _loop _connection _active_port _configured_port
       serial_status connected_port].
  do 4 (split; [reflexivity|]). split; [|split; [reflexivity|]].
  - intros table color Hc.
    destruct (color_name_to_id color Hc) as [i [Hi _]].
    unfold send_teacher_command. now rewrite Hi.
  - split; [|split; [|split]].
    + intros p. unfold normalize_port.
      destruct (py_strip _) as [|c s] eqn:E; [discriminate|].
      intros [= <-]. split; [discriminate|]. rewrite <- E. apply py_strip_idem.
    + intros ->. reflexivity.
    + intros p -> Hp. unfold normalize_port. now rewrite (py_strip_blank p Hp).
    + intros pre core post -> Hpre Hpost Hcore. unfold normalize_port.
      rewrite (py_strip_trimmed pre core post Hpre Hpost Hcore).
      destruct core; [discriminate | reflexivity].
Qed.

Lemma set_port_spec_witness :
  let port := {| is_open := true; written := [] |} in
  let self := {| _state := TableState.init 1 3; _loop := None; _connection := Some port;
                 _configured_port := None; _active_port := Some "COM5" |} in
  let nbsp := String (ascii_of_nat 194) (String (ascii_of_nat 160) EmptyString) in
  let em_space :=
    String (ascii_of_nat 226) (String (ascii_of_nat 128) (String (ascii_of_nat 131) EmptyString)) in
  _configured_port (set_port self (Some (nbsp ++ "COM7" ++ " ")%string)) = Some "COM7" /\
  _configured_port (set_port self (Some (em_space ++ nbsp)%string)) = None /\
  send_teacher_command (set_port self (Some "COM7")) 2 "red" =
    (set_port self (Some "COM7"), Raise (RuntimeError "Serial link is not connected.")).
Proof.
  intros port self nbsp em_space.
  assert (Hn : In nbsp WHITESPACE) by (vm_compute; tauto).
  assert (He : In em_space WHITESPACE) by (vm_compute; tauto).
  assert (Hs : In " "%string WHITESPACE) by (vm_compute; tauto).
  split; [|split].
  - destruct (set_port_spec self (Some (nbsp ++ "COM7" ++ " ")%string))
      as [_ [_ [_ [_ [_ [_ [_ [_ [_ H]]]]]]]]].
    apply (H nbsp "COM7"%string " "%string); [reflexivity | | | reflexivity].
    + exact (blank_space nbsp EmptyString Hn blank_empty).
    + exact (blank_space " " EmptyString Hs blank_empty).
  - destruct (set_port_spec self (Some (em_space ++ nbsp)%string))
      as [_ [_ [_ [_ [_ [_ [_ [_ [H _]]]]]]]]].
    apply (H (em_space ++ nbsp)%string); [reflexivity|].
    exact (blank_space em_space nbsp He (blank_space nbsp EmptyString Hn blank_empty)).
  - destruct (set_port_spec self (Some "COM7")) as [_ [_ [_ [_ [H _]]]]].
    apply H. simpl. tauto.
Defined.

Lemma prefix_app a : forall b,
  String.prefix a b = true <-> exists after, b = (a ++ after)%string.
Proof.
  induction a as [|x a IH]; intros b.
  - split; [now exists b | now destruct b].
  - destruct b as [|y b]; cbn [String.prefix String.append];
      [split; [discriminate | intros [after H]; discriminate H]|].
    destruct (ascii_dec x y) as [->|Hxy].
    + rewrite IH. split; intros [after H]; exists after; congruence.
    + split; [discriminate|]. intros [after H]. congruence.
Qed.

Lemma py_contains_occurs needle hay :
  py_contains needle hay = true <-> occurs_in needle hay.
Proof.
  split.
  - induction hay as [|c hay IH]; cbn [py_contains]; rewrite orb_true_iff.
    + intros [H|H]; [|discriminate]. apply prefix_app in H as [after H].
      now exists EmptyString, after.
    + intros [H|H].
      * apply prefix_app in H as [after H]. now exists EmptyString, after.
      * destruct (IH H) as [before [after E]]. exists (String c before), after.
        cbn [String.append]. now rewrite E.
  - intros [before [after ->]]. induction before as [|c before IH].
    + assert (P : String.prefix needle (needle ++ after) = true)
        by (apply prefix_app; now exists after).
      cbn [String.append]. destruct (needle ++ after)%string; cbn [py_contains];
        now rewrite P.
    + cbn [String.append py_contains]. rewrite IH. apply orb_true_r.
Qed.

Lemma lower_char_small c : lower_char c = small_letter c.
Proof. destruct c as [[] [] [] [] [] [] [] []]; reflexivity. Qed.

Lemma py_lower_small s : py_lower s = small_letters s.
Proof.
  induction s as [|c s IH]; cbn [py_lower small_letters]; [reflexivity|].
  now rewrite lower_char_small, IH.
Qed.

Lemma occurs_in_empty word : word <> EmptyString -> ~ occurs_in word EmptyString.
Proof.
  intros Hw [before [after H]]. destruct before; [|discriminate H].
  destruct word; [contradiction | discriminate H].
Qed.

(** The test of [_resolve_port] holds of the ports whose description has
    one of the three words in it, in letters of either case. *)
Lemma looks_like_microbit_describes port :
  looks_like_microbit port = true <-> describes_microbit port.
Proof.
  unfold looks_like_microbit, describes_microbit, MICROBIT_WORDS.
  destruct (description port) as [[|c text]|]; cbn [truthy_str].
  - split; [discriminate|]. intros [text [word [[= <-] [Hw Ho]]]].
    apply occurs_in_empty in Ho; [destruct Ho|].
    destruct Hw as [<-|[<-|[<-|[]]]]; discriminate.
  - rewrite !orb_true_iff, !py_contains_occurs, !py_lower_small. split.
    + intros [[H|H]|H]; eexists; eexists; (split; [reflexivity|]);
        (split; [|exact H]); simpl; tauto.
    + intros [text' [word [[= <-] [Hw Ho]]]].
      destruct Hw as [<-|[<-|[<-|[]]]]; tauto.
  - split; [discriminate|]. intros [text [word [[=] _]]].
Qed.

Lemma first_microbit_spec comports :
  match first_microbit comports with
  | Some dev =>
      exists before port after,
        comports = (before ++ port :: after)%list /\ device port = dev /\
        describes_microbit port /\
        Forall (fun other => ~ describes_microbit other) before
  | None => Forall (fun other => ~ describes_microbit other) comports
  end.
Proof.
  induction comports as [|p rest IH]; simpl; [constructor|].
  destruct (looks_like_microbit p) eqn:E.
  - exists [], p, rest. repeat split; [|constructor].
    now apply looks_like_microbit_describes.
  - assert (Hp : ~ describes_microbit p).
    { intros H. apply looks_like_microbit_describes in H. congruence. }
    destruct (first_microbit rest) as [dev|].
    + destruct IH as [before [port [after [-> [Hd [Hm Hb]]]]]].
      exists (p :: before), port, after. repeat split; try assumption.
      now constructor.
    + now constructor.
Qed.

(** X15. [_resolve_port] returns the configured port whenever one is set,
    listed or not.  Without one it returns the device of the first listed
    port whose description has [microbit], [mbed] or [cdc] somewhere in it,
    in letters of either case, and nothing when no description has. *)
Theorem resolve_port_spec (self : SerialReceiver.t) (comports : list ListPortInfo) :
  (forall p, _configured_port self = Some p -> p <> EmptyString ->
             _resolve_port self comports = Some p) /\
  (_configured_port self = None \/ _configured_port self = Some EmptyString ->
   match _resolve_port self comports with
   | Some dev =>
       exists before port after,
         comports = (before ++ port :: after)%list /\ device port = dev /\
         describes_microbit port /\
         Forall (fun other => ~ describes_microbit other) before
   | None => Forall (fun other => ~ describes_microbit other) comports
   end).
Proof.
  split.
  - intros p Hp Hne. unfold _resolve_port. rewrite Hp.
    destruct p; [contradiction | reflexivity].
  - intros H. unfold _resolve_port.
    assert (T : truthy_str (_configured_port self) = false)
      by (destruct H as [-> | ->]; reflexivity).
    rewrite T. apply first_microbit_spec.
Qed.

Lemma resolve_port_spec_witness :
  let auto := {| _state := TableState.init 1 3; _loop := None; _connection := None;
                 _configured_port := None; _active_port := None |} in
  let fixed := {| _state := TableState.init 1 3; _loop := None; _connection := None;
                  _configured_port := Some "COM9"; _active_port := None |} in
  let comports := [ {| device := "COM1"; description := Some "Communications Port" |};
                    {| device := "COM4"; description := Some "USB CDC device" |};
                    {| device := "COM3"; description := Some "mbed Serial Port" |};
                    {| device := "COM6"; description := None |} ] in
  _resolve_port fixed comports = Some "COM9" /\
  _resolve_port auto comports = Some "COM4" /\
  _resolve_port auto [ {| device := "/dev/ttyACM0";
                          description := Some "BBC micro:bit CMSIS-DAP" |} ] = None.
Proof.
  intros auto fixed comports. split; [|split; reflexivity].
  apply (proj1 (resolve_port_spec fixed comports) "COM9"); [reflexivity | discriminate].
Defined.

(** ** The read loop as a run of the store *)

Lemma accepted_updates_line raw now now' rest :
  accepted_updates (line raw now now' :: rest) =
  (accepted_updates [line raw now now'] ++ accepted_updates rest)%list.
Proof.
  cbn [accepted_updates]. destruct raw as [|a raw']; [reflexivity|].
  destruct (_parse_message (String a raw')) as [[[table color]|]|e];
    now rewrite ?app_nil_r.
Qed.

Lemma read_loop_body_cases self raw now now' :
  (accepted_updates [line raw now now'] = [] /\
   _read_loop_body self raw now now' = (self, Return tt)) \/
  (exists table color,
      accepted_updates [line raw now now'] = [op_update table color now] /\
      _read_loop_body self raw now now' =
        (schedule_broadcast
           {| _state := update_table_store (_state self) table color now;
              _loop := _loop self;
              _connection := _connection self;
              _configured_port := _configured_port self;
              _active_port := _active_port self |}
           (snd (update_table (_state self) table color now now')),
         Return tt)).
Proof.
  unfold _read_loop_body. cbn [accepted_updates].
  destruct raw as [|a raw']; [now left|].
  destruct (parse_message_returns (String a raw')) as [[[table color]|] ->];
    [|now left].
  right. exists table, color. split; reflexivity.
Qed.

Lemma read_loop_run_from (turns : list turn) : forall self : SerialReceiver.t,
  let self' := fst (_read_loop self turns) in
  snd (_read_loop self turns) = Return tt /\
  _state self' = run (_state self) (accepted_updates turns) /\
  _connection self' = _connection self /\
  _configured_port self' = _configured_port self /\
  _active_port self' = _active_port self /\
  match _loop self with
  | None => _loop self' = None
  | Some queue =>
      exists payloads,
        _loop self' = Some (queue ++ payloads)%list /\
        List.length payloads = List.length (accepted_updates turns)
  end /\
  (I2 (_state self) -> I2 (_state self')).
Proof.
  assert (B : forall self : SerialReceiver.t,
             @Return unit tt = Return tt /\
             _state self = run (_state self) [] /\
             _connection self = _connection self /\
             _configured_port self = _configured_port self /\
             _active_port self = _active_port self /\
             match _loop self with
             | None => _loop self = None
             | Some queue => exists payloads,
                 _loop self = Some (queue ++ payloads)%list /\
                 List.length payloads = List.length (@nil store_op)
             end /\
             (I2 (_state self) -> I2 (_state self))).
  { intros self. do 5 (split; [reflexivity|]). split; [|auto].
    destruct (_loop self) as [q|]; [|reflexivity].
    exists []. now rewrite app_nil_r. }
  induction turns as [|[raw now now'| |] turns IH]; intros self;
    [exact (B self) | | exact (B self) | exact (B self)].
  cbn zeta. rewrite accepted_updates_line. unfold run. rewrite fold_left_app.
  fold (run (_state self) (accepted_updates [line raw now now'])).
  cbn [_read_loop].
  destruct (read_loop_body_cases self raw now now') as [[-> ->]|[table [color [-> ->]]]].
  - cbn [run fold_left app]. apply IH.
  - set (upd := snd (update_table (_state self) table color now now')).
    set (s1 := schedule_broadcast
                 {| _state := update_table_store (_state self) table color now;
                    _loop := _loop self;
                    _connection := _connection self;
                    _configured_port := _configured_port self;
                    _active_port := _active_port self |} upd).
    assert (Hs : _state s1 = update_table_store (_state self) table color now)
      by (unfold s1; now rewrite schedule_broadcast_state).
    assert (Hc : _connection s1 = _connection self)
      by (unfold s1, schedule_broadcast; now destruct (_loop self)).
    assert (Hp : _configured_port s1 = _configured_port self)
      by (unfold s1, schedule_broadcast; now destruct (_loop self)).
    assert (Ha : _active_port s1 = _active_port self)
      by (unfold s1, schedule_broadcast; now destruct (_loop self)).
    assert (Hl : _loop s1 = match _loop self with
                            | Some queue => Some (queue ++ [upd])%list
                            | None => None
                            end)
      by (unfold s1, schedule_broadcast; now destruct (_loop self)).
    destruct (IH s1) as [H1 [H2 [H3 [H4 [H5 [H6 H7]]]]]].
    cbn [run fold_left app apply_op]. fold (run (update_table_store (_state self) table color now)
                                                (accepted_updates turns)).
    rewrite Hs in H2, H7. rewrite Hc in H3. rewrite Hp in H4. rewrite Ha in H5.
    rewrite Hl in H6.
    do 5 (split; [assumption|]). split.
    + destruct (_loop self) as [queue|]; [|exact H6].
      destruct H6 as [payloads [E Hlen]]. exists (upd :: payloads).
      split; [rewrite E, <- app_assoc; reflexivity|].
      cbn [List.length app]. now rewrite Hlen.
    + intros HI2. apply H7. now apply I2_update.
Qed.

(** X16. The read loop applies to the store exactly the updates of the
    lines it accepts, in order, up to the first failed read or stop, and
    nothing else; with an event loop bound it schedules one broadcast per
    accepted line, without one it schedules none.  It ends normally and
    leaves the connection and the ports alone; an invariant of the store
    such as I2 therefore survives any traffic. *)
Theorem read_loop_applies_accepted (self : SerialReceiver.t) (turns : list turn) :
  let self' := fst (_read_loop self turns) in
  snd (_read_loop self turns) = Return tt /\
  _state self' = run (_state self) (accepted_updates turns) /\
  _connection self' = _connection self /\
  _configured_port self' = _configured_port self /\
  _active_port self' = _active_port self /\
  (_loop self = None -> _loop self' = None) /\
  (forall queue, _loop self = Some queue ->
     exists payloads,
       _loop self' = Some (queue ++ payloads)%list /\
       List.length payloads = List.length (accepted_updates turns)) /\
  (I2 (_state self) -> I2 (_state self')).
Proof.
  cbn zeta.
  destruct (read_loop_run_from turns self) as [_ [H2 [H3 [H4 [H5 [H6 _]]]]]].
  split; [apply read_loop_returns|]. split; [exact H2|].
  do 3 (split; [assumption|]). split; [|split].
  - intros L. now rewrite L in H6.
  - intros queue L. now rewrite L in H6.
  - intros HI2. rewrite H2. now apply I2_run.
Qed.


Lemma read_loop_applies_accepted_witness :
  let self := {| _state := TableState.init 1 3; _loop := Some [];
                 _connection := None; _configured_port := None;
                 _active_port := None |} in
  let turns := [line "S,2,2" 100 100; line "RT,3,2" 101 101; line "junk" 102 102;
                line "T,9,1" 103 103; read_fails; line "S,1,2" 104 104] in
  accepted_updates turns = [op_update 2 "red" 100; op_update 9 "orange" 103] /\
  _state (fst (_read_loop self turns)) =
    run (TableState.init 1 3) [op_update 2 "red" 100; op_update 9 "orange" 103] /\
  I2 (_state (fst (_read_loop self turns))).
Proof.
  intros self turns. split; [reflexivity|].
  destruct (read_loop_applies_accepted self turns) as [_ [H [_ [_ [_ [_ [_ HI2]]]]]]].
  split; [exact H|]. apply HI2. apply I2_init.
Defined.

(** X17. Whatever a turn of the worker meets (no port to use, a port that
    cannot be opened, a connection that is read until it fails), it ends
    normally; once a port was tried no connection and no active port are
    left, and the store holds the updates of the lines accepted meanwhile.
    Without a port the turn changes nothing. *)
Theorem worker_turn_spec (self : SerialReceiver.t) (comports : list ListPortInfo)
        (outcome : open_outcome) :
  let self' := fst (_worker_turn self comports outcome) in
  snd (_worker_turn self comports outcome) = Return tt /\
  (_resolve_port self comports = None -> self' = self) /\
  (forall port, _resolve_port self comports = Some port -> port <> EmptyString ->
     _connection self' = None /\ _active_port self' = None /\
     _configured_port self' = _configured_port self /\
     _state self' =
       run (_state self)
           match outcome with
           | opened turns => accepted_updates turns
           | open_fails => []
           end).
Proof.
  unfold _worker_turn.
  destruct (_resolve_port self comports) as [port|];
    [|cbn [fst snd]; split; [reflexivity|]; split; [reflexivity | discriminate]].
  destruct port as [|a port]; cbn [truthy_str negb fst snd].
  - split; [reflexivity|]. split; [discriminate|]. intros p [= <-] H. contradiction.
  - destruct outcome as [|turns].
    + cbn [fst snd]. split; [reflexivity|]. split; [discriminate|].
      intros p _ _. repeat split.
    + pose proof (read_loop_run_from turns
                    {| _state := _state self;
                       _loop := _loop self;
                       _connection := Some {| is_open := true; written := [] |};
                       _configured_port := _configured_port self;
                       _active_port := Some (String a port) |}) as H.
      cbn zeta in H. destruct (_read_loop _ turns) as [after r].
      cbn [fst snd _state _configured_port] in *.
      destruct H as [H1 [H2 [_ [H4 _]]]].
      split; [exact H1|]. split; [discriminate|].
      intros p _ _. cbn [_connection _active_port _configured_port _state].
      repeat split; assumption.
Qed.

Lemma worker_turn_spec_witness :
  let self := {| _state := TableState.init 1 3; _loop := None;
                 _connection := None; _configured_port := Some "COM5";
                 _active_port := None |} in
  let self' := fst (_worker_turn self [] (opened [line "S,2,2" 100 100; read_fails])) in
  _connection self' = None /\ _active_port self' = None /\
  color_of (_state self') 2 = Some "red".
Proof.
  intros self self'.
  destruct (worker_turn_spec self [] (opened [line "S,2,2" 100 100; read_fails]))
    as [_ [_ H]].
  destruct (H "COM5" eq_refl) as [H1 [H2 [_ H4]]]; [discriminate|].
  split; [exact H1|]. split; [exact H2|]. fold self' in H4. rewrite H4. reflexivity.
Defined.

(** ** The handlers *)

Lemma not_connected_with_table_state app state :
  not_connected (Api.serial_receiver (Api.with_table_state app state)) =
  not_connected (Api.serial_receiver app).
Proof. reflexivity. Qed.

Lemma write_locked_down self message :
  not_connected self = true ->
  write_locked self message = (self, Raise (RuntimeError "Serial link is not connected.")).
Proof. intros H. unfold write_locked. now rewrite H. Qed.

Lemma write_locked_up self connection message :
  _connection self = Some connection -> is_open connection = true ->
  write_locked self message =
  (with_connection self (Some (write connection message)), Return tt).
Proof.
  intros Hc Ho. unfold write_locked.
  assert (N : not_connected self = false) by (unfold not_connected; now rewrite Hc, Ho).
  now rewrite N, Hc.
Qed.

Lemma broadcast_and_return_spec send_json app message :
  Api.broadcast_and_return send_json app message =
  ({| Api.serial_receiver := Api.serial_receiver app;
      Api.ws_manager :=
        {| _connections := filter (send_ok send_json message)
                                  (_connections (Api.ws_manager app)) |} |},
   map (fun c => (c, send_ok send_json message c)) (_connections (Api.ws_manager app)),
   Api.ok message).
Proof. unfold Api.broadcast_and_return. now rewrite broadcast_spec. Qed.

(** X18. [api_update_table] changes the store first, in every case.  With
    the serial link down it then answers 503 and tells no observer, so the
    observers miss a change the store already holds; with the link up it
    writes the command, sends the change to every observer, pruning those
    whose send fails, and answers with the change. *)
Theorem api_update_table_spec (send_json : WebSocket -> Message -> exc unit)
        (app : Api.t) (table_id : Z) (color : string) (now now' : Q) :
  In color VALID_COLORS ->
  let result := Api.api_update_table send_json app table_id color now now' in
  let app' := fst (fst result) in
  let update := snd (update_table (Api.table_state app) table_id color now now') in
  Api.table_state app' = fst (update_table (Api.table_state app) table_id color now now') /\
  color_of (Api.table_state app') table_id = Some color /\
  (not_connected (Api.serial_receiver app) = true ->
   snd result = Api.http_error 503 "Serial link is not connected." /\
   snd (fst result) = [] /\
   Api.ws_manager app' = Api.ws_manager app) /\
  (forall connection,
      _connection (Api.serial_receiver app) = Some connection ->
      is_open connection = true ->
      snd result = Api.ok update /\
      map fst (snd (fst result)) = _connections (Api.ws_manager app) /\
      _connections (Api.ws_manager app') =
        filter (send_ok send_json update) (_connections (Api.ws_manager app)) /\
      exists color_id,
        get COLOR_CODE color_id = Some color /\
        _connection (Api.serial_receiver app') =
          Some (write connection
                  ("T," ++ str_of_int table_id ++ "," ++ str_of_int color_id ++ LF)%string)).
Proof.
  intros Hcolor. cbn zeta.
  destruct (color_name_to_id color Hcolor) as [color_id [Hid Hcode]].
  unfold Api.api_update_table. cbn [update_table fst snd].
  unfold send_teacher_command. rewrite Hid.
  set (state := update_table_store (Api.table_state app) table_id color now).
  set (update := table_update_msg _ _ _ _).
  set (message := ("T," ++ str_of_int table_id ++ "," ++ str_of_int color_id ++ LF)%string).
  assert (Hcol : color_of state table_id = Some color) by apply update_color_same.
  destruct (not_connected (Api.serial_receiver app)) eqn:N.
  - rewrite write_locked_down by (rewrite not_connected_with_table_state; exact N).
    cbn [fst snd Api.table_state Api.with_serial_receiver Api.with_table_state
         Api.serial_receiver Api.ws_manager _state].
    split; [reflexivity|]. split; [exact Hcol|]. split; [auto|].
    intros connection Hc Ho. unfold not_connected in N. rewrite Hc, Ho in N. discriminate.
  - destruct (_connection (Api.serial_receiver app)) as [connection|] eqn:Hc;
      [|unfold not_connected in N; rewrite Hc in N; discriminate].
    assert (Ho : is_open connection = true).
    { unfold not_connected in N. rewrite Hc in N. now destruct (is_open connection). }
    rewrite (write_locked_up _ connection message) by (cbn; assumption).
    rewrite broadcast_and_return_spec.
    cbn [fst snd Api.table_state Api.with_serial_receiver Api.with_table_state
         Api.serial_receiver Api.ws_manager _state with_connection _connection _connections].
    split; [reflexivity|]. split; [exact Hcol|]. split; [discriminate|].
    intros connection' [= <-] _.
    split; [reflexivity|]. split; [rewrite map_map; apply map_id|].
    split; [reflexivity|]. exists color_id. now split.
Qed.

Lemma api_update_table_spec_witness :
  let send_json := fun (c : WebSocket) (_ : Message) => @Return unit tt in
  let app := {| Api.serial_receiver :=
                  {| _state := TableState.init 1 3; _loop := None; _connection := None;
                     _configured_port := None; _active_port := None |};
                Api.ws_manager := {| _connections := [1; 2]%nat |} |} in
  let result := Api.api_update_table send_json app 2 "red" 100 101 in
  color_of (Api.table_state (fst (fst result))) 2 = Some "red" /\
  snd result = Api.http_error 503 "Serial link is not connected." /\
  snd (fst result) = [].
Proof.
  intros send_json app result.
  assert (Hred : In "red" VALID_COLORS) by (simpl; tauto).
  destruct (api_update_table_spec send_json app 2 "red" 100 101 Hred) as [_ [H1 [H2 _]]].
  destruct (H2 eq_refl) as [H3 [H4 _]].
  split; [exact H1|]. split; [exact H3 | exact H4].
Defined.

(** X19. [api_reset] resets the store first, in every case.  With the
    serial link down it then answers 503 and tells no observer; with the
    link up it writes [T,-1,0], sends the snapshot to every observer and
    answers with it. *)
Theorem api_reset_spec (send_json : WebSocket -> Message -> exc unit)
        (app : Api.t) (now : Q) :
  let result := Api.api_reset send_json app now in
  let app' := fst (fst result) in
  let snap := snd (TableState.reset_all (Api.table_state app) now) in
  Api.table_state app' = fst (TableState.reset_all (Api.table_state app) now) /\
  (not_connected (Api.serial_receiver app) = true ->
   snd result = Api.http_error 503 "Serial link is not connected." /\
   snd (fst result) = [] /\
   Api.ws_manager app' = Api.ws_manager app) /\
  (forall connection,
      _connection (Api.serial_receiver app) = Some connection ->
      is_open connection = true ->
      snd result = Api.ok snap /\
      map fst (snd (fst result)) = _connections (Api.ws_manager app) /\
      _connections (Api.ws_manager app') =
        filter (send_ok send_json snap) (_connections (Api.ws_manager app)) /\
      _connection (Api.serial_receiver app') =
        Some (write connection ("T,-1,0" ++ LF)%string)).
Proof.
  cbn zeta. unfold Api.api_reset. cbn [TableState.reset_all fst snd].
  unfold SerialReceiver.reset_all.
  set (state := reset_all_store (Api.table_state app)).
  set (snap := _snapshot_locked state now).
  destruct (not_connected (Api.serial_receiver app)) eqn:N.
  - rewrite write_locked_down by (rewrite not_connected_with_table_state; exact N).
    cbn [fst snd Api.table_state Api.with_serial_receiver Api.with_table_state
         Api.serial_receiver Api.ws_manager _state].
    split; [reflexivity|]. split; [auto|].
    intros connection Hc Ho. unfold not_connected in N. rewrite Hc, Ho in N. discriminate.
  - destruct (_connection (Api.serial_receiver app)) as [connection|] eqn:Hc;
      [|unfold not_connected in N; rewrite Hc in N; discriminate].
    assert (Ho : is_open connection = true).
    { unfold not_connected in N. rewrite Hc in N. now destruct (is_open connection). }
    rewrite (write_locked_up _ connection ("T,-1,0" ++ LF)%string) by (cbn; assumption).
    rewrite broadcast_and_return_spec.
    cbn [fst snd Api.table_state Api.with_serial_receiver Api.with_table_state
         Api.serial_receiver Api.ws_manager _state with_connection _connection _connections].
    split; [reflexivity|]. split; [discriminate|].
    intros connection' [= <-] _.
    split; [reflexivity|]. split; [rewrite map_map; apply map_id|].
    split; reflexivity.
Qed.

Lemma api_reset_spec_witness :
  let send_json := fun (c : WebSocket) (_ : Message) => @Return unit tt in
  let app := {| Api.serial_receiver :=
                  {| _state := run (TableState.init 1 3) [op_update 2 "red" 100];
                     _loop := None; _connection := None;
                     _configured_port := None; _active_port := None |};
                Api.ws_manager := {| _connections := [1; 2]%nat |} |} in
  let result := Api.api_reset send_json app 200 in
  color_of (Api.table_state (fst (fst result))) 2 = Some "green" /\
  snd result = Api.http_error 503 "Serial link is not connected." /\
  snd (fst result) = [].
Proof.
  intros send_json app result.
  destruct (api_reset_spec send_json app 200) as [_ [H2 _]].
  destruct (H2 eq_refl) as [H3 [H4 _]].
  split; [reflexivity|]. split; [exact H3 | exact H4].
Defined.

(** X20. The validation of a [TableRangeRequest] accepts exactly the pairs
    [configure_range] accepts, [0 < start <= end].  For such a pair the
    route runs [api_table_range], which replaces the store by the fresh
    range, sends the snapshot to every observer and answers with it; any
    other pair is answered 422 by the validation, with the store and the
    observers untouched, so that the 400 of the handler is never served. *)
Theorem api_table_range_spec (send_json : WebSocket -> Message -> exc unit)
        (app : Api.t) (start end_ : Z) (now : Q) :
  let served := Api.post_table_range send_json app start end_ now in
  (Api.validate_table_range start end_ = Return (start, end_) <-> 0 < start <= end_) /\
  ((exists e, Api.validate_table_range start end_ = Raise e) <->
   (exists e, snd (configure_range (Api.table_state app) start end_ now) = Raise e)) /\
  (0 < start <= end_ ->
   served = Api.api_table_range send_json app start end_ now /\
   Api.table_state (fst (fst served)) = TableState.init start end_ /\
   snd served = Api.ok (snapshot (TableState.init start end_) now) /\
   map fst (snd (fst served)) = _connections (Api.ws_manager app)) /\
  (start <= 0 \/ end_ < start ->
   (exists detail, snd served = Api.http_error 422 detail) /\
   snd (fst served) = [] /\ fst (fst served) = app) /\
  (forall detail, snd served <> Api.http_error 400 detail).
Proof.
  cbn zeta.
  assert (A : Api.validate_table_range start end_ = Return (start, end_) <-> 0 < start <= end_).
  { unfold Api.validate_table_range, Api.ensure_valid_range.
    destruct (Z.leb_spec 1 start); destruct (Z.leb_spec 1 end_); cbn [andb];
      try (split; [discriminate | lia]).
    destruct (Z.ltb_spec end_ start); split; try discriminate; try reflexivity; lia. }
  assert (B : ~ 0 < start <= end_ ->
              exists detail, Api.validate_table_range start end_ = Raise (ValueError detail)).
  { intros H. unfold Api.validate_table_range, Api.ensure_valid_range.
    destruct (Z.leb_spec 1 start); destruct (Z.leb_spec 1 end_); cbn [andb];
      try (eexists; reflexivity).
    destruct (Z.ltb_spec end_ start); [eexists; reflexivity | lia]. }
  split; [exact A|].
  unfold Api.post_table_range, Api.api_table_range, configure_range.
  destruct ((start <=? 0) || (end_ <? start)) eqn:G.
  - assert (Hbad : start <= 0 \/ end_ < start).
    { apply orb_true_iff in G as [G|G]; [left; lia | right; lia]. }
    destruct B as [detail ->]; [lia|]. cbn [fst snd].
    split; [|split; [|split]].
    + split; intros _; eexists; reflexivity.
    + intros H. lia.
    + intros _. split; [now exists detail | split; reflexivity].
    + intros d. discriminate.
  - apply orb_false_iff in G as [G1 G2].
    apply Z.leb_gt in G1. apply Z.ltb_ge in G2.
    assert (Hok : 0 < start <= end_) by lia.
    rewrite (proj2 A Hok).
    assert (((start <=? 0) || (end_ <? start)) = false) as ->.
    { apply orb_false_iff. split; [apply Z.leb_gt | apply Z.ltb_ge]; lia. }
    rewrite broadcast_and_return_spec. cbn [fst snd]. split; [|split; [|split]].
    + split; intros [e He]; discriminate.
    + intros _. split; [reflexivity|]. split; [reflexivity|]. split; [reflexivity|].
      rewrite map_map. apply map_id.
    + intros H. lia.
    + intros d. discriminate.
Qed.

Lemma api_table_range_spec_witness :
  let send_json := fun (c : WebSocket) (_ : Message) => @Return unit tt in
  let app := {| Api.serial_receiver :=
                  {| _state := TableState.init 1 3; _loop := None; _connection := None;
                     _configured_port := None; _active_port := None |};
                Api.ws_manager := {| _connections := [1; 2]%nat |} |} in
  entity_ids (Api.table_state (fst (fst (Api.post_table_range send_json app 4 6 100)))) =
    [4; 5; 6] /\
  (exists detail,
     snd (Api.post_table_range send_json app 6 4 100) = Api.http_error 422 detail) /\
  fst (fst (Api.post_table_range send_json app 6 4 100)) = app.
Proof.
  intros send_json app.
  destruct (api_table_range_spec send_json app 4 6 100) as [_ [_ [H _]]].
  destruct (api_table_range_spec send_json app 6 4 100) as [_ [_ [_ [H' _]]]].
  destruct H as [_ [H1 _]]; [lia|]. destruct H' as [H2 [_ H3]]; [right; lia|].
  split; [rewrite H1; reflexivity|]. split; [exact H2 | exact H3].
Defined.

Lemma enumerate_ports_spec comports :
  map pe_device (_enumerate_ports comports) = map device comports /\
  Forall (fun entry => pe_description entry <> EmptyString) (_enumerate_ports comports).
Proof.
  unfold _enumerate_ports. split.
  - rewrite map_map. reflexivity.
  - apply Forall_forall. intros entry H. apply in_map_iff in H as [port [<- _]].
    cbn [pe_description]. unfold description_or_unknown.
    destruct (description port) as [[|c d]|]; discriminate.
Qed.

(** X21. [api_serial_config] strips the requested port twice, in the
    handler and in [set_port], which comes to stripping it once.  The
    status it answers with has that port as configured port, no connected
    port, and one entry per port of the system, in order, none with an
    empty description; the store is not touched. *)
Theorem api_serial_config_spec (app : Api.t) (port : option string)
        (comports : list ListPortInfo) :
  let app' := fst (Api.api_serial_config app port comports) in
  let status := snd (Api.api_serial_config app port comports) in
  configured_port status = normalize_port port /\
  _configured_port (Api.serial_receiver app') = normalize_port port /\
  connected_port status = None /\
  map pe_device (available_ports status) = map device comports /\
  Forall (fun entry => pe_description entry <> EmptyString) (available_ports status) /\
  (forall d, In d (map pe_description (available_ports status)) ->
             d = "Unknown" \/ In (Some d) (map description comports)) /\
  Api.table_state app' = Api.table_state app /\
  Api.ws_manager app' = Api.ws_manager app.
Proof.
  cbn zeta. unfold Api.api_serial_config.
  cbn [fst snd serial_status configured_port connected_port available_ports
       set_port _force_reconnect _configured_port _active_port
       Api.with_serial_receiver Api.serial_receiver Api.ws_manager Api.table_state _state].
  rewrite normalize_port_idem.
  do 3 (split; [reflexivity|]).
  split; [apply enumerate_ports_spec|]. split; [apply enumerate_ports_spec|].
  split; [|split; reflexivity].
  intros d Hd. unfold _enumerate_ports in Hd. rewrite map_map in Hd.
  apply in_map_iff in Hd as [p [<- Hp]]. cbn [pe_description].
  unfold description_or_unknown.
  destruct (description p) as [[|c s]|] eqn:E; cbn [truthy_str]; [now left | | now left].
  right. rewrite <- E. now apply in_map.
Qed.

Lemma api_serial_config_spec_witness :
  let app := {| Api.serial_receiver :=
                  {| _state := TableState.init 1 3; _loop := None;
                     _connection := Some {| is_open := true; written := [] |};
                     _configured_port := None; _active_port := Some "COM3" |};
                Api.ws_manager := {| _connections := [1]%nat |} |} in
  let comports := [ {| device := "COM3"; description := Some "mbed Serial Port" |};
                    {| device := "COM6"; description := None |} ] in
  snd (Api.api_serial_config app (Some " COM6  ") comports) =
    {| configured_port := Some "COM6"; connected_port := None;
       available_ports := [ {| pe_device := "COM3"; pe_description := "mbed Serial Port" |};
                            {| pe_device := "COM6"; pe_description := "Unknown" |} ] |} /\
  configured_port (snd (Api.api_serial_config app (Some " COM6  ") comports)) =
    normalize_port (Some " COM6  ").
Proof.
  intros app comports. split; [reflexivity|].
  apply (api_serial_config_spec app (Some " COM6  ") comports).
Defined.

Lemma update_table_frame_witness :
  let st := run (TableState.init 1 3) [op_update 2 "red" 100] in
  let st' := fst (update_table st 7 "orange" 200 201) in
  color_of st' 2 = color_of st 2 /\ redSince st' 2 = redSince st 2 /\
  List.length (entity_ids st') = 4%nat.
Proof.
  intros st st'.
  destruct (update_table_frame st 7 "orange" 200 201) as [H [_ [_ [_ [_ L]]]]].
  destruct (H 2) as [H1 H2]; [discriminate|].
  split; [exact H1|]. split; [exact H2 | exact L].
Defined.

Lemma red_durations_by_id_in_range_witness :
  StronglySorted by_seconds_then_id
    (_red_durations_locked
       (run (TableState.init 5 7) [op_update 7 "red" 100; op_update 5 "red" (201 # 2)])
       (1107 # 10) 10).
Proof.
  apply (red_durations_by_id_in_range 5 7
           [op_update 7 "red" 100; op_update 5 "red" (201 # 2)] (1107 # 10) 10);
    [|lia].
  simpl. unfold in_range. simpl. repeat split; lia.
Defined.
